(** * forgeron: Bayesian-network sampling and header generation

    A shallow embedding of the sampling engine ([bayesianNetwork],
    [node]), of the header generator ([HeaderGenerator]) and of the
    state effect of [FingerprintGenerator.Generate], followed by the
    properties of these functions.

    Conventions.
    - Go [float64] is Rocq's primitive binary64 [float]; [+] and [>] are
      [PrimFloat.add] and [PrimFloat.ltb].
    - A Go [map[string]T] is a [gmap string T].  A loop [for k, v := range m]
      whose effect depends on the iteration order draws that order from
      the runtime ([range_order]); loops that insert distinct keys into a
      fresh map are written as the map operation they compute.
    - A run-time panic (index out of range, failed type assertion) is the
      outcome [Panic] (or [None] for functions that touch no runtime state).
    - Recursion that the source does not bound structurally takes a [fuel]
      argument; running out of it is the outcome [OutOfFuel]. *)

From Stdlib Require Import PrimInt63 Uint63 PrimFloat FloatOps SpecFloat ZArith Ascii String.
From stdpp Require Import gmap strings list fin_maps pretty.

Set Warnings "-inexact-float".

Local Open Scope Z_scope.
Local Open Scope string_scope.
Local Open Scope list_scope.

(* ===================================================================== *)
(** ** Go strings *)
(* ===================================================================== *)

Module GoStrings.

(** [strings.HasPrefix(s, p)]. *)
Definition HasPrefix (s p : string) : bool := String.prefix p s.

(** [strings.Split(s, sep)] for a one-byte separator: the pieces between
    the occurrences of [sep]; always at least one piece. *)
Fixpoint Split (sep : ascii) (s : string) : list string :=
  match s with
  | EmptyString => [EmptyString]
  | String c rest =>
      if Ascii.eqb c sep then EmptyString :: Split sep rest
      else match Split sep rest with
           | hd :: tl => String c hd :: tl
           | [] => [String c EmptyString]
           end
  end.

(** [strings.Join(parts, sep)]. *)
Definition Join (parts : list string) (sep : string) : string :=
  String.concat sep parts.

(** Number of occurrences of a byte. *)
Fixpoint count (c : ascii) (s : string) : nat :=
  match s with
  | EmptyString => 0%nat
  | String d rest => ((if Ascii.eqb d c then 1 else 0) + count c rest)%nat
  end.

(** The part of [s] before the first [sep] (all of [s] when there is none). *)
Fixpoint before (sep : ascii) (s : string) : string :=
  match s with
  | EmptyString => EmptyString
  | String c rest => if Ascii.eqb c sep then EmptyString else String c (before sep rest)
  end.

(** Bytes of a string. *)
Fixpoint bytes (s : string) : list ascii :=
  match s with
  | EmptyString => []
  | String c rest => c :: bytes rest
  end.

End GoStrings.

(* ===================================================================== *)
(** ** The Go runtime and the libraries the package calls *)
(* ===================================================================== *)

(** What the package takes from outside: the process-wide random source of
    [math/rand], the order in which [range] walks a map, and three library
    functions on strings.  [World] is the state of the two random
    sources. *)
Class GoRuntime := {
  World : Type;
  (** [rand.Float64()] *)
  rand_Float64 : World -> float * World;
  (** the choice the runtime makes when a [range] over a map starts *)
  range_seed : World -> list nat * World;
  (** [strings.ToLower] *)
  strings_ToLower : string -> string;
  (** [cases.Title(language.Und).String] *)
  cases_Title : string -> string;
  (** [fmt.Sscanf(s, "%d", &n)]: the number scanned, [None] when the scan
      fails and leaves [n] untouched *)
  fmt_Sscanf_d : string -> option Z;
}.

(** Insertion at a position, clipped to the end of the list. *)
Fixpoint insert_at {A} (n : nat) (x : A) (l : list A) : list A :=
  match n, l with
  | O, _ => x :: l
  | S n', y :: l' => y :: insert_at n' x l'
  | S _, [] => [x]
  end.

(** The rearrangement of [l] selected by a seed: every seed gives a
    permutation and every permutation has a seed (see [shuffle_Permutation]
    and [shuffle_complete]). *)
Fixpoint shuffle {A} (seed : list nat) (l : list A) : list A :=
  match l with
  | [] => []
  | x :: l' =>
      match seed with
      | [] => x :: l'
      | n :: seed' => insert_at n x (shuffle seed' l')
      end
  end.

(** Outcome of a run. *)
Inductive outcome (A : Type) : Type :=
| Ret (a : A)
| Panic
| OutOfFuel.
Arguments Ret {A} a.
Arguments Panic {A}.
Arguments OutOfFuel {A}.

Section Runtime.
Context `{GoRuntime}.

(** Computations that read and advance the runtime state. *)
Definition M (A : Type) : Type := World -> outcome (A * World).

Definition ret {A} (a : A) : M A := fun w => Ret (a, w).

Definition bind {A B} (m : M A) (k : A -> M B) : M B :=
  fun w =>
    match m w with
    | Ret (a, w') => k a w'
    | Panic => Panic
    | OutOfFuel => OutOfFuel
    end.

Definition panic {A} : M A := fun _ => Panic.

(** A pure step that may panic. *)
Definition lift_option {A} (o : option A) : M A :=
  match o with
  | Some a => ret a
  | None => panic
  end.

Definition Float64 : M float := fun w => Ret (rand_Float64 w).

(** The entries of a map in the order one [range] loop visits them. *)
Definition range_order {A} (m : gmap string A) : M (list (string * A)) :=
  fun w => let '(seed, w') := range_seed w in Ret (shuffle seed (map_to_list m), w').

End Runtime.

Notation "'let*' x := m 'in' k" := (bind m (fun x => k))
  (at level 10, x name, m at level 100, k at level 200, only parsing).

(* ===================================================================== *)
(** ** The Bayesian network *)
(* ===================================================================== *)

(** A decoded JSON value as [encoding/json] stores it in an
    [interface{}]: a number, an object, or anything else (string, bool,
    array, null). *)
#[warnings="-register-all"]
Inductive jvalue : Type :=
| JFloat (f : float)
| JMap (m : gmap string jvalue)
| JOther.

Record node : Type := {
  Name : string;
  ParentNames : list string;
  PossibleValues : list string;
  ConditionalProbs : gmap string jvalue;
}.

Record bayesianNetwork : Type := {
  NodesInSamplingOrder : list node;
  NodesByName : gmap string node;
}.

(** [m[k]] on a [map[string]string]: the zero value when [k] is absent. *)
Definition index_str (m : gmap string string) (k : string) : string :=
  default "" (m !! k).

(** [m[k]] on a [map[string]float64]. *)
Definition index_float (m : gmap string float) (k : string) : float :=
  default 0%float (m !! k).

(** One round of the loop of [getProbabilitiesGivenKnownValues]; [None]
    is the panic of an unchecked type assertion. *)
Definition descend (probabilities : gmap string jvalue) (parentValue : string)
  : option (gmap string jvalue) :=
  match probabilities !! "deeper" with
  | Some (JMap deeper) =>
      match deeper !! parentValue with
      | Some (JMap next) => Some next
      | Some _ => None
      | None =>
          match probabilities !! "skip" with
          | Some (JMap skip) => Some skip
          | _ => None
          end
      end
  | _ => Some probabilities
  end.

Fixpoint descend_all (probabilities : gmap string jvalue)
    (parentNames : list string) (parentValues : gmap string string)
  : option (gmap string jvalue) :=
  match parentNames with
  | [] => Some probabilities
  | parentName :: rest =>
      match descend probabilities (index_str parentValues parentName) with
      | Some probabilities' => descend_all probabilities' rest parentValues
      | None => None
      end
  end.

(** The entries of a CPT level that are numbers. *)
Definition float_entries (probabilities : gmap string jvalue) : gmap string float :=
  omap (fun v => match v with JFloat p => Some p | _ => None end) probabilities.

Definition getProbabilitiesGivenKnownValues (n : node) (parentValues : gmap string string)
  : option (gmap string float) :=
  float_entries <$> descend_all (ConditionalProbs n) (ParentNames n) parentValues.

(** The scan of [sampleRandomValueFromPossibilities]: the first value at
    which the running sum exceeds [anchor]. *)
Fixpoint scan (anchor cumulativeProbability : float) (possibleValues : list string)
    (probabilities : gmap string float) : option string :=
  match possibleValues with
  | [] => None
  | value :: rest =>
      let cumulativeProbability' :=
        PrimFloat.add cumulativeProbability (index_float probabilities value) in
      if PrimFloat.ltb anchor cumulativeProbability' then Some value
      else scan anchor cumulativeProbability' rest probabilities
  end.

Section Sampling.
Context `{GoRuntime}.

Definition sampleRandomValueFromPossibilities (possibleValues : list string)
    (probabilities : gmap string float) : M string :=
  let* anchor := Float64 in
  match scan anchor 0%float possibleValues probabilities with
  | Some value => ret value
  | None => lift_option (possibleValues !! 0%nat)
  end.

Definition sample (n : node) (parentValues : gmap string string) : M string :=
  let* probabilities := lift_option (getProbabilitiesGivenKnownValues n parentValues) in
  let* entries := range_order probabilities in
  sampleRandomValueFromPossibilities entries.*1 probabilities.

(** The values of [valuePossibilities] that are not banned and have an
    entry in the distribution. *)
Definition validValues (probabilities : gmap string float)
    (valuePossibilities bannedValues : list string) : list string :=
  filter (fun value => (value ∉ bannedValues) ∧ is_Some (probabilities !! value))
         valuePossibilities.

Definition validProbs (probabilities : gmap string float) (valid : list string)
  : gmap string float :=
  foldl (fun m value => <[value := index_float probabilities value]> m) ∅ valid.

(** [None] in the result is the pair [("", false)]. *)
Definition sampleAccordingToRestrictions (n : node) (parentValues : gmap string string)
    (valuePossibilities bannedValues : list string) : M (option string) :=
  let* probabilities := lift_option (getProbabilitiesGivenKnownValues n parentValues) in
  let valid := validValues probabilities valuePossibilities bannedValues in
  match valid with
  | [] => ret None
  | _ :: _ =>
      let* value := sampleRandomValueFromPossibilities valid (validProbs probabilities valid) in
      ret (Some value)
  end.

Fixpoint generateSample_loop (nodes : list node) (sample_ : gmap string string)
  : M (gmap string string) :=
  match nodes with
  | [] => ret sample_
  | n :: rest =>
      match sample_ !! Name n with
      | Some _ => generateSample_loop rest sample_
      | None =>
          let* value := sample n sample_ in
          generateSample_loop rest (<[Name n := value]> sample_)
      end
  end.

(** [inputValues] nil and empty behave alike: both are [∅]. *)
Definition generateSample (bn : bayesianNetwork) (inputValues : gmap string string)
  : M (gmap string string) :=
  generateSample_loop (NodesInSamplingOrder bn) inputValues.

(** The candidate list of a node: the restriction list under its name
    when there is one, [PossibleValues] otherwise.  The source indexes
    [valuePossibilities] and tests for nil, so a key bound to a nil slice
    and an absent key are the same: both are an absent key here. *)
Definition possibilities (valuePossibilities : gmap string (list string)) (n : node)
  : list string :=
  match valuePossibilities !! Name n with
  | Some l => l
  | None => PossibleValues n
  end.

(** The body of [recursivelyGenerateConsistentSampleWhenPossible]
    standing at the head of its loop with the banned list [bannedValues];
    a call of the source function is this with [bannedValues = []], and
    the test on [depth], constant in the loop, is repeated at each round.
    [sampleSoFar] is one map shared by all depths and updated in place:
    the second component of the result is that map as the call leaves it,
    the first is the returned map ([None] for [nil, false]). *)
Fixpoint recursivelyGenerateConsistentSampleWhenPossible (fuel : nat)
    (bn : bayesianNetwork) (sampleSoFar : gmap string string)
    (valuePossibilities : gmap string (list string)) (depth : nat)
    (bannedValues : list string)
  : M (option (gmap string string) * gmap string string) :=
  match fuel with
  | O => fun _ => OutOfFuel
  | S fuel' =>
      if (depth =? length (NodesInSamplingOrder bn))%nat
      then ret (Some sampleSoFar, sampleSoFar)
      else
        let* n := lift_option (NodesInSamplingOrder bn !! depth) in
        let* r := sampleAccordingToRestrictions n sampleSoFar
                    (possibilities valuePossibilities n) bannedValues in
        match r with
        | None => ret (None, sampleSoFar)
        | Some sampleValue =>
            let* next := recursivelyGenerateConsistentSampleWhenPossible fuel' bn
                           (<[Name n := sampleValue]> sampleSoFar)
                           valuePossibilities (S depth) [] in
            match next with
            | (Some nextSample, shared) => ret (Some nextSample, shared)
            | (None, shared) =>
                recursivelyGenerateConsistentSampleWhenPossible fuel' bn
                  (delete (Name n) shared) valuePossibilities depth
                  (bannedValues ++ [sampleValue])
            end
        end
  end.

Definition generateConsistentSampleWhenPossible (fuel : nat) (bn : bayesianNetwork)
    (valuePossibilities : gmap string (list string))
  : M (option (gmap string string)) :=
  let* r := recursivelyGenerateConsistentSampleWhenPossible fuel bn ∅ valuePossibilities 0 [] in
  ret r.1.

End Sampling.

(* ===================================================================== *)
(** ** Header constraints and their validation *)
(* ===================================================================== *)

Module BrowserSpec.
Record t : Type := {
  Name : string;
  MinVersion : Z;
  MaxVersion : Z;
  HTTPVersion : string;
}.
End BrowserSpec.

Module httpBrowser.
(** [Name] is a [*string]: [None] is nil. *)
Record t : Type := {
  Name : option string;
  Version : list Z;
  CompleteString : string;
  HTTPVersion : string;
}.

Definition IsHTTP2 (h : t) : bool := bool_decide (HTTPVersion h = "2").
End httpBrowser.

Module HeaderConstraints.
(** [BrowserSpecs] is a [[]*BrowserSpec]: the list holds the records
    behind the pointers, all of them non-nil (the source reads the fields
    of each element without a test, so a nil element aborts the call). *)
Record t : Type := {
  BrowserSpecs : list BrowserSpec.t;
  Browsers : list string;
  OS : list string;
  Devices : list string;
  Locales : list string;
  HTTPVersion : string;
  Strict : bool;
}.
End HeaderConstraints.

Definition SupportedBrowsers : list string := ["chrome"; "firefox"; "safari"; "edge"].
Definition SupportedOS : list string := ["windows"; "macos"; "linux"; "android"; "ios"].
Definition SupportedDevices : list string := ["desktop"; "mobile"].
Definition SupportedHTTP : list string := ["1"; "2"].

Definition missingValueToken : string := "*MISSING_VALUE*".

Definition http1SecFetchAttributes : gmap string string :=
  <["Sec-Fetch-Mode" := "same-site"]>
  (<["Sec-Fetch-Dest" := "navigate"]>
  (<["Sec-Fetch-Site" := "?1"]>
  (<["Sec-Fetch-User" := "document"]> ∅))).

Definition http2SecFetchAttributes : gmap string string :=
  <["sec-fetch-mode" := "same-site"]>
  (<["sec-fetch-dest" := "navigate"]>
  (<["sec-fetch-site" := "?1"]>
  (<["sec-fetch-user" := "document"]> ∅))).

Record HeaderGenerator : Type := {
  headerGeneratorNetwork : bayesianNetwork;
  inputGeneratorNetwork : bayesianNetwork;
  headersOrder : gmap string (list string);
  uniqueBrowsers : list httpBrowser.t;
  options : HeaderConstraints.t;
}.

Definition defaultHeaderOptions : HeaderConstraints.t := {|
  HeaderConstraints.BrowserSpecs := [];
  HeaderConstraints.Browsers := SupportedBrowsers;
  HeaderConstraints.OS := SupportedOS;
  HeaderConstraints.Devices := SupportedDevices;
  HeaderConstraints.Locales := ["en-US"];
  HeaderConstraints.HTTPVersion := "2";
  HeaderConstraints.Strict := false;
|}.

(** The errors the package builds with [fmt.Errorf], by format string. *)
#[warnings="-register-all"]
Inductive error : Type :=
| ErrNotSupported (value : string)           (* value '%s' is not supported *)
| ErrInvalidValues (invalid : list string)   (* the following values are not supported: %v *)
| ErrValidation (errs : list error)          (* validation errors: %v *)
| ErrNoHeaders                               (* no headers based on this input can be generated... *)
| ErrGenerateHeaders (e : error)             (* failed to generate headers: %w *)
| ErrNoUserAgent                             (* failed to find User-Agent in generated headers *)
| ErrNoFingerprint                           (* could not generate fingerprint with given constraints *)
| ErrTransform (msg : string).               (* the errors of transformFingerprint *)

Inductive result (A : Type) : Type :=
| OK (a : A)
| Err (e : error).
Arguments OK {A} a.
Arguments Err {A} e.

(** [nil] when [value] is one of [supported]. *)
Definition validateAgainstSupported (value : string) (supported : list string)
  : option error :=
  if bool_decide (value ∈ supported) then None else Some (ErrNotSupported value).

Fixpoint filterValidValues_loop (values supported valid invalidValues : list string)
  : list string * list string :=
  match values with
  | [] => (valid, invalidValues)
  | v :: rest =>
      match validateAgainstSupported v supported with
      | Some _ => filterValidValues_loop rest supported valid (invalidValues ++ [v])
      | None => filterValidValues_loop rest supported (valid ++ [v]) invalidValues
      end
  end.

Definition filterValidValues (values supported : list string)
  : list string * option error :=
  match values with
  | [] => ([], None)
  | _ :: _ =>
      let '(valid, invalidValues) := filterValidValues_loop values supported [] [] in
      if (0 <? length invalidValues)%nat
      then (valid, Some (ErrInvalidValues invalidValues))
      else (valid, None)
  end.

(** The closure [validateAndMerge] of [mergeOptions]: [current] is the
    field of [merged] the setter writes, [validationErrors] the captured
    slice; the result is their values after the call. *)
Definition validateAndMerge (userValues supported current : list string)
    (validationErrors : list error) : list string * list error :=
  match userValues with
  | [] => (current, validationErrors)
  | _ :: _ =>
      let '(valid, err) := filterValidValues userValues supported in
      let validationErrors' :=
        match err with
        | Some e => validationErrors ++ [e]
        | None => validationErrors
        end in
      (if (0 <? length valid)%nat then valid else current, validationErrors')
  end.

Definition mergeOptions (g : HeaderGenerator) (userOptions : HeaderConstraints.t)
  : HeaderConstraints.t * option error :=
  let merged := options g in
  let '(browsers, errs1) :=
    validateAndMerge (HeaderConstraints.Browsers userOptions) SupportedBrowsers
                     (HeaderConstraints.Browsers merged) [] in
  let '(os, errs2) :=
    validateAndMerge (HeaderConstraints.OS userOptions) SupportedOS
                     (HeaderConstraints.OS merged) errs1 in
  let '(devices, errs3) :=
    validateAndMerge (HeaderConstraints.Devices userOptions) SupportedDevices
                     (HeaderConstraints.Devices merged) errs2 in
  let locales :=
    if (0 <? length (HeaderConstraints.Locales userOptions))%nat
    then (if (10 <? length (HeaderConstraints.Locales userOptions))%nat
          then take 10 (HeaderConstraints.Locales userOptions)
          else HeaderConstraints.Locales userOptions)
    else HeaderConstraints.Locales merged in
  let '(httpVersion, errs4) :=
    if bool_decide (HeaderConstraints.HTTPVersion userOptions = "")
    then (HeaderConstraints.HTTPVersion merged, errs3)
    else match validateAgainstSupported (HeaderConstraints.HTTPVersion userOptions)
                                        SupportedHTTP with
         | Some e => (HeaderConstraints.HTTPVersion merged, errs3 ++ [e])
         | None => (HeaderConstraints.HTTPVersion userOptions, errs3)
         end in
  let merged' := {|
    HeaderConstraints.BrowserSpecs := HeaderConstraints.BrowserSpecs userOptions;
    HeaderConstraints.Browsers := browsers;
    HeaderConstraints.OS := os;
    HeaderConstraints.Devices := devices;
    HeaderConstraints.Locales := locales;
    HeaderConstraints.HTTPVersion := httpVersion;
    HeaderConstraints.Strict := HeaderConstraints.Strict userOptions;
  |} in
  if (0 <? length errs4)%nat then (merged', Some (ErrValidation errs4))
  else (merged', None).

(* ===================================================================== *)
(** ** Formatting a [float64] with [%.1f] *)
(* ===================================================================== *)

(** The value [m * 2^e] in tenths, rounded to the nearest integer, ties
    to even: the digits [strconv] prints for precision 1. *)
Definition round_tenths (m e : Z) : Z :=
  if (0 <=? e)%Z then 10 * m * 2 ^ e
  else
    let d := 2 ^ (- e) in
    let n := 10 * m in
    let q := n / d in
    let r := n mod d in
    if (2 * r <? d)%Z then q
    else if (d <? 2 * r)%Z then q + 1
    else if Z.even q then q else q + 1.

(** [fmt.Sprintf("%.1f", q)]. *)
Definition format_f1 (q : float) : string :=
  match Prim2SF q with
  | S754_zero s => (if s then "-" else "") +:+ "0.0"
  | S754_infinity s => if s then "-Inf" else "+Inf"
  | S754_nan => "NaN"
  | S754_finite s m e =>
      let t := round_tenths (Z.pos m) e in
      (if s then "-" else "") +:+ pretty (t / 10) +:+ "." +:+ pretty (t mod 10)
  end.

(** [float64(i)] for a loop index. *)
Definition float64_of_index (i : nat) : float :=
  PrimFloat.of_uint63 (Uint63.of_Z (Z.of_nat i)).

(** The [float64] constant [0.1]. *)
Definition one_tenth : float := 0x1.999999999999ap-4%float.

(** The loop of [generateAcceptLanguageHeader] from index [i] on. *)
Fixpoint acceptLanguageParts (i : nat) (locales : list string) : list string :=
  match locales with
  | [] => []
  | locale :: rest =>
      if (10 <=? i)%nat then []
      else
        let q := PrimFloat.sub 1%float (PrimFloat.mul (float64_of_index i) one_tenth) in
        (locale +:+ ";q=" +:+ format_f1 q) :: acceptLanguageParts (S i) rest
  end.

Definition generateAcceptLanguageHeader (locales : list string) : string :=
  GoStrings.Join (acceptLanguageParts 0 locales) ", ".

(** [generateHeadersFromSample]: the loop writes distinct keys into a
    fresh map. *)
Definition generateHeadersFromSample (sample_ : gmap string string)
  : gmap string string :=
  filter (fun kv => GoStrings.HasPrefix kv.1 "*" = false ∧ kv.2 ≠ missingValueToken)
         sample_.

(** The header names [pascalizeHeaders] re-cases. *)
Definition pascalizedNames : list string :=
  ["user-agent"; "accept-language"; "accept-encoding"; "accept";
   "content-type"; "content-length"; "connection"; "host"; "referer";
   "origin"; "cache-control"; "pragma"; "upgrade-insecure-requests";
   "sec-fetch-mode"; "sec-fetch-dest"; "sec-fetch-site"; "sec-fetch-user"].

(** [filterBrowserHTTP]. *)
Definition filterBrowserHTTP (value : string)
    (http1Values http2Values : gmap string (list string)) : bool :=
  match GoStrings.Split "|" value with
  | [browserString; httpVersion] =>
      match GoStrings.Split "/" browserString with
      | [browserName; _] =>
          if bool_decide (httpVersion = "1") then
            if (size http1Values =? 0)%nat then true
            else bool_decide (browserName ∈ default [] (http1Values !! "*BROWSER"))
          else
            if (size http2Values =? 0)%nat then true
            else bool_decide (browserName ∈ default [] (http2Values !! "*BROWSER"))
      | _ => false
      end
  | _ => false
  end.

(** [filterOtherValues]. *)
Definition filterOtherValues (value : string)
    (http1Values http2Values : gmap string (list string)) (key : string) : bool :=
  if (size http1Values =? 0)%nat && (size http2Values =? 0)%nat then true
  else
    if bool_decide (value ∈ default [] (http1Values !! key)) then true
    else bool_decide (value ∈ default [] (http2Values !! key)).

(** One unique browser against one spec in the [BrowserSpecs] branch of
    [getBrowserHTTPOptions]: what is appended to [result]; [None] is the
    panic of [Version[0]] on an empty version. *)
Definition matchBrowserSpec (browser : BrowserSpec.t) (uniqueBrowser : httpBrowser.t)
  : option (list string) :=
  if bool_decide (httpBrowser.Name uniqueBrowser = Some (BrowserSpec.Name browser)) then
    if bool_decide (BrowserSpec.HTTPVersion browser = httpBrowser.HTTPVersion uniqueBrowser)
       || bool_decide (BrowserSpec.HTTPVersion browser = "") then
      let tooOld :=
        if (0 <? BrowserSpec.MinVersion browser)%Z then
          match httpBrowser.Version uniqueBrowser !! 0%nat with
          | Some major => Some (major <? BrowserSpec.MinVersion browser)%Z
          | None => None
          end
        else Some false in
      match tooOld with
      | None => None
      | Some true => Some []
      | Some false =>
          let tooNew :=
            if (0 <? BrowserSpec.MaxVersion browser)%Z then
              match httpBrowser.Version uniqueBrowser !! 0%nat with
              | Some major => Some (BrowserSpec.MaxVersion browser <? major)%Z
              | None => None
              end
            else Some false in
          match tooNew with
          | None => None
          | Some true => Some []
          | Some false => Some [httpBrowser.CompleteString uniqueBrowser]
          end
      end
    else Some []
  else Some [].

(** The same test in the branch that starts from browser names. *)
Definition matchBrowserName (browserName httpVersion : string)
    (uniqueBrowser : httpBrowser.t) : list string :=
  if bool_decide (httpBrowser.Name uniqueBrowser = Some browserName) then
    if bool_decide (httpVersion = httpBrowser.HTTPVersion uniqueBrowser)
       || bool_decide (httpVersion = "") then
      [httpBrowser.CompleteString uniqueBrowser]
    else []
  else [].

(** Appending the results of a loop body that may panic. *)
Fixpoint concat_options {A} (l : list (option (list A))) : option (list A) :=
  match l with
  | [] => Some []
  | None :: _ => None
  | Some x :: rest =>
      match concat_options rest with
      | Some r => Some (x ++ r)
      | None => None
      end
  end.

Definition getBrowserHTTPOptions (g : HeaderGenerator) (opts : HeaderConstraints.t)
  : option (list string) :=
  match HeaderConstraints.BrowserSpecs opts with
  | _ :: _ =>
      concat_options
        (browser ← HeaderConstraints.BrowserSpecs opts;
         uniqueBrowser ← uniqueBrowsers g;
         [matchBrowserSpec browser uniqueBrowser])
  | [] =>
      Some (browserName ← HeaderConstraints.Browsers opts;
            uniqueBrowser ← uniqueBrowsers g;
            matchBrowserName browserName (HeaderConstraints.HTTPVersion opts) uniqueBrowser)
  end.

Definition getPossibleAttributeValues (g : HeaderGenerator) (opts : HeaderConstraints.t)
  : option (gmap string (list string)) :=
  match getBrowserHTTPOptions g opts with
  | None => None
  | Some browserHTTP =>
      let values := <["*BROWSER_HTTP" := browserHTTP]> ∅ in
      let values :=
        if (0 <? length (HeaderConstraints.OS opts))%nat
        then <["*OPERATING_SYSTEM" := HeaderConstraints.OS opts]> values
        else values in
      let values :=
        if (0 <? length (HeaderConstraints.Devices opts))%nat
        then <["*DEVICE" := HeaderConstraints.Devices opts]> values
        else values in
      Some values
  end.

(** [prepareConstraints]; its error result is always nil and is left
    out.  The loop writes distinct keys into a fresh map. *)
Definition prepareConstraints (g : HeaderGenerator) (opts : HeaderConstraints.t)
  : option (gmap string (list string)) :=
  match getPossibleAttributeValues g opts with
  | None => None
  | Some possibleAttributeValues =>
      let httpValues : gmap string (list string) :=
        <["*DEVICE" := HeaderConstraints.Devices opts]>
        (<["*OPERATING_SYSTEM" := HeaderConstraints.OS opts]>
        (<["*BROWSER" := HeaderConstraints.Browsers opts]> ∅)) in
      Some (map_imap
              (fun key values =>
                 let filteredValues :=
                   filter (fun value =>
                             (if bool_decide (key = "*BROWSER_HTTP")
                              then filterBrowserHTTP value httpValues httpValues
                              else filterOtherValues value httpValues httpValues key) = true)
                          values in
                 if (0 <? length filteredValues)%nat then Some filteredValues else None)
              possibleAttributeValues)
  end.

(* ===================================================================== *)
(** ** The header generator *)
(* ===================================================================== *)

Section Headers.
Context `{GoRuntime}.

(** [atoi]: [result] stays 0 when the scan fails. *)
Definition atoi (s : string) : Z := default 0 (fmt_Sscanf_d s).

(** [prepareHttpBrowserObject]; [None] is the nil pointer. *)
Definition prepareHttpBrowserObject (httpBrowserString : string)
  : option httpBrowser.t :=
  if bool_decide (httpBrowserString = missingValueToken) then
    Some {| httpBrowser.Name := None;
            httpBrowser.Version := [];
            httpBrowser.CompleteString := missingValueToken;
            httpBrowser.HTTPVersion := "" |}
  else
    match GoStrings.Split "|" httpBrowserString with
    | [browserString; httpVersion] =>
        match GoStrings.Split "/" browserString with
        | [browserName; versionString] =>
            Some {| httpBrowser.Name := Some browserName;
                    httpBrowser.Version := atoi <$> GoStrings.Split "." versionString;
                    httpBrowser.CompleteString := httpBrowserString;
                    httpBrowser.HTTPVersion := httpVersion |}
        | _ => None
        end
    | _ => None
    end.

(** [shouldAddSecFetch]; the argument is a pointer that may be nil. *)
Definition shouldAddSecFetch (browser : option httpBrowser.t) : bool :=
  match browser with
  | None => false
  | Some b =>
      match httpBrowser.Name b, httpBrowser.Version b with
      | Some name, major :: _ =>
          if bool_decide (name = "chrome") then (76 <=? major)%Z
          else if bool_decide (name = "firefox") then (90 <=? major)%Z
          else if bool_decide (name = "edge") then (79 <=? major)%Z
          else false
      | _, _ => false
      end
  end.

Definition pascalizeKey (key : string) : string := cases_Title key.

(** The key under which [pascalizeHeaders] stores the entry of [k]. *)
Definition pascalizedKey (k : string) : string :=
  if bool_decide (strings_ToLower k ∈ pascalizedNames) then pascalizeKey k else k.

(** [pascalizeHeaders]: the entries are written in the order of the
    [range] loop, a later one replacing an earlier one stored under the
    same key.  A nil map ([None]) is walked like an empty one. *)
Definition pascalizeHeaders (headers : option (gmap string string))
  : M (gmap string string) :=
  let* entries := range_order (default ∅ headers) in
  ret (foldl (fun h kv => <[pascalizedKey kv.1 := kv.2]> h) ∅ entries).

(** The Accept-Language step of [GenerateHeaders]. *)
Definition addAcceptLanguage (constraints : HeaderConstraints.t)
    (sample_ headers : gmap string string) : gmap string string :=
  if (0 <? length (HeaderConstraints.Locales constraints))%nat then
    let acceptLanguage :=
      generateAcceptLanguageHeader (HeaderConstraints.Locales constraints) in
    if bool_decide (index_str sample_ "*HTTP_VERSION" = "2")
    then <["accept-language" := acceptLanguage]> headers
    else <["Accept-Language" := acceptLanguage]> headers
  else headers.

(** The test that guards the Sec-Fetch step. *)
Definition secFetchWanted (sample_ : gmap string string) : bool :=
  let browser := prepareHttpBrowserObject (index_str sample_ "*BROWSER_HTTP") in
  match browser with
  | Some _ => shouldAddSecFetch browser
  | None => false
  end.

(** The Sec-Fetch step: the entries of the attribute table are written
    over [headers]. *)
Definition addSecFetch (sample_ headers : gmap string string) : gmap string string :=
  match prepareHttpBrowserObject (index_str sample_ "*BROWSER_HTTP") with
  | Some browser =>
      if shouldAddSecFetch (Some browser) then
        if httpBrowser.IsHTTP2 browser
        then http2SecFetchAttributes ∪ headers
        else http1SecFetchAttributes ∪ headers
      else headers
  | None => headers
  end.

(** The map [headers] of [GenerateHeaders] when the function reaches its
    last test. *)
Definition headersBeforeCasing (constraints : HeaderConstraints.t)
    (sample_ : gmap string string) : gmap string string :=
  addSecFetch sample_
    (addAcceptLanguage constraints sample_ (generateHeadersFromSample sample_)).

Definition withHTTPVersion (c : HeaderConstraints.t) (v : string) : HeaderConstraints.t :=
  {| HeaderConstraints.BrowserSpecs := HeaderConstraints.BrowserSpecs c;
     HeaderConstraints.Browsers := HeaderConstraints.Browsers c;
     HeaderConstraints.OS := HeaderConstraints.OS c;
     HeaderConstraints.Devices := HeaderConstraints.Devices c;
     HeaderConstraints.Locales := HeaderConstraints.Locales c;
     HeaderConstraints.HTTPVersion := v;
     HeaderConstraints.Strict := HeaderConstraints.Strict c |}.

(** [relaxedConstraints]: [Locales] and [Devices] set to nil. *)
Definition relaxed (c : HeaderConstraints.t) : HeaderConstraints.t :=
  {| HeaderConstraints.BrowserSpecs := HeaderConstraints.BrowserSpecs c;
     HeaderConstraints.Browsers := HeaderConstraints.Browsers c;
     HeaderConstraints.OS := HeaderConstraints.OS c;
     HeaderConstraints.Devices := [];
     HeaderConstraints.Locales := [];
     HeaderConstraints.HTTPVersion := HeaderConstraints.HTTPVersion c;
     HeaderConstraints.Strict := HeaderConstraints.Strict c |}.

(** What [GenerateHeaders] does with the result of a recursive call. *)
Definition afterRetry (r : result (option (gmap string string)))
  : M (result (option (gmap string string))) :=
  match r with
  | Err e => ret (Err e)
  | OK headers =>
      let* h := pascalizeHeaders headers in
      ret (OK (Some h))
  end.

(** [GenerateHeaders].  The result [OK None] is the pair [(nil, nil)].
    One unit of [fuel] is spent per call; the rest bounds the restricted
    sampling of the call. *)
Fixpoint GenerateHeaders (fuel : nat) (g : HeaderGenerator)
    (opts : HeaderConstraints.t) : M (result (option (gmap string string))) :=
  match fuel with
  | O => fun _ => OutOfFuel
  | S fuel' =>
      match mergeOptions g opts with
      | (_, Some err) => ret (Err err)
      | (constraints, None) =>
          let* inputConstraints := lift_option (prepareConstraints g constraints) in
          let* inputSample :=
            generateConsistentSampleWhenPossible fuel' (inputGeneratorNetwork g)
                                                 inputConstraints in
          match inputSample with
          | None =>
              if bool_decide (HeaderConstraints.HTTPVersion constraints = "1") then
                let* r := GenerateHeaders fuel' g (withHTTPVersion constraints "2") in
                afterRetry r
              else if HeaderConstraints.Strict constraints then
                ret (Err ErrNoHeaders)
              else
                let* r := GenerateHeaders fuel' g (relaxed constraints) in
                afterRetry r
          | Some inputSample =>
              let* sample_ := generateSample (headerGeneratorNetwork g) inputSample in
              let headers := headersBeforeCasing constraints sample_ in
              if bool_decide (HeaderConstraints.HTTPVersion constraints = "2") then
                let* h := pascalizeHeaders (Some headers) in
                ret (OK (Some h))
              else ret (OK None)
          end
      end
  end.

End Headers.

(* ===================================================================== *)
(** ** The fingerprint generator *)
(* ===================================================================== *)

Record Screen : Type := {
  MinWidth : option Z;
  MaxWidth : option Z;
  MinHeight : option Z;
  MaxHeight : option Z;
}.

Record FingerprintGenerator : Type := {
  network : bayesianNetwork;
  headerGenerator : HeaderGenerator;
  headerConstraints : HeaderConstraints.t;
  screen : option Screen;
  strict : bool;
  mockWebRTC : bool;
  slim : bool;
}.

(** The options the package exports; each is a function that writes one
    field of the generator it is applied to. *)
Inductive FingerprintOption : Type :=
| WithScreen (s : option Screen)
| WithStrict (b : bool)
| WithMockWebRTC (b : bool)
| WithSlim (b : bool)
| WithHeaderConstraints (c : HeaderConstraints.t).

Definition applyOption (g : FingerprintGenerator) (opt : FingerprintOption)
  : FingerprintGenerator :=
  match opt with
  | WithScreen s =>
      {| network := network g; headerGenerator := headerGenerator g;
         headerConstraints := headerConstraints g; screen := s;
         strict := strict g; mockWebRTC := mockWebRTC g; slim := slim g |}
  | WithStrict b =>
      {| network := network g; headerGenerator := headerGenerator g;
         headerConstraints := headerConstraints g; screen := screen g;
         strict := b; mockWebRTC := mockWebRTC g; slim := slim g |}
  | WithMockWebRTC b =>
      {| network := network g; headerGenerator := headerGenerator g;
         headerConstraints := headerConstraints g; screen := screen g;
         strict := strict g; mockWebRTC := b; slim := slim g |}
  | WithSlim b =>
      {| network := network g; headerGenerator := headerGenerator g;
         headerConstraints := headerConstraints g; screen := screen g;
         strict := strict g; mockWebRTC := mockWebRTC g; slim := b |}
  | WithHeaderConstraints c =>
      {| network := network g; headerGenerator := headerGenerator g;
         headerConstraints := c; screen := screen g;
         strict := strict g; mockWebRTC := mockWebRTC g; slim := slim g |}
  end.

Section Fingerprint.
Context `{GoRuntime}.

(** The typed fingerprint record and its decoder are taken as given:
    [transformFingerprint] reads its four arguments and no field of the
    generator. *)
Variable Fingerprint : Type.
Variable transformFingerprint :
  gmap string string -> gmap string string -> bool -> bool -> result Fingerprint.

(** [Generate].  The receiver is a pointer: the second component of the
    result is the generator as the call leaves it. *)
Definition Generate (fuel : nat) (g : FingerprintGenerator)
    (opts : list FingerprintOption)
  : M (result Fingerprint * FingerprintGenerator) :=
  let g := foldl applyOption g opts in
  let* hr := GenerateHeaders fuel (headerGenerator g) (headerConstraints g) in
  match hr with
  | Err e => ret (Err (ErrGenerateHeaders e), g)
  | OK headers =>
      let headers := default ∅ headers in
      let userAgent := index_str headers "User-Agent" in
      if bool_decide (userAgent = "") then ret (Err ErrNoUserAgent, g)
      else
        let constraints : gmap string (list string) := {[ "userAgent" := [userAgent] ]} in
        let* fp := generateConsistentSampleWhenPossible fuel (network g) constraints in
        match fp with
        | Some fingerprint =>
            ret (transformFingerprint fingerprint headers (mockWebRTC g) (slim g), g)
        | None =>
            if strict g then ret (Err ErrNoFingerprint, g)
            else
              let* fingerprint := generateSample (network g) ∅ in
              ret (transformFingerprint fingerprint headers (mockWebRTC g) (slim g), g)
        end
  end.

End Fingerprint.

(* ===================================================================== *)
(** ** The quality values of Accept-Language, as the specification lists them *)
(* ===================================================================== *)



(** The header names that the Accept-Language and Sec-Fetch steps of
    [GenerateHeaders] write. *)
Definition synthesizedNames : list string :=
  ["accept-language"; "Accept-Language";
   "sec-fetch-mode"; "sec-fetch-dest"; "sec-fetch-site"; "sec-fetch-user";
   "Sec-Fetch-Mode"; "Sec-Fetch-Dest"; "Sec-Fetch-Site"; "Sec-Fetch-User"].

(* ===================================================================== *)
(** ** Measures for the backtracking search *)
(* ===================================================================== *)

(** The candidates of a node that are not banned yet. *)
Definition remaining (candidates bannedValues : list string) : nat :=
  length (filter (fun v => v ∉ bannedValues) candidates).

(** Fuel that suffices for the nodes still to be sampled. *)
Fixpoint fuelFor (valuePossibilities : gmap string (list string)) (nodes : list node)
  : nat :=
  match nodes with
  | [] => 1
  | n :: rest =>
      S (length (match valuePossibilities !! Name n with
                 | Some l => l
                 | None => PossibleValues n
                 end)) + fuelFor valuePossibilities rest
  end.

(** Fuel that suffices at the head of the loop of depth [depth] with the
    banned list [bannedValues]. *)
Definition fuelAt (bn : bayesianNetwork) (valuePossibilities : gmap string (list string))
    (depth : nat) (bannedValues : list string) : nat :=
  match drop depth (NodesInSamplingOrder bn) with
  | [] => 1
  | n :: rest =>
      S (remaining (match valuePossibilities !! Name n with
                    | Some l => l
                    | None => PossibleValues n
                    end) bannedValues) + fuelFor valuePossibilities rest
  end.

(* ===================================================================== *)
(** ** A runtime on ASCII strings, and small networks to run the code on *)
(* ===================================================================== *)

Module AsciiRuntime.

Definition is_upper (c : ascii) : bool :=
  let n := nat_of_ascii c in (65 <=? n)%nat && (n <=? 90)%nat.
Definition is_lower (c : ascii) : bool :=
  let n := nat_of_ascii c in (97 <=? n)%nat && (n <=? 122)%nat.
Definition is_digit (c : ascii) : bool :=
  let n := nat_of_ascii c in (48 <=? n)%nat && (n <=? 57)%nat.
Definition lower (c : ascii) : ascii :=
  if is_upper c then ascii_of_nat (nat_of_ascii c + 32) else c.
Definition upper (c : ascii) : ascii :=
  if is_lower c then ascii_of_nat (nat_of_ascii c - 32) else c.

Fixpoint ToLower (s : string) : string :=
  match s with
  | EmptyString => EmptyString
  | String c rest => String (lower c) (ToLower rest)
  end.

(** Title case on ASCII: the first letter of each run of letters and
    digits in upper case, its other letters in lower case. *)
Fixpoint Title_from (inWord : bool) (s : string) : string :=
  match s with
  | EmptyString => EmptyString
  | String c rest =>
      let alnum := is_upper c || is_lower c || is_digit c in
      String (if inWord then lower c else upper c) (Title_from alnum rest)
  end.
Definition Title (s : string) : string := Title_from false s.

(** A decimal scan: an optional sign and the digits that follow; it
    fails when there is no digit. *)
Fixpoint digits (acc : Z) (seen : bool) (s : string) : option Z :=
  match s with
  | EmptyString => if seen then Some acc else None
  | String c rest =>
      if is_digit c
      then digits (10 * acc + Z.of_nat (nat_of_ascii c - 48)) true rest
      else if seen then Some acc else None
  end.
Definition Sscanf_d (s : string) : option Z :=
  match s with
  | String "-" rest => Z.opp <$> digits 0 false rest
  | String "+" rest => digits 0 false rest
  | _ => digits 0 false s
  end.

(** The state of the random sources: the draws and the seeds still to
    come; an exhausted list yields [0] and the identity order. *)
Definition world : Type := list float * list (list nat).

#[export] Instance runtime : GoRuntime := {|
  World := world;
  rand_Float64 w := (default 0%float (head w.1), (tail w.1, w.2));
  range_seed w := (default [] (head w.2), (w.1, tail w.2));
  strings_ToLower := ToLower;
  cases_Title := Title;
  fmt_Sscanf_d := Sscanf_d;
|}.

Definition w0 : world := ([], []).

End AsciiRuntime.

Module Examples.
Import AsciiRuntime.

Definition leaf (l : list (string * float)) : gmap string jvalue :=
  list_to_map (prod_map id JFloat <$> l).

(** The two-node network: [A] with P(a1) = 0.6, and [B] with parent [A],
    P(b1|a1) = 0.7, P(b1|a2) = 0.2. *)
Definition nodeA : node := {|
  Name := "A"; ParentNames := []; PossibleValues := ["a1"; "a2"];
  ConditionalProbs := leaf [("a1", 0.6%float); ("a2", 0.4%float)] |}.
Definition nodeB : node := {|
  Name := "B"; ParentNames := ["A"]; PossibleValues := ["b1"; "b2"];
  ConditionalProbs :=
    {[ "deeper" := JMap (<["a1" := JMap (leaf [("b1", 0.7%float); ("b2", 0.3%float)])]>
                        (<["a2" := JMap (leaf [("b1", 0.2%float); ("b2", 0.8%float)])]> ∅)) ]} |}.
Definition toy : bayesianNetwork := {|
  NodesInSamplingOrder := [nodeA; nodeB];
  NodesByName := <["A" := nodeA]> (<["B" := nodeB]> ∅) |}.

(** The network of [A] alone. *)
Definition toyA : bayesianNetwork := {|
  NodesInSamplingOrder := [nodeA];
  NodesByName := <["A" := nodeA]> ∅ |}.

(** A node that has a possible value and an empty table. *)
Definition nodeE : node := {|
  Name := "E"; ParentNames := []; PossibleValues := ["e1"];
  ConditionalProbs := ∅ |}.
Definition toyE : bayesianNetwork := {|
  NodesInSamplingOrder := [nodeE];
  NodesByName := <["E" := nodeE]> ∅ |}.

(** An input network with one variable and two browsers. *)
Definition nodeBrowserHTTP : node := {|
  Name := "*BROWSER_HTTP"; ParentNames := [];
  PossibleValues := ["chrome/131.0.0.0|2"; "safari/17.0|2"];
  ConditionalProbs := leaf [("chrome/131.0.0.0|2", 0.5%float); ("safari/17.0|2", 0.5%float)] |}.
Definition inputNet : bayesianNetwork := {|
  NodesInSamplingOrder := [nodeBrowserHTTP];
  NodesByName := <["*BROWSER_HTTP" := nodeBrowserHTTP]> ∅ |}.

Definition constantNode (name value : string) : node := {|
  Name := name; ParentNames := []; PossibleValues := [value];
  ConditionalProbs := leaf [(value, 1%float)] |}.

Definition nodeUserAgent : node := {|
  Name := "user-agent"; ParentNames := ["*BROWSER_HTTP"];
  PossibleValues := ["Mozilla/5.0 Chrome/131.0.0.0"; "Mozilla/5.0 Safari/17.0"];
  ConditionalProbs :=
    {[ "deeper" :=
         JMap (<["chrome/131.0.0.0|2" := JMap (leaf [("Mozilla/5.0 Chrome/131.0.0.0", 1%float)])]>
              (<["safari/17.0|2" := JMap (leaf [("Mozilla/5.0 Safari/17.0", 1%float)])]> ∅)) ]} |}.

(** A header network in which the Accept-Language and Sec-Fetch headers
    are variables of their own. *)
Definition headerNodes : list node :=
  [nodeBrowserHTTP;
   constantNode "*HTTP_VERSION" "2";
   nodeUserAgent;
   constantNode "accept-language" "de-DE";
   constantNode "dnt" "*MISSING_VALUE*";
   constantNode "sec-fetch-mode" "cors";
   constantNode "sec-fetch-dest" "image";
   constantNode "sec-fetch-site" "cross-site";
   constantNode "sec-fetch-user" "?0"].
Definition headerNet : bayesianNetwork := {|
  NodesInSamplingOrder := headerNodes;
  NodesByName := list_to_map ((fun n => (Name n, n)) <$> headerNodes) |}.

(** The unique browsers as [loadUniqueBrowsers] builds them. *)
Definition loadUniqueBrowsers (browserStrings : list string) : list httpBrowser.t :=
  omap (fun browserStr =>
          if bool_decide (browserStr = missingValueToken) then None
          else prepareHttpBrowserObject browserStr)
       browserStrings.

Definition toyHeaderGenerator : HeaderGenerator := {|
  headerGeneratorNetwork := headerNet;
  inputGeneratorNetwork := inputNet;
  headersOrder := ∅;
  uniqueBrowsers :=
    loadUniqueBrowsers ["chrome/131.0.0.0|2"; "safari/17.0|2"; "firefox/120.0|2"];
  options := defaultHeaderOptions |}.

Definition noConstraints : HeaderConstraints.t := {|
  HeaderConstraints.BrowserSpecs := [];
  HeaderConstraints.Browsers := [];
  HeaderConstraints.OS := [];
  HeaderConstraints.Devices := [];
  HeaderConstraints.Locales := [];
  HeaderConstraints.HTTPVersion := "";
  HeaderConstraints.Strict := false |}.

Definition onlyBrowsers (browsers : list string) (strict_ : bool) : HeaderConstraints.t := {|
  HeaderConstraints.BrowserSpecs := [];
  HeaderConstraints.Browsers := browsers;
  HeaderConstraints.OS := [];
  HeaderConstraints.Devices := [];
  HeaderConstraints.Locales := [];
  HeaderConstraints.HTTPVersion := "";
  HeaderConstraints.Strict := strict_ |}.

(** A generator whose input network yields a browser string that is
    not of the form name/version|httpVersion. *)
Definition oddInputNet (browserHTTP : string) : bayesianNetwork := {|
  NodesInSamplingOrder := [constantNode "*BROWSER_HTTP" browserHTTP];
  NodesByName := <["*BROWSER_HTTP" := constantNode "*BROWSER_HTTP" browserHTTP]> ∅ |}.
Definition oddHeaderNet : bayesianNetwork := {|
  NodesInSamplingOrder := [constantNode "user-agent" "curl/8.0"];
  NodesByName := <["user-agent" := constantNode "user-agent" "curl/8.0"]> ∅ |}.
Definition oddHeaderGenerator (browserHTTP : string) : HeaderGenerator := {|
  headerGeneratorNetwork := oddHeaderNet;
  inputGeneratorNetwork := oddInputNet browserHTTP;
  headersOrder := ∅;
  uniqueBrowsers := [];
  options := defaultHeaderOptions |}.

(** A fingerprint generator over the small header generator. *)
Definition fingerprintNet : bayesianNetwork := {|
  NodesInSamplingOrder := [constantNode "userAgent" "Mozilla/5.0 Chrome/131.0.0.0"];
  NodesByName :=
    <["userAgent" := constantNode "userAgent" "Mozilla/5.0 Chrome/131.0.0.0"]> ∅ |}.

Definition toyFingerprintGenerator : FingerprintGenerator := {|
  network := fingerprintNet;
  headerGenerator := toyHeaderGenerator;
  headerConstraints := noConstraints;
  screen := None;
  strict := false;
  mockWebRTC := false;
  slim := false |}.

(** A decoder that returns its arguments. *)
Definition rawFingerprint : Type :=
  gmap string string * gmap string string * bool * bool.
Definition keepRaw (raw headers : gmap string string) (mockWebRTC_ slim_ : bool)
  : result rawFingerprint :=
  OK (raw, headers, mockWebRTC_, slim_).

Definition defaultConstraints : gmap string (list string) :=
  {[ "*BROWSER_HTTP" := ["chrome/131.0.0.0|2"; "firefox/120.0|2"; "safari/17.0|2"];
     "*OPERATING_SYSTEM" := SupportedOS;
     "*DEVICE" := SupportedDevices ]}.

Definition headerSample (browserHTTP userAgent : string) : gmap string string :=
  {[ "*BROWSER_HTTP" := browserHTTP;
     "*HTTP_VERSION" := "2";
     "user-agent" := userAgent;
     "accept-language" := "de-DE";
     "dnt" := "*MISSING_VALUE*";
     "sec-fetch-mode" := "cors";
     "sec-fetch-dest" := "image";
     "sec-fetch-site" := "cross-site";
     "sec-fetch-user" := "?0" ]}.
Definition chromeSample : gmap string string :=
  headerSample "chrome/131.0.0.0|2" "Mozilla/5.0 Chrome/131.0.0.0".

Definition safariHeaders : gmap string string :=
  {[ "User-Agent" := "Mozilla/5.0 Safari/17.0";
     "Accept-Language" := "en-US;q=1.0";
     "Sec-Fetch-Mode" := "cors";
     "Sec-Fetch-Dest" := "image";
     "Sec-Fetch-Site" := "cross-site";
     "Sec-Fetch-User" := "?0" ]}.
Definition chromeHeaders : gmap string string :=
  {[ "User-Agent" := "Mozilla/5.0 Chrome/131.0.0.0";
     "Accept-Language" := "en-US;q=1.0";
     "Sec-Fetch-Mode" := "same-site";
     "Sec-Fetch-Dest" := "navigate";
     "Sec-Fetch-Site" := "?1";
     "Sec-Fetch-User" := "document" ]}.

End Examples.

(* ===================================================================== *)
(** ** Consistent assignments *)
(* ===================================================================== *)

(** [values] is a legal way to bind [nodes] one after the other on top
    of [sampleSoFar]: each value is a candidate of its node and has an
    entry in the leaf distribution the node has under the bindings made
    before it. *)
Fixpoint completes (valuePossibilities : gmap string (list string))
    (nodes : list node) (sampleSoFar : gmap string string) (values : list string) : Prop :=
  match nodes, values with
  | [], [] => True
  | n :: rest, v :: values' =>
      v ∈ match valuePossibilities !! Name n with
          | Some l => l
          | None => PossibleValues n
          end
      ∧ (∃ probabilities,
           getProbabilitiesGivenKnownValues n sampleSoFar = Some probabilities
           ∧ is_Some (probabilities !! v))
      ∧ completes valuePossibilities rest (<[Name n := v]> sampleSoFar) values'
  | _, _ => False
  end.

(** The values an assignment gives to a list of nodes. *)
Definition valuesOf (s : gmap string string) (nodes : list node) : list string :=
  (fun n => index_str s (Name n)) <$> nodes.

(** Unconditional sampling can go through [nodes] from [sample_]: a
    node that is bound is passed over, and a node that is not has, under
    the bindings made so far, a leaf distribution that can be read and is
    not empty, and sampling can go on from each value with an entry in
    it. *)
Fixpoint samplable (nodes : list node) (sample_ : gmap string string) : Prop :=
  match nodes with
  | [] => True
  | n :: rest =>
      match sample_ !! Name n with
      | Some _ => samplable rest sample_
      | None =>
          ∃ probabilities,
            getProbabilitiesGivenKnownValues n sample_ = Some probabilities
            ∧ probabilities ≠ ∅
            ∧ ∀ v, is_Some (probabilities !! v) →
                   samplable rest (<[Name n := v]> sample_)
      end
  end.

(* ===================================================================== *)
(** ** Supported user options *)
(* ===================================================================== *)

(** Every value the user names is supported. *)
Definition allSupported (u : HeaderConstraints.t) : Prop :=
  (∀ v, v ∈ HeaderConstraints.Browsers u → v ∈ SupportedBrowsers)
  ∧ (∀ v, v ∈ HeaderConstraints.OS u → v ∈ SupportedOS)
  ∧ (∀ v, v ∈ HeaderConstraints.Devices u → v ∈ SupportedDevices)
  ∧ (HeaderConstraints.HTTPVersion u = "" ∨ HeaderConstraints.HTTPVersion u ∈ SupportedHTTP).

(** [c] with other devices and locales. *)
Definition withDevicesLocales (c : HeaderConstraints.t) (devices locales : list string)
  : HeaderConstraints.t :=
  {| HeaderConstraints.BrowserSpecs := HeaderConstraints.BrowserSpecs c;
     HeaderConstraints.Browsers := HeaderConstraints.Browsers c;
     HeaderConstraints.OS := HeaderConstraints.OS c;
     HeaderConstraints.Devices := devices;
     HeaderConstraints.Locales := locales;
     HeaderConstraints.HTTPVersion := HeaderConstraints.HTTPVersion c;
     HeaderConstraints.Strict := HeaderConstraints.Strict c |}.

(** The causes [mergeOptions] collects, in the order it collects them. *)
Definition invalidError (supported user : list string) : list error :=
  match filter (fun v => v ∉ supported) user with
  | [] => []
  | invalid => [ErrInvalidValues invalid]
  end.

Definition httpVersionError (v : string) : list error :=
  if bool_decide (v = "") then []
  else if bool_decide (v ∈ SupportedHTTP) then [] else [ErrNotSupported v].

Definition mergeErrors (u : HeaderConstraints.t) : list error :=
  invalidError SupportedBrowsers (HeaderConstraints.Browsers u)
  ++ invalidError SupportedOS (HeaderConstraints.OS u)
  ++ invalidError SupportedDevices (HeaderConstraints.Devices u)
  ++ httpVersionError (HeaderConstraints.HTTPVersion u).

(** A user list, or the default when the user gives none. *)
Definition orDefault (user default_ : list string) : list string :=
  match user with
  | [] => default_
  | _ :: _ => user
  end.

(* ===================================================================== *)
(** ** Loading the unique browsers *)
(* ===================================================================== *)

Module Loading.
Section Loading.
Context `{GoRuntime}.

(** The conversion loop of [loadUniqueBrowsers]: the strings of the
    helper file, the missing-value token and the strings that do not
    parse left out. *)
Definition loadUniqueBrowsers (browserStrings : list string) : list httpBrowser.t :=
  omap (fun browserStr =>
          if bool_decide (browserStr = missingValueToken) then None
          else prepareHttpBrowserObject browserStr)
       browserStrings.

End Loading.
End Loading.

(** The three maps [prepareConstraints] filters with (its [http1Values]
    and [http2Values] are equal). *)
Definition httpValuesOf (opts : HeaderConstraints.t) : gmap string (list string) :=
  <["*DEVICE" := HeaderConstraints.Devices opts]>
  (<["*OPERATING_SYSTEM" := HeaderConstraints.OS opts]>
  (<["*BROWSER" := HeaderConstraints.Browsers opts]> ∅)).

(** A list as a restriction: absent when empty. *)
Definition nonEmpty (l : list string) : option (list string) :=
  match l with
  | [] => None
  | _ :: _ => Some l
  end.

(** A unique browser answers a browser name under an HTTP version (the
    test of the branch of [getBrowserHTTPOptions] that starts from
    names; an empty version asks for nothing). *)
Definition answersName (browserName httpVersion : string) (ub : httpBrowser.t) : Prop :=
  httpBrowser.Name ub = Some browserName
  ∧ (httpVersion = httpBrowser.HTTPVersion ub ∨ httpVersion = "").

(** A unique browser answers a browser spec: name, HTTP version, and
    the bounds on the major version that are set (positive). *)
Definition answersSpec (spec : BrowserSpec.t) (ub : httpBrowser.t) : Prop :=
  answersName (BrowserSpec.Name spec) (BrowserSpec.HTTPVersion spec) ub
  ∧ ((0 < BrowserSpec.MinVersion spec)%Z →
     ∃ major : Z, httpBrowser.Version ub !! 0%nat = Some major
                  ∧ (BrowserSpec.MinVersion spec ≤ major)%Z)
  ∧ ((0 < BrowserSpec.MaxVersion spec)%Z →
     ∃ major : Z, httpBrowser.Version ub !! 0%nat = Some major
                  ∧ (major ≤ BrowserSpec.MaxVersion spec)%Z).

(* ===================================================================== *)
(** ** Inference *)
(* ===================================================================== *)

(** The field [parents] of a node of the network as [loadNetwork] links
    it: for each parent name, in order, the node stored under that name,
    the names that are not stored left out. *)
Definition parents (bn : bayesianNetwork) (n : node) : list node :=
  omap (fun parentName => NodesByName bn !! parentName) (ParentNames n).

(** [current[value].(float64)], zero when the entry is absent or not a
    number. *)
Definition probabilityAt (current : gmap string jvalue) (value : string) : float :=
  match current !! value with
  | Some (JFloat prob) => prob
  | _ => 0%float
  end.

(** The walk of [getProbability] through the table.  The outer [None]
    is the panic of the unchecked type assertion on [next]; [Some None]
    is one of the two returns of zero inside the loop. *)
Fixpoint navigate (current : gmap string jvalue) (parentValues : list string)
  : option (option (gmap string jvalue)) :=
  match parentValues with
  | [] => Some (Some current)
  | parentValue :: rest =>
      match current !! "deeper" with
      | Some (JMap deeper) =>
          match deeper !! parentValue with
          | Some (JMap next) => navigate next rest
          | Some _ => None
          | None => Some None
          end
      | _ => Some None
      end
  end.

(** [getProbability]; [None] is a panic. *)
Definition getProbability (bn : bayesianNetwork) (nodeName value : string)
    (evidence : gmap string string) : option float :=
  match NodesByName bn !! nodeName with
  | None => Some 0%float
  | Some node_ =>
      match parents bn node_ with
      | [] => Some (probabilityAt (ConditionalProbs node_) value)
      | _ :: _ =>
          match mapM (fun parent => evidence !! Name parent) (parents bn node_) with
          | None => Some 0%float
          | Some parentValues =>
              match navigate (ConditionalProbs node_) parentValues with
              | None => None
              | Some None => Some 0%float
              | Some (Some current) => Some (probabilityAt current value)
              end
          end
      end
  end.

(** [infer]; the outer [None] is a panic, [Some None] the nil map. *)
Definition infer (bn : bayesianNetwork) (nodeName : string)
    (evidence : gmap string string) : option (option (gmap string float)) :=
  match NodesByName bn !! nodeName with
  | None => Some None
  | Some node_ =>
      Some <$>
        foldl (fun distribution value =>
                 match distribution, getProbability bn nodeName value evidence with
                 | Some d, Some p => Some (<[value := p]> d)
                 | _, _ => None
                 end)
              (Some ∅) (PossibleValues node_)
  end.

(* ===================================================================== *)
(** ** Properties: iteration orders and the monad *)
(* ===================================================================== *)

(** Closing an equation between closed terms by evaluation. *)
Ltac vm_refl :=
  lazymatch goal with
  | |- ?a = ?b => vm_cast_no_check (@eq_refl _ b)
  end.

(** Closing a decidable closed goal by evaluation of its decision. *)
Ltac vm_decide := apply (bool_decide_eq_true_1 _); vm_refl.

Lemma insert_at_Permutation {A} (n : nat) (x : A) (l : list A) :
  insert_at n x l ≡ₚ x :: l.
Proof.
  revert n; induction l as [|y l IH]; intros [|n]; simpl; try done.
  rewrite IH. apply Permutation_swap.
Qed.

Lemma shuffle_Permutation {A} (seed : list nat) (l : list A) :
  shuffle seed l ≡ₚ l.
Proof.
  revert seed; induction l as [|x l IH]; intros [|n seed]; simpl; try done.
  rewrite insert_at_Permutation. by rewrite IH.
Qed.

Lemma insert_at_middle {A} (x : A) (l1 l2 : list A) :
  insert_at (length l1) x (l1 ++ l2) = l1 ++ x :: l2.
Proof. induction l1 as [|y l1 IH]; simpl; [by destruct l2 | by rewrite IH]. Qed.

(** Every order of the entries is the order of some seed. *)
Lemma shuffle_complete {A} (l l' : list A) :
  l' ≡ₚ l → ∃ seed, shuffle seed l = l'.
Proof.
  revert l'; induction l as [|x l IH]; intros l' Hp.
  - apply Permutation_nil_r in Hp as ->. by exists [].
  - assert (x ∈ l') as Hx by (rewrite Hp; left).
    apply list_elem_of_split in Hx as (l1 & l2 & ->).
    rewrite <- Permutation_middle in Hp. apply Permutation_cons_inv in Hp.
    destruct (IH _ Hp) as [seed Hs].
    exists (length l1 :: seed). simpl. rewrite Hs. apply insert_at_middle.
Qed.

Section MonadFacts.
Context `{GoRuntime}.

Lemma bind_Ret {A B} (m : M A) (k : A -> M B) w b w' :
  bind m k w = Ret (b, w') ↔ ∃ a w1, m w = Ret (a, w1) ∧ k a w1 = Ret (b, w').
Proof.
  unfold bind. split.
  - destruct (m w) as [[a w1]| |]; [|done..]. eauto.
  - intros (a & w1 & -> & Hk). done.
Qed.

Lemma lift_option_Ret {A} (o : option A) w a w' :
  lift_option o w = Ret (a, w') ↔ o = Some a ∧ w' = w.
Proof.
  destruct o; simpl; unfold ret, panic; split; try naive_solver.
Qed.

Lemma lift_option_fuel {A} (o : option A) w : lift_option o w ≠ OutOfFuel.
Proof. by destruct o. Qed.

Lemma range_order_Ret {A} (m : gmap string A) w :
  ∃ entries w', range_order m w = Ret (entries, w') ∧ entries ≡ₚ map_to_list m.
Proof.
  unfold range_order. destruct (range_seed w) as [seed w'].
  eexists _, _; split; [done|]. apply shuffle_Permutation.
Qed.

End MonadFacts.

(* ===================================================================== *)
(** ** Properties: the weighted sampler *)
(* ===================================================================== *)

Lemma scan_elem anchor c values probabilities v :
  scan anchor c values probabilities = Some v → v ∈ values.
Proof.
  revert c; induction values as [|x values IH]; intros c; simpl; [done|].
  case_match; [intros [= ->]; left | intros Hs; right; eauto].
Qed.

Section SamplerFacts.
Context `{GoRuntime}.

(** On a non-empty list the sampler returns, and what it returns is the
    scanned value or else the first element. *)
Lemma sampleRandomValue_nonempty (values : list string) probabilities w :
  values ≠ [] →
  ∃ v, sampleRandomValueFromPossibilities values probabilities w
         = Ret (v, (rand_Float64 w).2)
       ∧ v ∈ values
       ∧ (scan (rand_Float64 w).1 0%float values probabilities = None →
          head values = Some v).
Proof.
  intros Hne. unfold sampleRandomValueFromPossibilities, bind, Float64.
  destruct (rand_Float64 w) as [anchor w1]; simpl.
  destruct (scan anchor 0%float values probabilities) as [v|] eqn:Hs.
  - exists v. split_and!; [done | by eapply scan_elem | done].
  - destruct values as [|v0 values]; [done|]. exists v0.
    split_and!; [done | left | done].
Qed.

Lemma sampleRandomValue_elem (values : list string) probabilities w v w' :
  sampleRandomValueFromPossibilities values probabilities w = Ret (v, w') →
  v ∈ values.
Proof.
  destruct values as [|v0 values].
  - unfold sampleRandomValueFromPossibilities, bind, Float64.
    destruct (rand_Float64 w); simpl. done.
  - intros Hr.
    destruct (sampleRandomValue_nonempty (v0 :: values) probabilities w) as (v1 & Hv & Hin & _);
      [done|].
    rewrite Hv in Hr. by injection Hr as -> _.
Qed.

Lemma sampleRandomValue_fuel (values : list string) probabilities w :
  sampleRandomValueFromPossibilities values probabilities w ≠ OutOfFuel.
Proof.
  unfold sampleRandomValueFromPossibilities, bind, Float64.
  destruct (rand_Float64 w); simpl. case_match; [done|]. apply lift_option_fuel.
Qed.

Lemma validValues_spec probabilities valuePossibilities bannedValues v :
  v ∈ validValues probabilities valuePossibilities bannedValues ↔
  v ∈ valuePossibilities ∧ (v ∉ bannedValues) ∧ is_Some (probabilities !! v).
Proof. unfold validValues. rewrite list_elem_of_filter. naive_solver. Qed.

Lemma sampleAccordingToRestrictions_Some n parentValues valuePossibilities
    bannedValues w v w' :
  sampleAccordingToRestrictions n parentValues valuePossibilities bannedValues w
    = Ret (Some v, w') →
  v ∈ valuePossibilities ∧ (v ∉ bannedValues) ∧
  ∃ probabilities, getProbabilitiesGivenKnownValues n parentValues = Some probabilities
                   ∧ is_Some (probabilities !! v).
Proof.
  unfold sampleAccordingToRestrictions. rewrite bind_Ret.
  intros (pr & w1 & [Hpr ->]%lift_option_Ret & Hrest).
  destruct (validValues pr valuePossibilities bannedValues) as [|x valid] eqn:Hvalid;
    [done|].
  apply bind_Ret in Hrest as (v1 & w2 & Hs & [= -> ->]).
  apply sampleRandomValue_elem in Hs. rewrite <- Hvalid in Hs.
  apply validValues_spec in Hs. naive_solver.
Qed.

Lemma sampleAccordingToRestrictions_fuel n parentValues valuePossibilities
    bannedValues w :
  sampleAccordingToRestrictions n parentValues valuePossibilities bannedValues w
    ≠ OutOfFuel.
Proof.
  unfold sampleAccordingToRestrictions, bind.
  destruct (getProbabilitiesGivenKnownValues n parentValues) as [pr|]; simpl; [|done].
  destruct (validValues pr valuePossibilities bannedValues) as [|x valid]; [done|].
  pose proof (sampleRandomValue_fuel (x :: valid) (validProbs pr (x :: valid)) w) as Hf.
  destruct (sampleRandomValueFromPossibilities _ _ w) as [[? ?]| |]; done.
Qed.

End SamplerFacts.

(* ===================================================================== *)
(** ** Properties: the backtracking sampler *)
(* ===================================================================== *)

Lemma remaining_nil candidates : remaining candidates [] = length candidates.
Proof.
  unfold remaining. f_equal. induction candidates as [|x l IH]; [done|].
  rewrite filter_cons_True; [by rewrite IH | apply not_elem_of_nil].
Qed.

Lemma remaining_le candidates bannedValues :
  (remaining candidates bannedValues ≤ length candidates)%nat.
Proof. apply length_filter. Qed.

Lemma remaining_ban_le candidates bannedValues v :
  (remaining candidates (bannedValues ++ [v]) ≤ remaining candidates bannedValues)%nat.
Proof.
  unfold remaining. induction candidates as [|x l IH]; [done|].
  rewrite !filter_cons.
  destruct (decide (x ∉ bannedValues ++ [v])) as [Hx|Hx];
    destruct (decide (x ∉ bannedValues)) as [Hy|Hy]; simpl; try lia.
  exfalso. apply Hy. intros Hin. apply Hx. apply elem_of_app. by left.
Qed.

(** Banning a candidate that was not banned leaves strictly fewer. *)
Lemma remaining_ban candidates bannedValues v :
  v ∈ candidates → v ∉ bannedValues →
  (remaining candidates (bannedValues ++ [v]) < remaining candidates bannedValues)%nat.
Proof.
  intros Hin Hnb.
  induction candidates as [|x l IH]; [by apply elem_of_nil in Hin|].
  pose proof (remaining_ban_le l bannedValues v) as Hle.
  unfold remaining in *. rewrite !filter_cons.
  destruct (decide (x = v)) as [->|Hne].
  - rewrite decide_False; [|intros Hn; apply Hn, elem_of_app; right; by left].
    rewrite decide_True by done. simpl. lia.
  - apply elem_of_cons in Hin as [->|Hin]; [done|]. specialize (IH Hin).
    destruct (decide (x ∉ bannedValues ++ [v])) as [Hx|Hx];
      destruct (decide (x ∉ bannedValues)) as [Hy|Hy]; simpl; try lia.
    exfalso. apply Hy. intros Hxb. apply Hx. apply elem_of_app. by left.
Qed.

Lemma fuelFor_pos valuePossibilities nodes : (1 ≤ fuelFor valuePossibilities nodes)%nat.
Proof. destruct nodes; simpl; lia. Qed.

Lemma fuelAt_pos bn valuePossibilities depth bannedValues :
  (1 ≤ fuelAt bn valuePossibilities depth bannedValues)%nat.
Proof. unfold fuelAt. case_match; lia. Qed.

Lemma fuelAt_0 bn valuePossibilities :
  fuelAt bn valuePossibilities 0 [] = fuelFor valuePossibilities (NodesInSamplingOrder bn).
Proof.
  unfold fuelAt. rewrite drop_0. destruct (NodesInSamplingOrder bn); [done|].
  simpl. by rewrite remaining_nil.
Qed.

Lemma drop_lookup_cons {A} (l : list A) (i : nat) (x : A) :
  l !! i = Some x → drop i l = x :: drop (S i) l.
Proof.
  revert i; induction l as [|y l IH]; intros [|i]; simpl; try done.
  - by intros [= ->].
  - apply IH.
Qed.

Section Backtracking.
Context `{GoRuntime}.

(** One round of the search, with the binds written out. *)
Lemma recursively_unfold fuel bn sampleSoFar valuePossibilities depth bannedValues w :
  recursivelyGenerateConsistentSampleWhenPossible (S fuel) bn sampleSoFar
    valuePossibilities depth bannedValues w =
  if (depth =? length (NodesInSamplingOrder bn))%nat
  then Ret ((Some sampleSoFar, sampleSoFar), w)
  else
    match NodesInSamplingOrder bn !! depth with
    | None => Panic
    | Some n =>
        match sampleAccordingToRestrictions n sampleSoFar
                (possibilities valuePossibilities n) bannedValues w with
        | Ret (None, w1) => Ret ((None, sampleSoFar), w1)
        | Ret (Some v, w1) =>
            match recursivelyGenerateConsistentSampleWhenPossible fuel bn
                    (<[Name n := v]> sampleSoFar) valuePossibilities (S depth) [] w1 with
            | Ret ((Some s, shared), w2) => Ret ((Some s, shared), w2)
            | Ret ((None, shared), w2) =>
                recursivelyGenerateConsistentSampleWhenPossible fuel bn
                  (delete (Name n) shared) valuePossibilities depth
                  (bannedValues ++ [v]) w2
            | Panic => Panic
            | OutOfFuel => OutOfFuel
            end
        | Panic => Panic
        | OutOfFuel => OutOfFuel
        end
    end.
Proof.
  simpl. destruct (depth =? length (NodesInSamplingOrder bn))%nat; [done|].
  unfold bind. destruct (NodesInSamplingOrder bn !! depth) as [n|]; simpl; [|done].
  destruct (sampleAccordingToRestrictions n sampleSoFar
              (possibilities valuePossibilities n) bannedValues w)
    as [[[v|] w1]| |]; try done.
  destruct (recursivelyGenerateConsistentSampleWhenPossible fuel bn
              (<[Name n:=v]> sampleSoFar) valuePossibilities (S depth) [] w1)
    as [[[[s|] shared] w2]| |]; done.
Qed.

(** With the fuel of [fuelAt] the search never runs out of fuel, and
    more fuel does not change its result. *)
Lemma recursively_enough_fuel bn valuePossibilities fuel :
  ∀ fuel' sampleSoFar depth bannedValues w,
    (fuelAt bn valuePossibilities depth bannedValues ≤ fuel)%nat →
    (fuelAt bn valuePossibilities depth bannedValues ≤ fuel')%nat →
    recursivelyGenerateConsistentSampleWhenPossible fuel bn sampleSoFar
      valuePossibilities depth bannedValues w ≠ OutOfFuel
    ∧ recursivelyGenerateConsistentSampleWhenPossible fuel bn sampleSoFar
        valuePossibilities depth bannedValues w
      = recursivelyGenerateConsistentSampleWhenPossible fuel' bn sampleSoFar
          valuePossibilities depth bannedValues w.
Proof.
  induction fuel as [|fuel IH]; intros fuel' sampleSoFar depth bannedValues w Hf Hf'.
  { pose proof (fuelAt_pos bn valuePossibilities depth bannedValues). lia. }
  destruct fuel' as [|fuel'].
  { pose proof (fuelAt_pos bn valuePossibilities depth bannedValues). lia. }
  rewrite !recursively_unfold.
  destruct (depth =? length (NodesInSamplingOrder bn))%nat eqn:Hd; [done|].
  destruct (NodesInSamplingOrder bn !! depth) as [n|] eqn:Hn; [|done].
  pose proof (sampleAccordingToRestrictions_fuel n sampleSoFar
                (possibilities valuePossibilities n) bannedValues w) as Hsf.
  destruct (sampleAccordingToRestrictions n sampleSoFar
              (possibilities valuePossibilities n) bannedValues w)
    as [[[v|] w1]| |] eqn:Hs; [|done..].
  apply sampleAccordingToRestrictions_Some in Hs as (Hin & Hnb & _).
  unfold fuelAt in Hf, Hf'. rewrite (drop_lookup_cons _ _ _ Hn) in Hf, Hf'.
  fold (possibilities valuePossibilities n) in Hf, Hf'.
  pose proof (remaining_ban _ _ _ Hin Hnb) as Hlt.
  assert (fuelAt bn valuePossibilities (S depth) [] ≤
          fuelFor valuePossibilities (drop (S depth) (NodesInSamplingOrder bn)))%nat
    as Hnext.
  { unfold fuelAt. destruct (drop (S depth) (NodesInSamplingOrder bn)); [done|].
    simpl. by rewrite remaining_nil. }
  destruct (IH fuel' (<[Name n:=v]> sampleSoFar) (S depth) [] w1) as [Hne Heq];
    [lia..|].
  rewrite <- Heq.
  destruct (recursivelyGenerateConsistentSampleWhenPossible fuel bn
              (<[Name n:=v]> sampleSoFar) valuePossibilities (S depth) [] w1)
    as [[[[s|] shared] w2]| |]; [done| |done..].
  apply IH; unfold fuelAt; rewrite (drop_lookup_cons _ _ _ Hn);
    fold (possibilities valuePossibilities n); lia.
Qed.

(** What a call leaves in the shared map and what it returns: outside
    the names of the nodes from [depth] on the map is as it was; on
    success the returned map is the shared one, and each of those names
    is bound to a candidate of a node of that name. *)
Lemma recursively_result bn valuePossibilities fuel :
  ∀ sampleSoFar depth bannedValues w r shared w',
    recursivelyGenerateConsistentSampleWhenPossible fuel bn sampleSoFar
      valuePossibilities depth bannedValues w = Ret ((r, shared), w') →
    (∀ k, k ∉ Name <$> drop depth (NodesInSamplingOrder bn) →
          shared !! k = sampleSoFar !! k)
    ∧ (∀ s, r = Some s →
         s = shared ∧
         ∀ k, k ∈ Name <$> drop depth (NodesInSamplingOrder bn) →
           ∃ n v, n ∈ drop depth (NodesInSamplingOrder bn) ∧ Name n = k ∧
                  s !! k = Some v ∧ v ∈ possibilities valuePossibilities n).
Proof.
  induction fuel as [|fuel IH]; intros sampleSoFar depth bannedValues w r shared w' Hrun;
    [done|].
  rewrite recursively_unfold in Hrun.
  destruct (depth =? length (NodesInSamplingOrder bn))%nat eqn:Hd.
  { apply Nat.eqb_eq in Hd. injection Hrun as <- <- <-.
    rewrite Hd, drop_all. split; [done|]. intros s [= <-]. split; [done|].
    intros k Hk. by apply elem_of_nil in Hk. }
  destruct (NodesInSamplingOrder bn !! depth) as [n|] eqn:Hn; [|done].
  rewrite (drop_lookup_cons _ _ _ Hn).
  destruct (sampleAccordingToRestrictions n sampleSoFar
              (possibilities valuePossibilities n) bannedValues w)
    as [[[v|] w1]| |] eqn:Hs; [| |done..].
  2:{ injection Hrun as <- <- <-. split; [done|]. by intros s. }
  apply sampleAccordingToRestrictions_Some in Hs as (Hin & _ & _).
  destruct (recursivelyGenerateConsistentSampleWhenPossible fuel bn
              (<[Name n:=v]> sampleSoFar) valuePossibilities (S depth) [] w1)
    as [[[[s1|] shared1] w2]| |] eqn:Hrec; [| |done..].
  - injection Hrun as <- <- <-.
    destruct (IH _ _ _ _ _ _ _ Hrec) as [Hout Hok].
    destruct (Hok s1 eq_refl) as [-> Hcov].
    split.
    + intros k Hk. rewrite fmap_cons, not_elem_of_cons in Hk. destruct Hk as [Hk1 Hk2].
      rewrite (Hout k Hk2). by rewrite lookup_insert_ne.
    + intros s [= <-]. split; [done|]. intros k Hk.
      destruct (decide (k ∈ Name <$> drop (S depth) (NodesInSamplingOrder bn)))
        as [Hk'|Hk'].
      * destruct (Hcov k Hk') as (n' & v' & Hn' & Hname & Hl & Hv).
        exists n', v'. split_and!; [by right|done..].
      * rewrite fmap_cons in Hk. apply elem_of_cons in Hk as [->|Hk]; [|done].
        exists n, v. split_and!; [by left|done| |done].
        rewrite (Hout _ Hk'). by rewrite lookup_insert_eq.
  - destruct (IH _ _ _ _ _ _ _ Hrec) as [Hout _].
    destruct (IH _ _ _ _ _ _ _ Hrun) as [Hout2 Hok2].
    rewrite (drop_lookup_cons _ _ _ Hn) in Hout2, Hok2.
    split; [|done].
    intros k Hk. rewrite (Hout2 k Hk).
    rewrite fmap_cons, not_elem_of_cons in Hk. destruct Hk as [Hk1 Hk2].
    rewrite lookup_delete_ne by done. rewrite (Hout k Hk2).
    by rewrite lookup_insert_ne.
Qed.

(** A value drawn by [sample] has an entry in the leaf distribution. *)
Lemma sample_Ret n parentValues w v w' :
  sample n parentValues w = Ret (v, w') →
  ∃ probabilities,
    getProbabilitiesGivenKnownValues n parentValues = Some probabilities
    ∧ is_Some (probabilities !! v).
Proof.
  unfold sample. rewrite bind_Ret.
  intros (pr & w1 & [Hpr ->]%lift_option_Ret & Hrest).
  apply bind_Ret in Hrest as (entries & w2 & Hord & Hs).
  destruct (range_order_Ret pr w) as (entries' & w2' & Hord' & Hperm).
  rewrite Hord' in Hord. injection Hord as -> ->.
  apply sampleRandomValue_elem in Hs.
  apply list_elem_of_fmap in Hs as ([k x] & -> & Hkx).
  rewrite Hperm in Hkx. apply elem_of_map_to_list in Hkx.
  exists pr. split; [done|]. by exists x.
Qed.

(** [sample] returns when the leaf distribution exists and is not
    empty. *)
Lemma sample_total n parentValues probabilities w :
  getProbabilitiesGivenKnownValues n parentValues = Some probabilities →
  probabilities ≠ ∅ →
  ∃ v w', sample n parentValues w = Ret (v, w') ∧ is_Some (probabilities !! v).
Proof.
  intros Hpr Hne.
  destruct (range_order_Ret probabilities w) as (entries & w1 & Hord & Hperm).
  assert (entries.*1 ≠ []) as Hne'.
  { intros Hnil. apply fmap_nil_inv in Hnil. subst entries.
    apply Permutation_nil_l in Hperm. symmetry in Hperm.
    by apply map_to_list_empty_iff in Hperm. }
  destruct (sampleRandomValue_nonempty entries.*1 probabilities w1 Hne')
    as (v & Hv & Hin & _).
  assert (sample n parentValues w = Ret (v, (rand_Float64 w1).2)) as Hrun.
  { unfold sample. apply bind_Ret. exists probabilities, w.
    split; [by rewrite Hpr|]. apply bind_Ret. by exists entries, w1. }
  exists v, (rand_Float64 w1).2. split; [done|].
  apply sample_Ret in Hrun as (pr & Hpr' & Hsome). congruence.
Qed.

Lemma sample_fuel n parentValues w : sample n parentValues w ≠ OutOfFuel.
Proof.
  unfold sample, bind.
  destruct (getProbabilitiesGivenKnownValues n parentValues) as [pr|]; simpl; [|done].
  destruct (range_order_Ret pr w) as (entries & w1 & -> & _).
  apply sampleRandomValue_fuel.
Qed.

(** [generateSample]: the seed is kept, and every node is bound, to its
    seed value or to a value with an entry in a leaf distribution of a
    node of its name. *)
Lemma generateSample_loop_Ret nodes :
  ∀ sample_ w s w',
    generateSample_loop nodes sample_ w = Ret (s, w') →
    (∀ k v, sample_ !! k = Some v → s !! k = Some v)
    ∧ (∀ n, n ∈ nodes →
         ∃ v, s !! Name n = Some v ∧
              (sample_ !! Name n = Some v ∨
               ∃ n' parentValues probabilities,
                 n' ∈ nodes ∧ Name n' = Name n ∧
                 getProbabilitiesGivenKnownValues n' parentValues = Some probabilities
                 ∧ is_Some (probabilities !! v))).
Proof.
  induction nodes as [|n nodes IH]; intros sample_ w s w' Hrun; simpl in Hrun.
  { injection Hrun as <- <-. split; [done|]. intros n Hn. by apply elem_of_nil in Hn. }
  destruct (sample_ !! Name n) as [v0|] eqn:Hbound.
  - destruct (IH _ _ _ _ Hrun) as [Hkeep Hcov]. split; [done|].
    intros n1 [->|Hn1]%elem_of_cons.
    + exists v0. split; [by apply Hkeep | by left].
    + destruct (Hcov n1 Hn1) as (v & Hv & [Hseed|(n' & pv & pr & Hn' & ?)]).
      * exists v. split; [done | by left].
      * exists v. split; [done|]. right. exists n', pv, pr. split; [by right | done].
  - apply bind_Ret in Hrun as (v & w1 & Hs & Hrun).
    destruct (IH _ _ _ _ Hrun) as [Hkeep Hcov].
    split.
    { intros k x Hk. apply Hkeep. rewrite lookup_insert_ne; [done|]. congruence. }
    apply sample_Ret in Hs as (pr & Hpr & Hsome).
    intros n1 [->|Hn1]%elem_of_cons.
    + exists v. split; [apply Hkeep, lookup_insert_eq|].
      right. exists n, sample_, pr. split; [by left | done].
    + destruct (Hcov n1 Hn1) as (v1 & Hv1 & [Hseed|(n' & pv & pr' & Hn' & ?)]).
      * exists v1. split; [done|].
        destruct (decide (Name n = Name n1)) as [Heq|Hne].
        -- rewrite <- Heq in Hseed. rewrite lookup_insert_eq in Hseed.
           injection Hseed as <-. right. exists n, sample_, pr.
           split; [by left | done].
        -- left. by rewrite lookup_insert_ne in Hseed.
      * exists v1. split; [done|]. right. exists n', pv, pr'. split; [by right | done].
Qed.

(** [generateSample] returns unless it meets a node whose leaf
    distribution cannot be read or is empty. *)
Lemma generateSample_loop_total nodes :
  ∀ sample_ w,
    (∃ s w', generateSample_loop nodes sample_ w = Ret (s, w'))
    ∨ (∃ n parentValues, n ∈ nodes ∧
         (getProbabilitiesGivenKnownValues n parentValues = None
          ∨ getProbabilitiesGivenKnownValues n parentValues = Some ∅)).
Proof.
  induction nodes as [|n nodes IH]; intros sample_ w; simpl.
  { left. by eexists _, _. }
  destruct (sample_ !! Name n) as [v0|] eqn:Hbound.
  - destruct (IH sample_ w) as [Hret|(n' & pv & Hn' & Hbad)]; [by left|].
    right. exists n', pv. split; [by right | done].
  - destruct (getProbabilitiesGivenKnownValues n sample_) as [pr|] eqn:Hpr;
      [|right; exists n, sample_; split; [by left | by left]].
    destruct (decide (pr = ∅)) as [->|Hne];
      [right; exists n, sample_; split; [by left | by right]|].
    destruct (sample_total n sample_ pr w Hpr Hne) as (v & w1 & Hs & _).
    destruct (IH (<[Name n:=v]> sample_) w1) as [(s & w' & Hret)|(n' & pv & Hn' & Hbad)].
    + left. exists s, w'. apply bind_Ret. by exists v, w1.
    + right. exists n', pv. split; [by right | done].
Qed.

(** [sample] aborts when the leaf distribution cannot be read or is
    empty. *)
Lemma sample_Panic n parentValues w :
  getProbabilitiesGivenKnownValues n parentValues = None
  ∨ getProbabilitiesGivenKnownValues n parentValues = Some ∅ →
  sample n parentValues w = Panic.
Proof.
  unfold sample, bind, range_order. intros [->| ->]; simpl; [done|].
  destruct (range_seed w) as [seed w1]. rewrite map_to_list_empty.
  assert (shuffle seed ([] : list (string * float)) = []) as ->.
  { apply Permutation_nil. symmetry. apply shuffle_Permutation. }
  unfold sampleRandomValueFromPossibilities, bind, Float64. simpl.
  by destruct (rand_Float64 w1).
Qed.

Lemma samplable_bound n nodes sample_ v :
  sample_ !! Name n = Some v → samplable nodes sample_ → samplable (n :: nodes) sample_.
Proof. intros Hb Hs. simpl. by rewrite Hb. Qed.

Lemma samplable_unbound n nodes sample_ probabilities :
  sample_ !! Name n = None →
  getProbabilitiesGivenKnownValues n sample_ = Some probabilities →
  probabilities ≠ ∅ →
  (∀ v, is_Some (probabilities !! v) → samplable nodes (<[Name n := v]> sample_)) →
  samplable (n :: nodes) sample_.
Proof. intros Hb Hpr Hne Hrest. simpl. rewrite Hb. by exists probabilities. Qed.

(** Readable non-empty distributions under every binding are enough. *)
Lemma samplable_everywhere nodes :
  (∀ n parentValues, n ∈ nodes →
     ∃ probabilities,
       getProbabilitiesGivenKnownValues n parentValues = Some probabilities
       ∧ probabilities ≠ ∅) →
  ∀ sample_, samplable nodes sample_.
Proof.
  induction nodes as [|n nodes IH]; intros Hall sample_; [done|].
  assert (∀ s, samplable nodes s) as Hrest.
  { apply IH. intros n' pv Hn'. apply Hall. by right. }
  simpl. destruct (sample_ !! Name n); [done|].
  destruct (Hall n sample_) as (pr & Hpr & Hne); [by left|].
  exists pr. split_and!; [done..|]. intros v _. apply Hrest.
Qed.

(** [generateSample] returns on every list of nodes it can go
    through. *)
Lemma generateSample_loop_samplable nodes :
  ∀ sample_ w,
    samplable nodes sample_ →
    ∃ s w', generateSample_loop nodes sample_ w = Ret (s, w').
Proof.
  induction nodes as [|n nodes IH]; intros sample_ w Hs; simpl in Hs |- *.
  { by eexists _, _. }
  destruct (sample_ !! Name n) as [v0|] eqn:Hbound; [by apply IH|].
  destruct Hs as (pr & Hpr & Hne & Hrest).
  destruct (sample_total n sample_ pr w Hpr Hne) as (v & w1 & Hsample & Hv).
  destruct (IH (<[Name n := v]> sample_) w1 (Hrest v Hv)) as (s & w' & Hret).
  exists s, w'. apply bind_Ret. by exists v, w1.
Qed.

End Backtracking.

(* ===================================================================== *)
(** ** Claims on the sampling engine *)
(* ===================================================================== *)

Import AsciiRuntime Examples.

(** C7.  The backtracking restricted sampler terminates on every input.
    At one depth every value the restricted draw returns is a candidate
    that is not banned, so banning it leaves strictly fewer candidates to
    draw ([remaining] decreases), the banned list stays a duplicate-free
    list of candidates no longer than the candidate list, and with the
    fuel [fuelFor] (one unit per node and per candidate, plus one) the
    search returns or panics, never runs out of fuel, and gives the same
    result with any larger fuel. *)
Theorem C7_restricted_sampler_terminates `{GoRuntime}
    (bn : bayesianNetwork) (valuePossibilities : gmap string (list string))
    (fuel : nat) (w : World) :
  (fuelFor valuePossibilities (NodesInSamplingOrder bn) ≤ fuel)%nat →
  generateConsistentSampleWhenPossible fuel bn valuePossibilities w ≠ OutOfFuel
  ∧ generateConsistentSampleWhenPossible fuel bn valuePossibilities w
    = generateConsistentSampleWhenPossible
        (fuelFor valuePossibilities (NodesInSamplingOrder bn)) bn valuePossibilities w
  ∧ ∀ n sampleSoFar bannedValues w0 v w1,
      sampleAccordingToRestrictions n sampleSoFar
        (possibilities valuePossibilities n) bannedValues w0 = Ret (Some v, w1) →
      v ∈ possibilities valuePossibilities n
      ∧ (v ∉ bannedValues)
      ∧ (remaining (possibilities valuePossibilities n) (bannedValues ++ [v])
         < remaining (possibilities valuePossibilities n) bannedValues
         ≤ length (possibilities valuePossibilities n))%nat
      ∧ (NoDup bannedValues → bannedValues ⊆ possibilities valuePossibilities n →
         NoDup (bannedValues ++ [v])
         ∧ bannedValues ++ [v] ⊆ possibilities valuePossibilities n
         ∧ (length (bannedValues ++ [v])
            ≤ length (possibilities valuePossibilities n))%nat).
Proof.
  intros Hfuel. rewrite <- (fuelAt_0 bn valuePossibilities) in *.
  destruct (recursively_enough_fuel bn valuePossibilities fuel
              (fuelAt bn valuePossibilities 0 []) ∅ 0%nat [] w Hfuel (le_n _))
    as [Hne Heq].
  split_and!.
  - unfold generateConsistentSampleWhenPossible, bind.
    destruct (recursivelyGenerateConsistentSampleWhenPossible fuel bn ∅
                valuePossibilities 0 [] w) as [[? ?]| |]; done.
  - unfold generateConsistentSampleWhenPossible, bind. by rewrite Heq.
  - intros n sampleSoFar bannedValues w0 v w1 Hs.
    apply sampleAccordingToRestrictions_Some in Hs as (Hin & Hnb & _).
    split_and!; [done|done|by apply remaining_ban|apply remaining_le|].
    intros Hnd Hsub.
    assert (NoDup (bannedValues ++ [v])) as Hnd'.
    { apply NoDup_app. split_and!; [done| |apply NoDup_singleton].
      intros x Hx Hx'. apply list_elem_of_singleton in Hx'. by subst. }
    assert (bannedValues ++ [v] ⊆ possibilities valuePossibilities n) as Hsub'.
    { intros x [Hx|Hx]%elem_of_app; [by apply Hsub|].
      apply list_elem_of_singleton in Hx. by subst. }
    split_and!; [done..|].
    apply submseteq_length, NoDup_submseteq; done.
Qed.

Lemma C7_witness :
  generateConsistentSampleWhenPossible 7 toy ∅ w0 ≠ OutOfFuel.
Proof.
  apply (C7_restricted_sampler_terminates (H := runtime) toy ∅ 7 w0). vm_compute. lia.
Defined.

(** C3 as stated fails: seeded unconditional sampling keeps a seed value
    that is no possible value of its node, and restricted sampling
    succeeds without binding a restriction key that names no node. *)
Lemma C3_counterexample :
  (∃ s w', generateSample toyA {[ "A" := "zzz" ]} w0 = Ret (s, w')
           ∧ s !! "A" = Some "zzz" ∧ "zzz" ∉ PossibleValues nodeA)
  ∧ (∃ s w', generateConsistentSampleWhenPossible 7 toy {[ "C" := ["c1"] ]} w0
               = Ret (Some s, w')
             ∧ s !! "C" = None).
Proof.
  split.
  - exists {[ "A" := "zzz" ]}, w0. split_and!; [vm_refl | vm_refl |].
    intros Hin. by repeat (apply elem_of_cons in Hin as [Hin|Hin]; [done|]);
      apply elem_of_nil in Hin.
  - exists {[ "A" := "a1"; "B" := "b1" ]}, w0. split; vm_refl.
Qed.

(** C3, amended.  In an assignment returned by restricted sampling every
    node name is bound to a value drawn for a node of that name from its
    candidate list, which is the restriction list when the restrictions
    have that name as a key and the node's possible values otherwise; so a
    restriction key that names a node is mapped into its list, and the
    assignment binds nothing but node names.  Unconditional sampling keeps
    every binding of its seed as it is and binds every other node to a
    value that has an entry in a leaf distribution of that node. *)
Theorem C3_sampled_values `{GoRuntime} (bn : bayesianNetwork) :
  (∀ fuel valuePossibilities w s w',
     generateConsistentSampleWhenPossible fuel bn valuePossibilities w = Ret (Some s, w') →
     (∀ k, k ∈ Name <$> NodesInSamplingOrder bn →
        ∃ n v, n ∈ NodesInSamplingOrder bn ∧ Name n = k ∧ s !! k = Some v
               ∧ v ∈ possibilities valuePossibilities n)
     ∧ (∀ k L, valuePossibilities !! k = Some L →
          k ∈ Name <$> NodesInSamplingOrder bn →
          ∃ v, s !! k = Some v ∧ v ∈ L)
     ∧ (∀ k, k ∉ Name <$> NodesInSamplingOrder bn → s !! k = None))
  ∧ (∀ inputValues w s w',
       generateSample bn inputValues w = Ret (s, w') →
       (∀ k v, inputValues !! k = Some v → s !! k = Some v)
       ∧ (∀ n, n ∈ NodesInSamplingOrder bn →
            ∃ v, s !! Name n = Some v ∧
                 (inputValues !! Name n = Some v ∨
                  ∃ n' parentValues probabilities,
                    n' ∈ NodesInSamplingOrder bn ∧ Name n' = Name n ∧
                    getProbabilitiesGivenKnownValues n' parentValues = Some probabilities
                    ∧ is_Some (probabilities !! v)))).
Proof.
  split.
  - intros fuel valuePossibilities w s w' Hrun.
    unfold generateConsistentSampleWhenPossible in Hrun.
    apply bind_Ret in Hrun as ([r shared] & w1 & Hrec & Hret).
    injection Hret as -> ->.
    destruct (recursively_result _ _ _ _ _ _ _ _ _ _ Hrec) as [Hout Hok].
    destruct (Hok s eq_refl) as [-> Hcov]. rewrite drop_0 in Hout, Hcov.
    split_and!.
    + done.
    + intros k L HL Hk. destruct (Hcov k Hk) as (n & v & _ & Hname & Hv & Hin).
      exists v. split; [done|]. unfold possibilities in Hin.
      by rewrite Hname, HL in Hin.
    + intros k Hk. by rewrite (Hout k Hk).
  - intros inputValues w s w' Hrun. by apply generateSample_loop_Ret in Hrun.
Qed.

Lemma C3_witness :
  ∃ v, (∃ s w', generateConsistentSampleWhenPossible 7 toy {[ "A" := ["a2"] ]} w0
                  = Ret (Some s, w') ∧ s !! "A" = Some v)
       ∧ v ∈ ["a2"].
Proof.
  destruct (proj1 (C3_sampled_values (H := runtime) toy) 7%nat {[ "A" := ["a2"] ]} w0
              {[ "A" := "a2"; "B" := "b1" ]} w0) as (_ & Hkey & _).
  { vm_refl. }
  destruct (Hkey "A" ["a2"]) as (v & Hv & Hin).
  { vm_refl. }
  { by left. }
  exists v. split; [|done].
  exists {[ "A" := "a2"; "B" := "b1" ]}, w0. split; [vm_refl | exact Hv].
Defined.

(** C4 as stated fails: on the empty leaf distribution of a node with an
    empty table the weighted sampler is given the empty list, has no first
    element to fall back to, and unconditional sampling aborts. *)
Lemma C4_counterexample :
  getProbabilitiesGivenKnownValues nodeE ∅ = Some ∅
  ∧ sampleRandomValueFromPossibilities [] ∅ w0 = Panic
  ∧ generateSample toyE ∅ w0 = Panic.
Proof. split_and!; vm_refl. Qed.

(** C4, amended.  On every non-empty value list the weighted sampler
    returns an element of the list, the first element when the cumulative
    weight never exceeds the draw.  A node whose leaf distribution can be
    read and is not empty is sampled to a value with an entry in it; on a
    leaf distribution that cannot be read or is empty the sampler
    aborts.  Unconditional sampling returns an assignment, which keeps
    the input values and binds every node, whenever each node it finds
    unbound has a readable non-empty leaf distribution under the
    bindings made before it, whichever values were drawn for them. *)
Theorem C4_unconditional_sampling_total `{GoRuntime} :
  (∀ (values : list string) probabilities w,
     values ≠ [] →
     ∃ v, sampleRandomValueFromPossibilities values probabilities w
            = Ret (v, (rand_Float64 w).2)
          ∧ v ∈ values
          ∧ (scan (rand_Float64 w).1 0%float values probabilities = None →
             head values = Some v))
  ∧ (∀ n parentValues probabilities w,
       getProbabilitiesGivenKnownValues n parentValues = Some probabilities →
       probabilities ≠ ∅ →
       ∃ v w', sample n parentValues w = Ret (v, w') ∧ is_Some (probabilities !! v))
  ∧ (∀ n parentValues w,
       getProbabilitiesGivenKnownValues n parentValues = None
       ∨ getProbabilitiesGivenKnownValues n parentValues = Some ∅ →
       sample n parentValues w = Panic)
  ∧ (∀ bn inputValues w,
       samplable (NodesInSamplingOrder bn) inputValues →
       ∃ s w', generateSample bn inputValues w = Ret (s, w')
               ∧ (∀ k v, inputValues !! k = Some v → s !! k = Some v)
               ∧ (∀ n, n ∈ NodesInSamplingOrder bn → is_Some (s !! Name n)))
  ∧ (∀ bn,
       (∀ n parentValues, n ∈ NodesInSamplingOrder bn →
          ∃ probabilities,
            getProbabilitiesGivenKnownValues n parentValues = Some probabilities
            ∧ probabilities ≠ ∅) →
       ∀ inputValues, samplable (NodesInSamplingOrder bn) inputValues).
Proof.
  split_and!.
  - intros. by apply sampleRandomValue_nonempty.
  - intros. by eapply sample_total.
  - intros. by apply sample_Panic.
  - intros bn inputValues w Hs. unfold generateSample.
    destruct (generateSample_loop_samplable _ inputValues w Hs) as (s & w' & Hret).
    exists s, w'. split; [done|].
    destruct (generateSample_loop_Ret _ _ _ _ _ Hret) as [Hkeep Hcov].
    split; [done|]. intros n Hn. destruct (Hcov n Hn) as (v & Hv & _). by exists v.
  - intros bn Hall. by apply samplable_everywhere.
Qed.

Lemma C4_witness :
  ∃ s w', generateSample toy ∅ w0 = Ret (s, w')
          ∧ is_Some (s !! "A") ∧ is_Some (s !! "B").
Proof.
  destruct (proj1 (proj2 (proj2 (proj2 (C4_unconditional_sampling_total (H := runtime)))))
              toy ∅ w0) as (s & w' & Hrun & _ & Hall).
  { apply (samplable_unbound nodeA [nodeB] ∅
             (float_entries (ConditionalProbs nodeA))); [vm_refl | vm_refl | |].
    - intros Hempty.
      assert (float_entries (ConditionalProbs nodeA) !! "a1" = None) as Hl
        by (rewrite Hempty; apply lookup_empty).
      vm_compute in Hl. discriminate Hl.
    - intros v [p Hp].
      apply elem_of_map_to_list in Hp. apply (list_elem_of_fmap_2 fst) in Hp.
      simpl in Hp.
      assert ((map_to_list (float_entries (ConditionalProbs nodeA))).*1 = ["a1"; "a2"])
        as Hkeys by vm_refl.
      pose proof (eq_ind _ (fun l => v ∈ l) Hp _ Hkeys) as Hin. simpl in Hin.
      clear Hkeys Hp.
      assert (v = "a1" ∨ v = "a2") as Hv.
      { apply elem_of_cons in Hin as [->|Hin]; [by left|].
        apply list_elem_of_singleton in Hin as ->. by right. }
      clear Hin.
      destruct Hv as [-> | ->].
      + apply (samplable_unbound nodeB [] _
                 (default ∅ (getProbabilitiesGivenKnownValues nodeB
                               (<[Name nodeA := "a1"]> ∅))));
          [vm_refl | vm_refl | | by intros].
        intros Hempty.
        assert (default ∅ (getProbabilitiesGivenKnownValues nodeB
                             (<[Name nodeA := "a1"]> ∅)) !! "b1" = None) as Hl
          by (rewrite Hempty; apply lookup_empty).
        vm_compute in Hl. discriminate Hl.
      + apply (samplable_unbound nodeB [] _
                 (default ∅ (getProbabilitiesGivenKnownValues nodeB
                               (<[Name nodeA := "a2"]> ∅))));
          [vm_refl | vm_refl | | by intros].
        intros Hempty.
        assert (default ∅ (getProbabilitiesGivenKnownValues nodeB
                             (<[Name nodeA := "a2"]> ∅)) !! "b1" = None) as Hl
          by (rewrite Hempty; apply lookup_empty).
        vm_compute in Hl. discriminate Hl. }
  exists s, w'. split; [exact Hrun|].
  split; [apply (Hall nodeA); by left | apply (Hall nodeB); right; by left].
Defined.

(* ===================================================================== *)
(** ** Claims on option merging *)
(* ===================================================================== *)

Lemma filterValidValues_loop_spec values supported valid invalidValues :
  filterValidValues_loop values supported valid invalidValues
  = (valid ++ filter (fun v => v ∈ supported) values,
     invalidValues ++ filter (fun v => v ∉ supported) values).
Proof.
  revert valid invalidValues; induction values as [|v values IH]; intros valid invalid; simpl.
  { by rewrite !app_nil_r. }
  unfold validateAgainstSupported. rewrite !filter_cons.
  destruct (decide (v ∈ supported)) as [Hin|Hnin].
  - rewrite bool_decide_true by done. rewrite IH.
    rewrite decide_False by naive_solver. by rewrite <- app_assoc.
  - rewrite bool_decide_false by done. rewrite IH.
    rewrite decide_True by done. by rewrite <- app_assoc.
Qed.

Lemma filterValidValues_spec values supported :
  filterValidValues values supported
  = (filter (fun v => v ∈ supported) values,
     match filter (fun v => v ∉ supported) values with
     | [] => None
     | invalid => Some (ErrInvalidValues invalid)
     end).
Proof.
  destruct values as [|v values]; [done|].
  unfold filterValidValues. rewrite filterValidValues_loop_spec. simpl.
  by destruct (filter (λ v0, v0 ∉ supported) (v :: values)).
Qed.

Lemma validateAndMerge_spec userValues supported current validationErrors :
  validateAndMerge userValues supported current validationErrors
  = (match filter (fun v => v ∈ supported) userValues with
     | [] => current
     | valid => valid
     end,
     match filter (fun v => v ∉ supported) userValues with
     | [] => validationErrors
     | invalid => validationErrors ++ [ErrInvalidValues invalid]
     end).
Proof.
  destruct userValues as [|v values]; [done|].
  unfold validateAndMerge. rewrite filterValidValues_spec.
  destruct (filter (λ v0, v0 ∈ supported) (v :: values));
    destruct (filter (λ v0, v0 ∉ supported) (v :: values)); done.
Qed.

Lemma filter_all_False {A} (P : A → Prop) `{!∀ x, Decision (P x)} (l : list A) :
  (∀ x, x ∈ l → ¬ P x) → filter P l = [].
Proof.
  induction l as [|x l IH]; intros Hall; [done|].
  rewrite filter_cons_False by (apply Hall; left).
  apply IH. intros y Hy. apply Hall. by right.
Qed.

Lemma filter_all_True {A} (P : A → Prop) `{!∀ x, Decision (P x)} (l : list A) :
  (∀ x, x ∈ l → P x) → filter P l = l.
Proof.
  induction l as [|x l IH]; intros Hall; [done|].
  rewrite filter_cons_True by (apply Hall; left).
  f_equal. apply IH. intros y Hy. apply Hall. by right.
Qed.

(** C8 as stated fails: when every browser the user names is unsupported
    the merged browser list is not empty, it is the default list. *)
Lemma C8_counterexample :
  HeaderConstraints.Browsers
    (mergeOptions toyHeaderGenerator (onlyBrowsers ["netscape"] false)).1
  = ["chrome"; "firefox"; "safari"; "edge"]
  ∧ (mergeOptions toyHeaderGenerator (onlyBrowsers ["netscape"] false)).2
    = Some (ErrValidation [ErrInvalidValues ["netscape"]]).
Proof. split; vm_refl. Qed.

(** C8, amended.  In option merging each of browsers, os and devices is
    validated against its supported set: the supported user values, in
    the user's order, replace the default when there is at least one, and
    the default stays when there is none.  When the user names browsers
    and all of them are unsupported, the merged browser list is the
    default list, and the merged options are returned together with a
    validation error that lists the rejected values. *)
Theorem C8_merge_validates_fields (g : HeaderGenerator) (u : HeaderConstraints.t) :
  let merged := (mergeOptions g u).1 in
  let keep (user supported current : list string) :=
    match filter (fun v => v ∈ supported) user with
    | [] => current
    | valid => valid
    end in
  HeaderConstraints.Browsers merged
    = keep (HeaderConstraints.Browsers u) SupportedBrowsers
           (HeaderConstraints.Browsers (options g))
  ∧ HeaderConstraints.OS merged
    = keep (HeaderConstraints.OS u) SupportedOS (HeaderConstraints.OS (options g))
  ∧ HeaderConstraints.Devices merged
    = keep (HeaderConstraints.Devices u) SupportedDevices
           (HeaderConstraints.Devices (options g))
  ∧ (HeaderConstraints.Browsers u ≠ [] →
     (∀ v, v ∈ HeaderConstraints.Browsers u → v ∉ SupportedBrowsers) →
     HeaderConstraints.Browsers merged = HeaderConstraints.Browsers (options g)
     ∧ ∃ errs, (mergeOptions g u).2
               = Some (ErrValidation (ErrInvalidValues (HeaderConstraints.Browsers u) :: errs))).
Proof.
  unfold mergeOptions. rewrite !validateAndMerge_spec.
  set (errs1 := match filter (λ v, v ∉ SupportedBrowsers) (HeaderConstraints.Browsers u) with
                | [] => [] | invalid => [] ++ [ErrInvalidValues invalid] end).
  set (errs2 := match filter (λ v, v ∉ SupportedOS) (HeaderConstraints.OS u) with
                | [] => errs1 | invalid => errs1 ++ [ErrInvalidValues invalid] end).
  set (errs3 := match filter (λ v, v ∉ SupportedDevices) (HeaderConstraints.Devices u) with
                | [] => errs2 | invalid => errs2 ++ [ErrInvalidValues invalid] end).
  set (hv := if bool_decide (HeaderConstraints.HTTPVersion u = "") then _ else _).
  assert (∃ tl, hv.2 = errs1 ++ tl) as [tl Htl].
  { assert (∃ t2, errs2 = errs1 ++ t2) as [t2 ->].
    { subst errs2. destruct (filter _ (HeaderConstraints.OS u));
        [exists []; by rewrite app_nil_r | by eexists]. }
    assert (∃ t3, errs3 = errs1 ++ t3) as [t3 H3].
    { subst errs3. destruct (filter _ (HeaderConstraints.Devices u));
        [by eexists | rewrite <- app_assoc; by eexists]. }
    subst hv. destruct (bool_decide _); simpl; [by eexists|].
    destruct (validateAgainstSupported _ _); simpl; rewrite H3;
      [rewrite <- app_assoc; by eexists | by eexists]. }
  destruct hv as [httpVersion errs4] eqn:Hhv. simpl in Htl.
  simpl. split_and!.
  - by destruct (0 <? length errs4)%nat.
  - by destruct (0 <? length errs4)%nat.
  - by destruct (0 <? length errs4)%nat.
  - intros Hne Hall.
    assert (filter (λ v, v ∈ SupportedBrowsers) (HeaderConstraints.Browsers u) = []) as Hv.
    { apply filter_all_False. intros x Hx Hin. by apply (Hall x Hx). }
    assert (filter (λ v, v ∉ SupportedBrowsers) (HeaderConstraints.Browsers u)
            = HeaderConstraints.Browsers u) as Hi by (by apply filter_all_True).
    subst errs1. rewrite Hi in Htl.
    destruct (HeaderConstraints.Browsers u) as [|b bs] eqn:Hb; [done|].
    simpl in Htl. subst errs4. simpl.
    rewrite Hv. split; [done|]. by eexists.
Qed.

Lemma C8_witness :
  HeaderConstraints.Browsers
    (mergeOptions toyHeaderGenerator (onlyBrowsers ["netscape"; "mosaic"] false)).1
  = SupportedBrowsers.
Proof.
  apply (C8_merge_validates_fields toyHeaderGenerator
           (onlyBrowsers ["netscape"; "mosaic"] false)).
  - done.
  - intros v Hv Hin. revert Hv. vm_compute in Hin.
    repeat (apply elem_of_cons in Hin as [->|Hin];
            [intros Hv; repeat (apply elem_of_cons in Hv as [Hv|Hv]; [done|]);
             by apply elem_of_nil in Hv|]).
    by apply elem_of_nil in Hin.
Defined.

(* ===================================================================== *)
(** ** Claims on the post-processing of headers *)
(* ===================================================================== *)



Lemma String_concat_in sep (parts : list string) (p : string) c :
  p ∈ parts → c ∈ GoStrings.bytes p → c ∈ GoStrings.bytes (String.concat sep parts).
Proof.
  assert (∀ a b, GoStrings.bytes (a +:+ b) = GoStrings.bytes a ++ GoStrings.bytes b) as Happ.
  { intros a b. induction a as [|x a IH]; simpl; [done | by rewrite IH]. }
  induction parts as [|x parts IH]; intros Hin Hc; [by apply elem_of_nil in Hin|].
  simpl. destruct parts as [|y parts].
  - apply list_elem_of_singleton in Hin. by subst.
  - change (String.append ?a ?b) with (a +:+ b). rewrite !Happ.
    apply elem_of_cons in Hin as [->|Hin].
    + apply elem_of_app. by left.
    + apply elem_of_app. right. apply elem_of_app. right. by apply IH.
Qed.

(** The synthesized value is never the missing-value token: it contains
    a semicolon. *)
Lemma generateAcceptLanguageHeader_not_missing (locales : list string) :
  locales ≠ [] → generateAcceptLanguageHeader locales ≠ missingValueToken.
Proof.
  intros Hne Heq.
  assert (";"%char ∈ GoStrings.bytes (generateAcceptLanguageHeader locales)) as Hin.
  { unfold generateAcceptLanguageHeader, GoStrings.Join.
    destruct locales as [|l rest]; [done|].
    eapply String_concat_in; [simpl; left|].
    clear. induction l as [|x l IH]; simpl; [left | by right]. }
  rewrite Heq in Hin. vm_compute in Hin.
  repeat (apply elem_of_cons in Hin as [Hin|Hin]; [done|]). by apply elem_of_nil in Hin.
Qed.

Section PostProcessing.
Context `{GoRuntime}.


Lemma addSecFetch_unwanted sample_ headers :
  secFetchWanted sample_ = false → addSecFetch sample_ headers = headers.
Proof.
  unfold secFetchWanted, addSecFetch.
  destruct (prepareHttpBrowserObject _) as [b|]; [|done]. by intros ->.
Qed.


End PostProcessing.

Lemma Split_length (sep : ascii) (s : string) :
  length (GoStrings.Split sep s) = S (GoStrings.count sep s).
Proof.
  induction s as [|c s IH]; simpl; [done|].
  destruct (Ascii.eqb c sep); simpl; [by rewrite IH|].
  destruct (GoStrings.Split sep s); simpl in *; [done | lia].
Qed.

Lemma Split_head (sep : ascii) (s : string) :
  head (GoStrings.Split sep s) = Some (GoStrings.before sep s).
Proof.
  induction s as [|c s IH]; simpl; [done|].
  destruct (Ascii.eqb c sep); simpl; [done|].
  destruct (GoStrings.Split sep s); simpl in *; [done | by injection IH as ->].
Qed.

Lemma Split_two (sep : ascii) (s : string) :
  (∃ a b, GoStrings.Split sep s = [a; b]) ↔ GoStrings.count sep s = 1%nat.
Proof.
  pose proof (Split_length sep s) as Hl. split.
  - intros (a & b & Heq). rewrite Heq in Hl. simpl in Hl. lia.
  - intros Hc. rewrite Hc in Hl.
    destruct (GoStrings.Split sep s) as [|a [|b [|c l]]]; simpl in Hl; try lia.
    by exists a, b.
Qed.

Section Parsing.
Context `{GoRuntime}.

(** When [prepareHttpBrowserObject] returns nil. *)
Lemma prepareHttpBrowserObject_None (s : string) :
  s ≠ missingValueToken →
  (prepareHttpBrowserObject s = None ↔
   ¬ (GoStrings.count "|" s = 1%nat
      ∧ GoStrings.count "/" (GoStrings.before "|" s) = 1%nat)).
Proof.
  intros Hs. unfold prepareHttpBrowserObject. rewrite bool_decide_false by done.
  pose proof (Split_two "|" s) as Hbar. pose proof (Split_head "|" s) as Hhead.
  destruct (GoStrings.Split "|" s) as [|a [|b [|c l]]] eqn:Hsplit.
  - split; [|done]. intros _ [Hc _]. apply Hbar in Hc as (? & ? & ?). done.
  - split; [|done]. intros _ [Hc _]. apply Hbar in Hc as (? & ? & ?). done.
  - simpl in Hhead. injection Hhead as <-.
    pose proof (Split_two "/" a) as Hslash.
    destruct (GoStrings.Split "/" a) as [|x [|y [|z l]]] eqn:Hsplit2.
    + split; [|done]. intros _ [_ Hc]. apply Hslash in Hc as (? & ? & ?). done.
    + split; [|done]. intros _ [_ Hc]. apply Hslash in Hc as (? & ? & ?). done.
    + split; [done|]. intros Hn. exfalso. apply Hn. split.
      * apply Hbar. by eexists _, _.
      * apply Hslash. by eexists _, _.
    + split; [|done]. intros _ [_ Hc]. apply Hslash in Hc as (? & ? & ?). done.
  - split; [|done]. intros _ [Hc _]. apply Hbar in Hc as (? & ? & ?). done.
Qed.

(** [GenerateHeaders] with its binds written out. *)
Lemma GenerateHeaders_unfold fuel g opts w :
  GenerateHeaders (S fuel) g opts w =
  match mergeOptions g opts with
  | (_, Some err) => Ret (Err err, w)
  | (constraints, None) =>
      match prepareConstraints g constraints with
      | None => Panic
      | Some inputConstraints =>
          match generateConsistentSampleWhenPossible fuel (inputGeneratorNetwork g)
                  inputConstraints w with
          | Ret (None, w1) =>
              if bool_decide (HeaderConstraints.HTTPVersion constraints = "1") then
                bind (GenerateHeaders fuel g (withHTTPVersion constraints "2")) afterRetry w1
              else if HeaderConstraints.Strict constraints then
                Ret (Err ErrNoHeaders, w1)
              else
                bind (GenerateHeaders fuel g (relaxed constraints)) afterRetry w1
          | Ret (Some inputSample, w1) =>
              match generateSample (headerGeneratorNetwork g) inputSample w1 with
              | Ret (sample_, w2) =>
                  if bool_decide (HeaderConstraints.HTTPVersion constraints = "2") then
                    bind (pascalizeHeaders (Some (headersBeforeCasing constraints sample_)))
                         (fun h => ret (OK (Some h))) w2
                  else Ret (OK None, w2)
              | Panic => Panic
              | OutOfFuel => OutOfFuel
              end
          | Panic => Panic
          | OutOfFuel => OutOfFuel
          end
      end
  end.
Proof.
  simpl. destruct (mergeOptions g opts) as [constraints [err|]]; [done|].
  unfold bind at 1. destruct (prepareConstraints g constraints) as [ic|]; simpl; [|done].
  unfold bind at 1.
  destruct (generateConsistentSampleWhenPossible fuel (inputGeneratorNetwork g) ic w)
    as [[[inputSample|] w1]| |]; try done.
  - unfold bind at 1.
    destruct (generateSample (headerGeneratorNetwork g) inputSample w1)
      as [[sample_ w2]| |]; try done.
    by case_bool_decide.
  - case_bool_decide; [done|]. by destruct (HeaderConstraints.Strict constraints).
Qed.

(** Writing entries under re-cased keys: every stored entry comes from
    an entry of the list, every entry of the list has its key stored,
    and it is stored with its own value when the entries that share its
    new key share its value. *)
Lemma foldl_recase (f : string → string) (entries : list (string * string)) :
  let out := foldl (fun h kv => <[f kv.1 := kv.2]> h) (∅ : gmap string string) entries in
  (∀ k' v', out !! k' = Some v' → ∃ k, (k, v') ∈ entries ∧ f k = k')
  ∧ (∀ k v, (k, v) ∈ entries → is_Some (out !! f k))
  ∧ (∀ k v, (k, v) ∈ entries →
       (∀ k2 v2, (k2, v2) ∈ entries → f k2 = f k → v2 = v) →
       out !! f k = Some v).
Proof.
  induction entries as [|[k0 v0] entries IH] using rev_ind; simpl.
  { split_and!; [done| |]; intros k v Hin; by apply elem_of_nil in Hin. }
  rewrite foldl_app. simpl. simpl in IH. destruct IH as (IH1 & IH2 & IH3).
  set (out := foldl _ ∅ entries) in *.
  split_and!.
  - intros k' v' Hl. destruct (decide (f k0 = k')) as [<-|Hne].
    + rewrite lookup_insert_eq in Hl. injection Hl as <-.
      exists k0. split; [|done]. apply elem_of_app. right. by left.
    + rewrite lookup_insert_ne in Hl by done.
      destruct (IH1 _ _ Hl) as (k & Hin & Hk). exists k. split; [|done].
      apply elem_of_app. by left.
  - intros k v [Hin|Hin]%elem_of_app.
    + destruct (decide (f k0 = f k)) as [->|Hne];
        [by rewrite lookup_insert_eq | rewrite lookup_insert_ne by done; eauto].
    + apply list_elem_of_singleton in Hin. injection Hin as -> ->.
      by rewrite lookup_insert_eq.
  - intros k v Hin Hsame. destruct (decide (f k0 = f k)) as [Heq|Hne].
    + rewrite Heq, lookup_insert_eq. f_equal.
      apply (Hsame k0 v0); [|done]. apply elem_of_app. right. by left.
    + rewrite lookup_insert_ne by done.
      apply elem_of_app in Hin as [Hin|Hin].
      * apply (IH3 k v Hin). intros k2 v2 Hin2. apply Hsame. apply elem_of_app. by left.
      * apply list_elem_of_singleton in Hin. injection Hin as -> ->. done.
Qed.

Lemma pascalizeHeaders_Ret (headers : gmap string string) w :
  ∃ out w', pascalizeHeaders (Some headers) w = Ret (out, w')
    ∧ (∀ k' v', out !! k' = Some v' →
         ∃ k, headers !! k = Some v' ∧ pascalizedKey k = k')
    ∧ (∀ k v, headers !! k = Some v → is_Some (out !! pascalizedKey k))
    ∧ (∀ k v, headers !! k = Some v →
         (∀ k2 v2, headers !! k2 = Some v2 → pascalizedKey k2 = pascalizedKey k → v2 = v) →
         out !! pascalizedKey k = Some v).
Proof.
  unfold pascalizeHeaders. simpl.
  destruct (range_order_Ret headers w) as (entries & w' & Hord & Hperm).
  eexists _, w'. split; [unfold bind; by rewrite Hord|].
  destruct (foldl_recase pascalizedKey entries) as (F1 & F2 & F3).
  assert (∀ k v, (k, v) ∈ entries ↔ headers !! k = Some v) as Hin.
  { intros k v. rewrite Hperm. apply elem_of_map_to_list. }
  split_and!.
  - intros k' v' Hl. destruct (F1 _ _ Hl) as (k & Hk & Hf). exists k. by rewrite <- Hin.
  - intros k v Hl. apply (F2 k v). by apply Hin.
  - intros k v Hl Hsame. apply (F3 k v); [by apply Hin|].
    intros k2 v2 Hin2. apply Hsame. by apply Hin.
Qed.

End Parsing.




(** C10 as stated fails: a browser string with one '|' and two '/' is
    not of the form name/version|httpVersion with exactly one '/', yet it
    is parsed (the second '/' is in the HTTP-version part) and the
    Sec-Fetch headers are injected. *)
Lemma C10_counterexample :
  GoStrings.count "|" "chrome/100|2/0" = 1%nat
  ∧ GoStrings.count "/" "chrome/100|2/0" = 2%nat
  ∧ prepareHttpBrowserObject "chrome/100|2/0"
    = Some {| httpBrowser.Name := Some "chrome";
              httpBrowser.Version := [100];
              httpBrowser.CompleteString := "chrome/100|2/0";
              httpBrowser.HTTPVersion := "2/0" |}
  ∧ secFetchWanted {[ "*BROWSER_HTTP" := "chrome/100|2/0" ]} = true
  ∧ headersBeforeCasing defaultHeaderOptions {[ "*BROWSER_HTTP" := "chrome/100|2/0" ]}
      !! "Sec-Fetch-Mode" = Some "same-site".
Proof. split_and!; vm_refl. Qed.

(** C10, amended.  For a sampled [*BROWSER_HTTP] value other than the
    missing-value token, [prepareHttpBrowserObject] returns nil exactly
    when the value does not have exactly one '|' with exactly one '/' in
    the part before it; it has no error result, and on nil the Sec-Fetch
    step is skipped: the header map is the headers copied from the sample
    with the synthesized Accept-Language, and a generation whose sampling
    succeeds returns without error.  The missing-value token yields a
    record with a nil name and an empty version list, for which the
    Sec-Fetch step is skipped in the same way. *)
Theorem C10_unparsed_browser `{GoRuntime}
    (constraints : HeaderConstraints.t) (sample_ : gmap string string) :
  let s := index_str sample_ "*BROWSER_HTTP" in
  (s ≠ missingValueToken →
   (prepareHttpBrowserObject s = None ↔
    ¬ (GoStrings.count "|" s = 1%nat
       ∧ GoStrings.count "/" (GoStrings.before "|" s) = 1%nat)))
  ∧ prepareHttpBrowserObject missingValueToken
    = Some {| httpBrowser.Name := None;
              httpBrowser.Version := [];
              httpBrowser.CompleteString := missingValueToken;
              httpBrowser.HTTPVersion := "" |}
  ∧ (prepareHttpBrowserObject s = None ∨ s = missingValueToken →
     secFetchWanted sample_ = false
     ∧ headersBeforeCasing constraints sample_
       = addAcceptLanguage constraints sample_ (generateHeadersFromSample sample_)
     ∧ ∀ fuel g opts w inputConstraints inputSample w1 w2,
         mergeOptions g opts = (constraints, None) →
         prepareConstraints g constraints = Some inputConstraints →
         generateConsistentSampleWhenPossible fuel (inputGeneratorNetwork g)
           inputConstraints w = Ret (Some inputSample, w1) →
         generateSample (headerGeneratorNetwork g) inputSample w1 = Ret (sample_, w2) →
         ∃ r w3, GenerateHeaders (S fuel) g opts w = Ret (OK r, w3)).
Proof.
  intros s. split_and!.
  - apply prepareHttpBrowserObject_None.
  - done.
  - intros Hs.
    assert (secFetchWanted sample_ = false) as Hw.
    { unfold secFetchWanted. fold s. destruct Hs as [-> | ->]; done. }
    split_and!; [done | unfold headersBeforeCasing; by rewrite addSecFetch_unwanted |].
    intros fuel g opts w ic inputSample w1 w2 Hm Hp Hin Hout.
    rewrite GenerateHeaders_unfold, Hm, Hp, Hin, Hout.
    case_bool_decide; [|by eexists _, _].
    destruct (pascalizeHeaders_Ret (headersBeforeCasing constraints sample_) w2)
      as (out & w3 & Hret & _).
    exists (Some out), w3. unfold bind. by rewrite Hret.
Qed.

Lemma C10_witness :
  prepareHttpBrowserObject "weird" = None
  ∧ ∃ r w3, GenerateHeaders 10 (oddHeaderGenerator "weird") noConstraints w0 = Ret (OK r, w3).
Proof.
  pose proof (C10_unparsed_browser (H := runtime)
                (mergeOptions (oddHeaderGenerator "weird") noConstraints).1
                {[ "*BROWSER_HTTP" := "weird"; "user-agent" := "curl/8.0" ]})
    as (_ & _ & Hskip).
  split; [vm_refl|].
  destruct Hskip as (_ & _ & Hrun); [left; vm_refl|].
  apply (Hrun 9%nat (oddHeaderGenerator "weird") noConstraints w0
               {[ "*OPERATING_SYSTEM" := SupportedOS; "*DEVICE" := SupportedDevices ]}
               {[ "*BROWSER_HTTP" := "weird" ]} w0 w0);
    vm_refl.
Defined.

(* ===================================================================== *)
(** ** Claims on [GenerateHeaders] and [Generate] *)
(* ===================================================================== *)

Lemma secFetchAttributes_lookup (http2 : bool) (k v : string) :
  (if http2 then http2SecFetchAttributes else http1SecFetchAttributes) !! k = Some v →
  k ∈ synthesizedNames ∧ GoStrings.HasPrefix k "*" = false ∧ v ≠ missingValueToken.
Proof.
  destruct http2; unfold http2SecFetchAttributes, http1SecFetchAttributes;
    rewrite !lookup_insert_Some, lookup_empty;
    intros Hl; repeat (destruct Hl as [[<- <-]|[_ Hl]];
                       [split_and!; [compute_done | done | done]|]); done.
Qed.

Section HeaderMap.
Context `{GoRuntime}.

Lemma generateHeadersFromSample_lookup (sample_ : gmap string string) k v :
  generateHeadersFromSample sample_ !! k = Some v ↔
  sample_ !! k = Some v ∧ GoStrings.HasPrefix k "*" = false ∧ v ≠ missingValueToken.
Proof. unfold generateHeadersFromSample. by rewrite map_lookup_filter_Some. Qed.

(** The header map before casing: no internal name, no missing value;
    it keeps the key of every header copied from the sample, and the
    value too outside the synthesized names. *)
Lemma headersBeforeCasing_lookup constraints (sample_ : gmap string string) k v :
  headersBeforeCasing constraints sample_ !! k = Some v →
  GoStrings.HasPrefix k "*" = false ∧ v ≠ missingValueToken.
Proof.
  unfold headersBeforeCasing.
  assert (∀ k v, addAcceptLanguage constraints sample_ (generateHeadersFromSample sample_)
                   !! k = Some v →
                 GoStrings.HasPrefix k "*" = false ∧ v ≠ missingValueToken) as Hal.
  { clear k v. intros k v. unfold addAcceptLanguage.
    destruct (HeaderConstraints.Locales constraints) as [|l rest] eqn:Hloc; simpl.
    { rewrite generateHeadersFromSample_lookup. naive_solver. }
    pose proof (generateAcceptLanguageHeader_not_missing (l :: rest)) as Hnm.
    case_bool_decide; rewrite lookup_insert_Some, generateHeadersFromSample_lookup;
      intros [[<- <-]|[_ ?]]; naive_solver. }
  unfold addSecFetch.
  destruct (prepareHttpBrowserObject _) as [b|]; [|apply Hal].
  destruct (shouldAddSecFetch (Some b)); [|apply Hal].
  pose proof (secFetchAttributes_lookup (httpBrowser.IsHTTP2 b) k v) as Hsf.
  destruct (httpBrowser.IsHTTP2 b); rewrite lookup_union_Some_raw;
    intros [Hl|[_ Hl]]; try (by apply Hal); by apply Hsf.
Qed.

Lemma headersBeforeCasing_copied constraints (sample_ : gmap string string) k v :
  sample_ !! k = Some v → GoStrings.HasPrefix k "*" = false → v ≠ missingValueToken →
  is_Some (headersBeforeCasing constraints sample_ !! k)
  ∧ (k ∉ synthesizedNames → headersBeforeCasing constraints sample_ !! k = Some v).
Proof.
  intros Hs Hstar Hmiss.
  assert (generateHeadersFromSample sample_ !! k = Some v) as Hg
    by (by apply generateHeadersFromSample_lookup).
  assert (is_Some (addAcceptLanguage constraints sample_
                     (generateHeadersFromSample sample_) !! k)
          ∧ (k ∉ synthesizedNames →
             addAcceptLanguage constraints sample_
               (generateHeadersFromSample sample_) !! k = Some v)) as [Hal1 Hal2].
  { unfold addAcceptLanguage.
    destruct (0 <? length (HeaderConstraints.Locales constraints))%nat; [|by rewrite Hg].
    case_bool_decide.
    - split; [rewrite lookup_insert_is_Some'; by right|].
      intros Hk. rewrite lookup_insert_ne; [done|]. intros <-. apply Hk. by left.
    - split; [rewrite lookup_insert_is_Some'; by right|].
      intros Hk. rewrite lookup_insert_ne; [done|]. intros <-. apply Hk. right; by left. }
  unfold headersBeforeCasing, addSecFetch.
  destruct (prepareHttpBrowserObject _) as [b|]; [|done].
  destruct (shouldAddSecFetch (Some b)); [|done].
  pose proof (secFetchAttributes_lookup (httpBrowser.IsHTTP2 b) k) as Hsf.
  destruct (httpBrowser.IsHTTP2 b).
  - split; [apply lookup_union_is_Some; by right|].
    intros Hk. rewrite lookup_union_r; [by apply Hal2|].
    destruct (http2SecFetchAttributes !! k) as [x|] eqn:Hx; [|done].
    destruct (Hsf x eq_refl) as [Hin _]. done.
  - split; [apply lookup_union_is_Some; by right|].
    intros Hk. rewrite lookup_union_r; [by apply Hal2|].
    destruct (http1SecFetchAttributes !! k) as [x|] eqn:Hx; [|done].
    destruct (Hsf x eq_refl) as [Hin _]. done.
Qed.

End HeaderMap.

(** C1 as stated fails: with merged httpVersion "2" the sample pair
    accept-language = de-DE, whose key has no '*' and whose value is not
    the missing-value token, has no entry in the returned map: its value
    is replaced by the synthesized Accept-Language and nothing is stored
    under its key, nor under the key user-agent of another such pair. *)
Lemma C1_counterexample :
  mergeOptions toyHeaderGenerator noConstraints
    = ((mergeOptions toyHeaderGenerator noConstraints).1, None)
  ∧ HeaderConstraints.HTTPVersion (mergeOptions toyHeaderGenerator noConstraints).1 = "2"
  ∧ prepareConstraints toyHeaderGenerator
      (mergeOptions toyHeaderGenerator noConstraints).1 = Some defaultConstraints
  ∧ generateConsistentSampleWhenPossible 9 inputNet defaultConstraints w0
    = Ret (Some {[ "*BROWSER_HTTP" := "chrome/131.0.0.0|2" ]}, w0)
  ∧ generateSample headerNet {[ "*BROWSER_HTTP" := "chrome/131.0.0.0|2" ]} w0
    = Ret (chromeSample, w0)
  ∧ GenerateHeaders 10 toyHeaderGenerator noConstraints w0
    = Ret (OK (Some chromeHeaders), w0)
  ∧ chromeSample !! "accept-language" = Some "de-DE"
  ∧ chromeSample !! "user-agent" = Some "Mozilla/5.0 Chrome/131.0.0.0"
  ∧ chromeHeaders !! "accept-language" = None
  ∧ chromeHeaders !! "user-agent" = None
  ∧ "de-DE" ∉ (map_to_list chromeHeaders).*2.
Proof.
  split_and!; try vm_refl. vm_decide.
Qed.

(** With a merged httpVersion other than "2" a successful generation
    returns the pair (nil, nil). *)
Lemma GenerateHeaders_http1_nil `{GoRuntime} fuel g opts w constraints inputConstraints
    inputSample w1 sample_ w2 :
  mergeOptions g opts = (constraints, None) →
  prepareConstraints g constraints = Some inputConstraints →
  generateConsistentSampleWhenPossible fuel (inputGeneratorNetwork g) inputConstraints w
    = Ret (Some inputSample, w1) →
  generateSample (headerGeneratorNetwork g) inputSample w1 = Ret (sample_, w2) →
  HeaderConstraints.HTTPVersion constraints ≠ "2" →
  GenerateHeaders (S fuel) g opts w = Ret (OK None, w2).
Proof.
  intros Hm Hp Hin Hout Hv.
  rewrite GenerateHeaders_unfold, Hm, Hp, Hin, Hout. by rewrite bool_decide_false.
Qed.

(** C1, amended.  For every call to [GenerateHeaders] in which
    restricted sampling on the input network succeeds and the merged
    httpVersion is "2", the returned map is the header map of the sample
    under re-cased names: for every pair of the sample whose key does not
    begin with '*' and whose value is not the missing-value token there is
    an entry under the re-cased key, and it has the pair's value when the
    key is none of the names written by the Accept-Language and Sec-Fetch
    steps and the headers re-cased to the same name have the same value.
    Every returned value is a value of that header map under a key that
    does not begin with '*', none is the missing-value token, and no
    returned key begins with '*' as long as title-casing a listed name
    gives no such key. *)
Theorem C1_emitted_headers `{GoRuntime} fuel g opts w constraints inputConstraints
    inputSample w1 (sample_ : gmap string string) w2 :
  mergeOptions g opts = (constraints, None) →
  prepareConstraints g constraints = Some inputConstraints →
  generateConsistentSampleWhenPossible fuel (inputGeneratorNetwork g) inputConstraints w
    = Ret (Some inputSample, w1) →
  generateSample (headerGeneratorNetwork g) inputSample w1 = Ret (sample_, w2) →
  HeaderConstraints.HTTPVersion constraints = "2" →
  ∃ out w3,
    GenerateHeaders (S fuel) g opts w = Ret (OK (Some out), w3)
    ∧ (∀ k v, sample_ !! k = Some v →
         GoStrings.HasPrefix k "*" = false → v ≠ missingValueToken →
         is_Some (out !! pascalizedKey k)
         ∧ (k ∉ synthesizedNames →
            (∀ k2 v2, headersBeforeCasing constraints sample_ !! k2 = Some v2 →
                      pascalizedKey k2 = pascalizedKey k → v2 = v) →
            out !! pascalizedKey k = Some v))
    ∧ (∀ k' v', out !! k' = Some v' →
         v' ≠ missingValueToken
         ∧ ∃ k, pascalizedKey k = k' ∧ GoStrings.HasPrefix k "*" = false
                ∧ headersBeforeCasing constraints sample_ !! k = Some v')
    ∧ ((∀ k, strings_ToLower k ∈ pascalizedNames →
             GoStrings.HasPrefix (cases_Title k) "*" = false) →
       ∀ k' v', out !! k' = Some v' → GoStrings.HasPrefix k' "*" = false).
Proof.
  intros Hm Hp Hin Hout Hv.
  destruct (pascalizeHeaders_Ret (headersBeforeCasing constraints sample_) w2)
    as (out & w3 & Hret & Hfrom & Hkeys & Hvals).
  exists out, w3. split_and!.
  - rewrite GenerateHeaders_unfold, Hm, Hp, Hin, Hout.
    rewrite bool_decide_true by done. unfold bind. by rewrite Hret.
  - intros k v Hs Hstar Hmiss.
    destruct (headersBeforeCasing_copied constraints sample_ k v Hs Hstar Hmiss)
      as [[x Hx] Hsame].
    split; [by eapply Hkeys|]. intros Hk Huniq. apply Hvals; [by apply Hsame | done].
  - intros k' v' Hl. destruct (Hfrom _ _ Hl) as (k & Hk & <-).
    destruct (headersBeforeCasing_lookup _ _ _ _ Hk) as [Hstar Hmiss].
    split; [done|]. by exists k.
  - intros Htitle k' v' Hl. destruct (Hfrom _ _ Hl) as (k & Hk & <-).
    destruct (headersBeforeCasing_lookup _ _ _ _ Hk) as [Hstar _].
    unfold pascalizedKey, pascalizeKey. case_bool_decide; [by apply Htitle | done].
Qed.

Lemma C1_witness :
  ∃ out w3,
    GenerateHeaders 10 toyHeaderGenerator noConstraints w0 = Ret (OK (Some out), w3)
    ∧ out !! "User-Agent" = Some "Mozilla/5.0 Chrome/131.0.0.0".
Proof.
  destruct (C1_emitted_headers (H := runtime) 9 toyHeaderGenerator noConstraints w0
              (mergeOptions toyHeaderGenerator noConstraints).1 defaultConstraints
              {[ "*BROWSER_HTTP" := "chrome/131.0.0.0|2" ]} w0 chromeSample w0)
    as (out & w3 & Hrun & Hpairs & _); [vm_refl..|].
  exists out, w3. split; [exact Hrun|]. clear Hrun.
  destruct (Hpairs "user-agent" "Mozilla/5.0 Chrome/131.0.0.0") as [_ Hval];
    [vm_refl | vm_refl | vm_decide |].
  clear Hpairs.
  assert (pascalizedKey "user-agent" = "User-Agent") as <- by vm_refl.
  apply Hval; clear Hval.
  - vm_decide.
  - intros k2 v2 Hl Hk. apply elem_of_map_to_list in Hl.
    assert (map_to_list (headersBeforeCasing
                           (mergeOptions toyHeaderGenerator noConstraints).1 chromeSample)
            = [("sec-fetch-site", "?1"); ("sec-fetch-mode", "same-site");
               ("sec-fetch-user", "document"); ("sec-fetch-dest", "navigate");
               ("user-agent", "Mozilla/5.0 Chrome/131.0.0.0");
               ("accept-language", "en-US;q=1.0")]) as Hlist by vm_refl.
    rewrite Hlist in Hl. clear Hlist.
    repeat (apply elem_of_cons in Hl as [Hl|Hl];
            [injection Hl as -> ->; vm_compute in Hk;
             first [reflexivity | discriminate Hk]|]).
    by apply elem_of_nil in Hl.
Defined.




(** The retry of the non-strict branch is not bounded: a request for a
    browser the input network never yields fails again after the
    relaxation, whose merge restores the default devices and locales, so
    the call chain uses up any fuel. *)
Lemma GenerateHeaders_relaxation_unbounded (fuel : nat) :
  GenerateHeaders fuel toyHeaderGenerator (onlyBrowsers ["firefox"] false) w0 = OutOfFuel.
Proof.
  set (c := (mergeOptions toyHeaderGenerator (onlyBrowsers ["firefox"] false)).1).
  set (ic := ({[ "*BROWSER_HTTP" := ["firefox/120.0|2"];
                 "*OPERATING_SYSTEM" := SupportedOS;
                 "*DEVICE" := SupportedDevices ]} : gmap string (list string))).
  assert (mergeOptions toyHeaderGenerator (onlyBrowsers ["firefox"] false) = (c, None))
    as Hm0 by vm_refl.
  assert (mergeOptions toyHeaderGenerator (relaxed c) = (c, None)) as Hm by vm_refl.
  assert (prepareConstraints toyHeaderGenerator c = Some ic) as Hp by vm_refl.
  assert (HeaderConstraints.HTTPVersion c = "2") as Hv by vm_refl.
  assert (HeaderConstraints.Strict c = false) as Hst by vm_refl.
  assert (∀ f, generateConsistentSampleWhenPossible (S f) inputNet ic w0 = Ret (None, w0))
    as Hfail.
  { intros f. unfold generateConsistentSampleWhenPossible, bind.
    rewrite recursively_unfold.
    assert (sampleAccordingToRestrictions nodeBrowserHTTP ∅
              (possibilities ic nodeBrowserHTTP) [] w0 = Ret (None, w0)) as Hs by vm_refl.
    change (NodesInSamplingOrder inputNet) with [nodeBrowserHTTP]. simpl.
    by rewrite Hs. }
  clearbody c ic.
  assert (∀ f, GenerateHeaders f toyHeaderGenerator (relaxed c) w0 = OutOfFuel) as Hloop.
  { intros f. induction f as [|f IH]; [reflexivity|].
    rewrite GenerateHeaders_unfold, Hm, Hp.
    change (inputGeneratorNetwork toyHeaderGenerator) with inputNet.
    destruct f as [|f]; [reflexivity|]. rewrite Hfail, Hv, Hst.
    rewrite bool_decide_false by discriminate. unfold bind. by rewrite IH. }
  destruct fuel as [|f]; [reflexivity|].
  rewrite GenerateHeaders_unfold, Hm0, Hp.
  change (inputGeneratorNetwork toyHeaderGenerator) with inputNet.
  destruct f as [|f]; [reflexivity|]. rewrite Hfail, Hv, Hst.
  rewrite bool_decide_false by discriminate. unfold bind. by rewrite Hloop.
Qed.



(** C9 as stated fails: a call of [Generate] that passes per-call
    options leaves the generator with these options written into it. *)
Lemma C9_counterexample :
  ∃ r g',
    Generate rawFingerprint keepRaw 10 toyFingerprintGenerator
      [WithSlim true; WithHeaderConstraints (onlyBrowsers ["safari"] false)] w0
    = Ret ((r, g'), w0)
    ∧ slim toyFingerprintGenerator = false ∧ slim g' = true
    ∧ HeaderConstraints.Browsers (headerConstraints toyFingerprintGenerator) = []
    ∧ HeaderConstraints.Browsers (headerConstraints g') = ["safari"].
Proof.
  exists (OK ({[ "userAgent" := "Mozilla/5.0 Chrome/131.0.0.0" ]}, safariHeaders, false, true)),
         (foldl applyOption toyFingerprintGenerator
            [WithSlim true; WithHeaderConstraints (onlyBrowsers ["safari"] false)]).
  split_and!; vm_refl.
Qed.

(** C9, amended.  A call of [Generate] leaves the generator as the
    per-call options write it: each option overwrites its field (screen,
    strict, mockWebRTC, slim or headerConstraints) and the new value
    stays after the call; a call without per-call options leaves every
    field as it was, and no call changes the network or the header
    generator, which [GenerateHeaders] only reads.  Besides that only the
    state of the random sources changes. *)
Theorem C9_generate_frame `{GoRuntime} (Fingerprint : Type)
    (transformFingerprint :
       gmap string string -> gmap string string -> bool -> bool -> result Fingerprint)
    fuel g opts w r g' w' :
  Generate Fingerprint transformFingerprint fuel g opts w = Ret ((r, g'), w') →
  g' = foldl applyOption g opts
  ∧ network g' = network g
  ∧ headerGenerator g' = headerGenerator g
  ∧ (opts = [] → g' = g)
  ∧ (∀ opts0 b, opts = opts0 ++ [WithSlim b] → slim g' = b)
  ∧ (∀ opts0 b, opts = opts0 ++ [WithStrict b] → strict g' = b)
  ∧ (∀ opts0 b, opts = opts0 ++ [WithMockWebRTC b] → mockWebRTC g' = b)
  ∧ (∀ opts0 s, opts = opts0 ++ [WithScreen s] → screen g' = s)
  ∧ (∀ opts0 c, opts = opts0 ++ [WithHeaderConstraints c] → headerConstraints g' = c).
Proof.
  intros Hrun.
  assert (g' = foldl applyOption g opts) as ->.
  { unfold Generate in Hrun. apply bind_Ret in Hrun as (hr & w1 & _ & Hrest).
    destruct hr as [headers|e]; [|by injection Hrest as _ <- _].
    case_bool_decide; [by injection Hrest as _ <- _|].
    apply bind_Ret in Hrest as (fp & w2 & _ & Hrest).
    destruct fp as [fingerprint|]; [by injection Hrest as _ <- _|].
    destruct (strict (foldl applyOption g opts)); [by injection Hrest as _ <- _|].
    apply bind_Ret in Hrest as (fingerprint & w3 & _ & Hrest).
    by injection Hrest as _ <- _. }
  assert (∀ g0 l, network (foldl applyOption g0 l) = network g0
                  ∧ headerGenerator (foldl applyOption g0 l) = headerGenerator g0) as Hfix.
  { intros g0 l. revert g0. induction l as [|opt l IH]; intros g0; [done|].
    simpl. destruct (IH (applyOption g0 opt)) as [-> ->]. by destruct opt. }
  split_and!; try done; try apply Hfix.
  - by intros ->.
  - intros opts0 b ->. by rewrite foldl_app.
  - intros opts0 b ->. by rewrite foldl_app.
  - intros opts0 b ->. by rewrite foldl_app.
  - intros opts0 s ->. by rewrite foldl_app.
  - intros opts0 c ->. by rewrite foldl_app.
Qed.

Lemma C9_witness :
  ∃ r g',
    Generate rawFingerprint keepRaw 10 toyFingerprintGenerator [] w0 = Ret ((r, g'), w0)
    ∧ g' = toyFingerprintGenerator.
Proof.
  exists (OK ({[ "userAgent" := "Mozilla/5.0 Chrome/131.0.0.0" ]}, chromeHeaders, false, false)),
         toyFingerprintGenerator.
  assert (Generate rawFingerprint keepRaw 10 toyFingerprintGenerator [] w0
          = Ret ((OK ({[ "userAgent" := "Mozilla/5.0 Chrome/131.0.0.0" ]},
                      chromeHeaders, false, false),
                  toyFingerprintGenerator), w0)) as Hrun by vm_refl.
  split; [exact Hrun|].
  symmetry.
  exact (proj1 (proj2 (proj2 (proj2
           (C9_generate_frame (H := runtime) _ _ _ _ _ _ _ _ _ Hrun)))) eq_refl).
Defined.

(* ===================================================================== *)
(** ** Further properties of the sampling engine *)
(* ===================================================================== *)

Lemma descend_all_parents_only (parentNames : list string) :
  ∀ probabilities (s1 s2 : gmap string string),
    (∀ p, p ∈ parentNames → index_str s1 p = index_str s2 p) →
    descend_all probabilities parentNames s1 = descend_all probabilities parentNames s2.
Proof.
  induction parentNames as [|p rest IH]; intros probabilities s1 s2 Hagree; [done|].
  simpl. rewrite (Hagree p) by left.
  destruct (descend probabilities (index_str s2 p)); [|done].
  apply IH. intros q Hq. apply Hagree. by right.
Qed.

(** X1.  The distribution [getProbabilitiesGivenKnownValues] reads for
    a node depends on the assignment only through the values of the
    node's parents, an unbound parent counting as the empty string; for
    a node without parents it is the number-valued entries of the
    node's table, whatever the assignment. *)
Theorem X1_distribution_depends_on_parents (n : node) (s1 s2 : gmap string string) :
  (∀ p, p ∈ ParentNames n → index_str s1 p = index_str s2 p) →
  getProbabilitiesGivenKnownValues n s1 = getProbabilitiesGivenKnownValues n s2
  ∧ (ParentNames n = [] →
     getProbabilitiesGivenKnownValues n s1 = Some (float_entries (ConditionalProbs n))).
Proof.
  intros Hagree. unfold getProbabilitiesGivenKnownValues. split.
  - by rewrite (descend_all_parents_only _ _ s1 s2 Hagree).
  - by intros ->.
Qed.

Lemma X1_witness :
  getProbabilitiesGivenKnownValues nodeB {[ "A" := "a1" ]}
  = getProbabilitiesGivenKnownValues nodeB {[ "A" := "a1"; "B" := "b2"; "C" := "c" ]}.
Proof.
  apply (X1_distribution_depends_on_parents nodeB).
  intros p Hp. apply list_elem_of_singleton in Hp as ->. vm_refl.
Defined.

Lemma validProbs_lookup (probabilities : gmap string float) (valid : list string) v :
  v ∈ valid →
  validProbs probabilities valid !! v = Some (index_float probabilities v).
Proof.
  unfold validProbs. induction valid as [|x valid IH] using rev_ind; intros Hin.
  { by apply elem_of_nil in Hin. }
  rewrite foldl_app. simpl. destruct (decide (x = v)) as [->|Hne].
  - by rewrite lookup_insert_eq.
  - rewrite lookup_insert_ne by done. apply IH.
    apply elem_of_app in Hin as [Hin|Hin]; [done|].
    apply list_elem_of_singleton in Hin. by subst.
Qed.

Lemma scan_validProbs anchor (probabilities : gmap string float) (valid : list string) :
  ∀ (l : list string) c,
    l ⊆ valid →
    scan anchor c l (validProbs probabilities valid) = scan anchor c l probabilities.
Proof.
  induction l as [|x l IH]; intros c Hsub; [done|]. simpl.
  assert (index_float (validProbs probabilities valid) x = index_float probabilities x) as ->.
  { unfold index_float at 1. rewrite validProbs_lookup; [done|]. apply Hsub. by left. }
  case_match; [done|]. apply IH. intros y Hy. apply Hsub. by right.
Qed.

(** X2.  A restricted draw is the weighted scan over the candidates that
    are not banned and have an entry in the node's leaf distribution, in
    the order of the candidate list and with the weights of the full
    distribution (nothing is renormalised).  When no candidate is left
    it reports failure without touching the random source; otherwise it
    takes exactly one draw. *)
Theorem X2_restricted_draw `{GoRuntime} (n : node) (parentValues : gmap string string)
    (probabilities : gmap string float) (valuePossibilities bannedValues : list string) w :
  getProbabilitiesGivenKnownValues n parentValues = Some probabilities →
  let valid := validValues probabilities valuePossibilities bannedValues in
  (valid = [] →
   sampleAccordingToRestrictions n parentValues valuePossibilities bannedValues w
   = Ret (None, w))
  ∧ (valid ≠ [] →
     ∃ v, sampleAccordingToRestrictions n parentValues valuePossibilities bannedValues w
          = Ret (Some v, (rand_Float64 w).2)
        ∧ sampleRandomValueFromPossibilities valid probabilities w
          = Ret (v, (rand_Float64 w).2)
        ∧ v ∈ valid).
Proof.
  intros Hpr valid. unfold sampleAccordingToRestrictions, bind. rewrite Hpr. simpl.
  fold valid. split.
  - by intros ->.
  - intros Hne.
    destruct (sampleRandomValue_nonempty valid probabilities w Hne) as (v & Hv & Hin & _).
    assert (sampleRandomValueFromPossibilities valid (validProbs probabilities valid) w
            = sampleRandomValueFromPossibilities valid probabilities w) as Heq.
    { unfold sampleRandomValueFromPossibilities, bind, Float64.
      destruct (rand_Float64 w) as [anchor w1]. by rewrite scan_validProbs. }
    exists v. destruct valid as [|x valid']; [done|]. rewrite Heq, Hv. done.
Qed.

Lemma X2_witness :
  sampleAccordingToRestrictions nodeA ∅ ["a2"; "a3"] [] w0 = Ret (Some "a2", w0).
Proof.
  destruct (X2_restricted_draw (H := runtime) nodeA ∅
              (float_entries (ConditionalProbs nodeA)) ["a2"; "a3"] [] w0 eq_refl)
    as [_ Hsome].
  destruct Hsome as (v & Hrun & _ & Hin).
  { intros Hnil.
    assert (length (validValues (float_entries (ConditionalProbs nodeA)) ["a2"; "a3"] [])
            = 1%nat) as Hlen by vm_refl.
    by rewrite Hnil in Hlen. }
  assert (validValues (float_entries (ConditionalProbs nodeA)) ["a2"; "a3"] [] = ["a2"])
    as Hvalid by vm_refl.
  rewrite Hvalid in Hin. apply list_elem_of_singleton in Hin as ->. exact Hrun.
Defined.

Section SoundComplete.
Context `{GoRuntime}.

Lemma sampleAccordingToRestrictions_None n parentValues valuePossibilities bannedValues
    w w' :
  sampleAccordingToRestrictions n parentValues valuePossibilities bannedValues w
    = Ret (None, w') →
  w' = w ∧
  ∃ probabilities,
    getProbabilitiesGivenKnownValues n parentValues = Some probabilities
    ∧ validValues probabilities valuePossibilities bannedValues = [].
Proof.
  unfold sampleAccordingToRestrictions. rewrite bind_Ret.
  intros (pr & w1 & [Hpr ->]%lift_option_Ret & Hrest).
  destruct (validValues pr valuePossibilities bannedValues) as [|x valid] eqn:Hvalid.
  - injection Hrest as <-. split; [done|]. by exists pr.
  - apply bind_Ret in Hrest as (v & w2 & _ & Hret). discriminate Hret.
Qed.

(** The search on a network with distinct node names, started on an
    assignment that binds none of the nodes still to come: a returned
    map is a legal completion, and a failure leaves the shared map as it
    was and means that no legal completion starts outside the banned
    values. *)
Lemma recursively_sound_complete bn valuePossibilities fuel :
  ∀ sampleSoFar depth bannedValues w r shared w',
    recursivelyGenerateConsistentSampleWhenPossible fuel bn sampleSoFar
      valuePossibilities depth bannedValues w = Ret ((r, shared), w') →
    NoDup (Name <$> drop depth (NodesInSamplingOrder bn)) →
    (∀ k, k ∈ Name <$> drop depth (NodesInSamplingOrder bn) → sampleSoFar !! k = None) →
    match r with
    | Some s =>
        s = shared
        ∧ completes valuePossibilities (drop depth (NodesInSamplingOrder bn)) sampleSoFar
            (valuesOf s (drop depth (NodesInSamplingOrder bn)))
    | None =>
        shared = sampleSoFar
        ∧ ((∀ v vs, completes valuePossibilities (drop depth (NodesInSamplingOrder bn))
                      sampleSoFar (v :: vs) → v ∉ bannedValues) →
           ∀ vs, ¬ completes valuePossibilities (drop depth (NodesInSamplingOrder bn))
                     sampleSoFar vs)
    end.
Proof.
  induction fuel as [|fuel IH];
    intros sampleSoFar depth bannedValues w r shared w' Hrun Hnd Hfresh; [done|].
  pose proof Hrun as Hrun0.
  rewrite recursively_unfold in Hrun.
  destruct (depth =? length (NodesInSamplingOrder bn))%nat eqn:Hd.
  { apply Nat.eqb_eq in Hd. injection Hrun as <- <- <-.
    rewrite Hd, drop_all. done. }
  destruct (NodesInSamplingOrder bn !! depth) as [n|] eqn:Hn; [|done].
  rewrite (drop_lookup_cons _ _ _ Hn) in Hnd, Hfresh |- *.
  rewrite fmap_cons in Hnd, Hfresh. apply NoDup_cons in Hnd as [Hname Hnd].
  assert (sampleSoFar !! Name n = None) as Hfree by (apply Hfresh; left).
  destruct (sampleAccordingToRestrictions n sampleSoFar
              (possibilities valuePossibilities n) bannedValues w)
    as [[[v|] w1]| |] eqn:Hs; [| |done..].
  2:{ injection Hrun as <- <- <-. split; [done|]. intros Hban vs Hc.
      apply sampleAccordingToRestrictions_None in Hs as (_ & pr & Hpr & Hvalid).
      destruct vs as [|v vs]; [done|]. simpl in Hc.
      destruct Hc as (Hin & (pr' & Hpr' & Hentry) & Hrest).
      assert (v ∈ validValues pr (possibilities valuePossibilities n) bannedValues) as Hv.
      { apply validValues_spec. split_and!; [done| |congruence].
        apply (Hban v vs). simpl. split_and!; [done| |done]. by exists pr'. }
      rewrite Hvalid in Hv. by apply elem_of_nil in Hv. }
  apply sampleAccordingToRestrictions_Some in Hs as (Hin & Hnb & pr & Hpr & Hentry).
  assert (∀ k, k ∈ Name <$> drop (S depth) (NodesInSamplingOrder bn) →
               <[Name n:=v]> sampleSoFar !! k = None) as Hfresh'.
  { intros k Hk. rewrite lookup_insert_ne; [apply Hfresh; by right|].
    intros <-. done. }
  destruct (recursivelyGenerateConsistentSampleWhenPossible fuel bn
              (<[Name n:=v]> sampleSoFar) valuePossibilities (S depth) [] w1)
    as [[[[s1|] shared1] w2]| |] eqn:Hrec; [| |done..].
  - injection Hrun as <- <- <-.
    destruct (IH _ _ _ _ _ _ _ Hrec Hnd Hfresh') as [Heq Hc]. subst shared1.
    destruct (recursively_result _ _ _ _ _ _ _ _ _ _ Hrec) as [Hout _].
    split; [done|]. unfold valuesOf. rewrite fmap_cons. simpl.
    assert (index_str s1 (Name n) = v) as ->.
    { unfold index_str. rewrite (Hout _ Hname). by rewrite lookup_insert_eq. }
    split_and!; [done | by exists pr | done].
  - destruct (IH _ _ _ _ _ _ _ Hrec Hnd Hfresh') as [-> Hnone].
    rewrite delete_insert_eq in Hrun. rewrite delete_id in Hrun by done.
    specialize (IH _ _ _ _ _ _ _ Hrun).
    rewrite (drop_lookup_cons _ _ _ Hn), fmap_cons in IH.
    specialize (IH (proj2 (NoDup_cons _ _) (conj Hname Hnd)) Hfresh).
    destruct r as [s|]; [done|].
    destruct IH as [-> IHc]. split; [done|]. intros Hban. apply IHc.
    intros v0 vs Hc. specialize (Hban v0 vs Hc).
    intros [Hb|Hb]%elem_of_app; [done|]. apply list_elem_of_singleton in Hb as ->.
    simpl in Hc. destruct Hc as (_ & _ & Hrest).
    apply (Hnone ltac:(intros ? ? _; apply not_elem_of_nil) vs Hrest).
Qed.

End SoundComplete.

Lemma generateConsistent_sound `{GoRuntime} fuel bn valuePossibilities w s w' :
  NoDup (Name <$> NodesInSamplingOrder bn) →
  generateConsistentSampleWhenPossible fuel bn valuePossibilities w = Ret (Some s, w') →
  completes valuePossibilities (NodesInSamplingOrder bn) ∅
    (valuesOf s (NodesInSamplingOrder bn)).
Proof.
  intros Hnd Hrun. unfold generateConsistentSampleWhenPossible in Hrun.
  apply bind_Ret in Hrun as ([r shared] & w1 & Hrec & Hret). injection Hret as -> ->.
  pose proof (recursively_sound_complete _ _ _ _ _ _ _ _ _ _ Hrec) as Hsc.
  rewrite drop_0 in Hsc. by apply Hsc.
Qed.

(** X3.  On a network whose node names are distinct, an assignment
    returned by restricted sampling is consistent node by node: in
    sampling order, the value of each node is one of its candidates and
    has an entry in the leaf distribution the node has under the values
    bound before it. *)
Theorem X3_restricted_sampling_sound `{GoRuntime} fuel bn valuePossibilities w s w' :
  NoDup (Name <$> NodesInSamplingOrder bn) →
  generateConsistentSampleWhenPossible fuel bn valuePossibilities w = Ret (Some s, w') →
  completes valuePossibilities (NodesInSamplingOrder bn) ∅
    (valuesOf s (NodesInSamplingOrder bn)).
Proof. apply generateConsistent_sound. Qed.

Lemma X3_witness : completes ∅ [nodeA; nodeB] ∅ ["a1"; "b1"].
Proof.
  assert (valuesOf {[ "A" := "a1"; "B" := "b1" ]} (NodesInSamplingOrder toy) = ["a1"; "b1"])
    as <- by vm_refl.
  apply (X3_restricted_sampling_sound (H := runtime) 7 toy ∅ w0 _ w0).
  - vm_decide.
  - vm_refl.
Defined.

(** X4.  On a network whose node names are distinct, restricted
    sampling is exhaustive: when it reports failure there is no
    consistent assignment at all, so that no run on the same network and
    restrictions, whatever its random source and fuel, returns one. *)
Theorem X4_restricted_sampling_complete `{GoRuntime} fuel bn valuePossibilities w w' :
  NoDup (Name <$> NodesInSamplingOrder bn) →
  generateConsistentSampleWhenPossible fuel bn valuePossibilities w = Ret (None, w') →
  (∀ vs, ¬ completes valuePossibilities (NodesInSamplingOrder bn) ∅ vs)
  ∧ (∀ fuel2 w2 s w2',
       generateConsistentSampleWhenPossible fuel2 bn valuePossibilities w2
       ≠ Ret (Some s, w2')).
Proof.
  intros Hnd Hrun.
  assert (∀ vs, ¬ completes valuePossibilities (NodesInSamplingOrder bn) ∅ vs) as Hnone.
  { unfold generateConsistentSampleWhenPossible in Hrun.
    apply bind_Ret in Hrun as ([r shared] & w1 & Hrec & Hret). injection Hret as -> ->.
    pose proof (recursively_sound_complete _ _ _ _ _ _ _ _ _ _ Hrec) as Hsc.
    rewrite drop_0 in Hsc. destruct Hsc as [_ Hsc]; [done..|].
    apply Hsc. intros ? ? _. apply not_elem_of_nil. }
  split; [done|]. intros fuel2 w2 s w2' Hrun2.
  by apply (Hnone _ (generateConsistent_sound _ _ _ _ _ _ Hnd Hrun2)).
Qed.

Lemma X4_witness :
  ¬ completes {[ "B" := ["invalid"] ]} [nodeA; nodeB] ∅ ["a2"; "invalid"].
Proof.
  apply (proj1 (X4_restricted_sampling_complete (H := runtime) 7 toy
                  {[ "B" := ["invalid"] ]} w0 w0 ltac:(vm_decide) ltac:(vm_refl))).
Defined.

(** X5.  Unconditional sampling never resamples a bound node: on a seed
    that binds every node of the network it returns the seed itself and
    takes nothing from the random sources. *)
Theorem X5_generateSample_bound_seed `{GoRuntime} bn (inputValues : gmap string string) w :
  (∀ n, n ∈ NodesInSamplingOrder bn → is_Some (inputValues !! Name n)) →
  generateSample bn inputValues w = Ret (inputValues, w).
Proof.
  unfold generateSample. induction (NodesInSamplingOrder bn) as [|n nodes IH]; intros Hall.
  { done. }
  simpl. destruct (Hall n) as [v ->]; [by left|].
  apply IH. intros n' Hn'. apply Hall. by right.
Qed.

Lemma X5_witness :
  generateSample toy {[ "A" := "a2"; "B" := "anything" ]} w0
  = Ret ({[ "A" := "a2"; "B" := "anything" ]}, w0).
Proof.
  apply (X5_generateSample_bound_seed (H := runtime)).
  intros n Hn. apply elem_of_cons in Hn as [->|Hn].
  - exists "a2". vm_refl.
  - apply list_elem_of_singleton in Hn as ->. exists "anything". vm_refl.
Defined.

(* ===================================================================== *)
(** ** Further properties of option merging *)
(* ===================================================================== *)

Lemma filter_nil_iff {A} (P : A → Prop) `{!∀ x, Decision (P x)} (l : list A) :
  filter P l = [] ↔ ∀ x, x ∈ l → ¬ P x.
Proof.
  split; [|apply filter_all_False].
  intros Hnil x Hx HP.
  assert (x ∈ filter P l) as Hin by (by apply list_elem_of_filter).
  rewrite Hnil in Hin. by apply elem_of_nil in Hin.
Qed.

Lemma filter_unsupported_nil (supported l : list string) :
  filter (fun v => v ∉ supported) l = [] ↔ ∀ v, v ∈ l → v ∈ supported.
Proof.
  rewrite filter_nil_iff. split; intros Hall v Hv.
  - destruct (decide (v ∈ supported)); [done|]. by destruct (Hall v Hv).
  - intros Hn. by apply Hn, Hall.
Qed.

Lemma mergeOptions_snd (g : HeaderGenerator) (u : HeaderConstraints.t) :
  (mergeOptions g u).2
  = match mergeErrors u with
    | [] => None
    | errs => Some (ErrValidation errs)
    end.
Proof.
  unfold mergeOptions, mergeErrors, invalidError, httpVersionError,
    validateAgainstSupported.
  rewrite !validateAndMerge_spec.
  destruct (filter (λ v, v ∉ SupportedBrowsers) (HeaderConstraints.Browsers u));
    destruct (filter (λ v, v ∉ SupportedOS) (HeaderConstraints.OS u));
    destruct (filter (λ v, v ∉ SupportedDevices) (HeaderConstraints.Devices u));
    repeat case_bool_decide; reflexivity.
Qed.

Lemma invalidError_nil (supported user : list string) :
  invalidError supported user = [] ↔ ∀ v, v ∈ user → v ∈ supported.
Proof.
  rewrite <- filter_unsupported_nil. unfold invalidError.
  by destruct (filter (λ v, v ∉ supported) user).
Qed.

Lemma mergeErrors_nil (u : HeaderConstraints.t) : mergeErrors u = [] ↔ allSupported u.
Proof.
  unfold mergeErrors, allSupported.
  rewrite !app_nil, !invalidError_nil. unfold httpVersionError.
  repeat case_bool_decide; naive_solver.
Qed.

Lemma mergeOptions_error (g : HeaderGenerator) (u : HeaderConstraints.t) :
  (mergeOptions g u).2 = None ↔ allSupported u.
Proof. rewrite mergeOptions_snd, <- mergeErrors_nil. by destruct (mergeErrors u). Qed.

(** X6.  [mergeOptions] returns, next to the merged options, the
    validation error whose causes are, in this order, the unsupported
    browsers, operating systems and devices the user names (one cause
    per field, listing its rejected values) and the user's HTTP version
    when it is neither empty nor supported; it returns no error exactly
    when there is no such cause, that is when every value the user names
    is supported. *)
Theorem X6_merge_error_iff (g : HeaderGenerator) (u : HeaderConstraints.t) :
  (mergeOptions g u).2
  = match mergeErrors u with
    | [] => None
    | errs => Some (ErrValidation errs)
    end
  ∧ (mergeErrors u = [] ↔ allSupported u)
  ∧ ((mergeOptions g u).2 = None ↔ allSupported u).
Proof.
  split_and!; [apply mergeOptions_snd | apply mergeErrors_nil | apply mergeOptions_error].
Qed.

Lemma mergeOptions_fst (g : HeaderGenerator) (u : HeaderConstraints.t) :
  (mergeOptions g u).1
  = {| HeaderConstraints.BrowserSpecs := HeaderConstraints.BrowserSpecs u;
       HeaderConstraints.Browsers :=
         orDefault (filter (fun v => v ∈ SupportedBrowsers) (HeaderConstraints.Browsers u))
                   (HeaderConstraints.Browsers (options g));
       HeaderConstraints.OS :=
         orDefault (filter (fun v => v ∈ SupportedOS) (HeaderConstraints.OS u))
                   (HeaderConstraints.OS (options g));
       HeaderConstraints.Devices :=
         orDefault (filter (fun v => v ∈ SupportedDevices) (HeaderConstraints.Devices u))
                   (HeaderConstraints.Devices (options g));
       HeaderConstraints.Locales :=
         orDefault (take 10 (HeaderConstraints.Locales u))
                   (HeaderConstraints.Locales (options g));
       HeaderConstraints.HTTPVersion :=
         if bool_decide (HeaderConstraints.HTTPVersion u ∈ SupportedHTTP)
         then HeaderConstraints.HTTPVersion u
         else HeaderConstraints.HTTPVersion (options g);
       HeaderConstraints.Strict := HeaderConstraints.Strict u |}.
Proof.
  unfold mergeOptions, validateAgainstSupported. rewrite !validateAndMerge_spec.
  assert ((if (0 <? length (HeaderConstraints.Locales u))%nat
           then if (10 <? length (HeaderConstraints.Locales u))%nat
                then take 10 (HeaderConstraints.Locales u)
                else HeaderConstraints.Locales u
           else HeaderConstraints.Locales (options g))
          = orDefault (take 10 (HeaderConstraints.Locales u))
                      (HeaderConstraints.Locales (options g))) as ->.
  { destruct (HeaderConstraints.Locales u) as [|l ls] eqn:Hl; [done|].
    destruct (10 <? length (l :: ls))%nat eqn:Hlen; simpl (0 <? _)%nat; cbv iota.
    - done.
    - apply Nat.ltb_ge in Hlen. by rewrite take_ge. }
  assert (∃ b1 b2,
            bool_decide (HeaderConstraints.HTTPVersion u = "") = b1
            ∧ bool_decide (HeaderConstraints.HTTPVersion u ∈ SupportedHTTP) = b2
            ∧ (b1 = true → b2 = false)) as (b1 & b2 & -> & -> & Hb).
  { eexists _, _. split_and!; [done..|]. intros He%bool_decide_eq_true. by rewrite He. }
  unfold orDefault.
  destruct (filter (λ v, v ∈ SupportedBrowsers) (HeaderConstraints.Browsers u));
    destruct (filter (λ v, v ∉ SupportedBrowsers) (HeaderConstraints.Browsers u));
    destruct (filter (λ v, v ∈ SupportedOS) (HeaderConstraints.OS u));
    destruct (filter (λ v, v ∉ SupportedOS) (HeaderConstraints.OS u));
    destruct (filter (λ v, v ∈ SupportedDevices) (HeaderConstraints.Devices u));
    destruct (filter (λ v, v ∉ SupportedDevices) (HeaderConstraints.Devices u));
    (destruct b1; [rewrite (Hb eq_refl)|destruct b2]; reflexivity).
Qed.

Lemma orDefault_filter_supported (supported user default_ : list string) :
  (∀ v, v ∈ user → v ∈ supported) →
  orDefault (filter (fun v => v ∈ supported) user) default_ = orDefault user default_.
Proof. intros Hall. by rewrite filter_all_True. Qed.

Lemma mergeOptions_valid (g : HeaderGenerator) (u : HeaderConstraints.t) :
  options g = defaultHeaderOptions →
  let c := (mergeOptions g u).1 in
  allSupported c
  ∧ HeaderConstraints.Browsers c ≠ [] ∧ HeaderConstraints.OS c ≠ []
  ∧ HeaderConstraints.Devices c ≠ []
  ∧ (1 ≤ length (HeaderConstraints.Locales c) ≤ 10)%nat
  ∧ HeaderConstraints.HTTPVersion c ∈ SupportedHTTP
  ∧ HeaderConstraints.Strict c = HeaderConstraints.Strict u
  ∧ HeaderConstraints.BrowserSpecs c = HeaderConstraints.BrowserSpecs u.
Proof.
  intros Hopts c. subst c. rewrite mergeOptions_fst, Hopts. simpl.
  assert (∀ supported user,
            supported ≠ [] →
            (∀ v, v ∈ orDefault (filter (λ v, v ∈ supported) user) supported → v ∈ supported)
            ∧ orDefault (filter (λ v, v ∈ supported) user) supported ≠ []) as Hkeep.
  { intros supported user Hne. unfold orDefault.
    destruct (filter (λ v, v ∈ supported) user) as [|x l] eqn:Hf; [done|].
    split; [|done]. intros v Hv. rewrite <- Hf in Hv.
    by apply list_elem_of_filter in Hv as [? _]. }
  destruct (Hkeep SupportedBrowsers (HeaderConstraints.Browsers u)) as [Hb1 Hb2]; [done|].
  destruct (Hkeep SupportedOS (HeaderConstraints.OS u)) as [Ho1 Ho2]; [done|].
  destruct (Hkeep SupportedDevices (HeaderConstraints.Devices u)) as [Hd1 Hd2]; [done|].
  assert ((if bool_decide (HeaderConstraints.HTTPVersion u ∈ SupportedHTTP)
           then HeaderConstraints.HTTPVersion u else "2") ∈ SupportedHTTP) as Hhttp.
  { case_bool_decide; [done|]. right; left. }
  unfold allSupported. simpl. split_and!; try done.
  - by right.
  - unfold orDefault. destruct (take 10 (HeaderConstraints.Locales u)); simpl; lia.
  - unfold orDefault.
    destruct (take 10 (HeaderConstraints.Locales u)) as [|x l] eqn:Ht; [simpl; lia|].
    change (length (x :: l) ≤ 10)%nat. rewrite <- Ht, length_take. lia.
Qed.

(** X7.  Whatever the user passes, and whether or not an error is
    reported with them, the options merged over the default options are
    valid: their browsers, operating systems and devices are non-empty
    lists of supported values, there are between one and ten locales,
    the HTTP version is "1" or "2", and strict and browserSpecs are the
    user's. *)
Theorem X7_merged_options_valid (g : HeaderGenerator) (u : HeaderConstraints.t) :
  options g = defaultHeaderOptions →
  let c := (mergeOptions g u).1 in
  allSupported c
  ∧ HeaderConstraints.Browsers c ≠ [] ∧ HeaderConstraints.OS c ≠ []
  ∧ HeaderConstraints.Devices c ≠ []
  ∧ (1 ≤ length (HeaderConstraints.Locales c) ≤ 10)%nat
  ∧ HeaderConstraints.HTTPVersion c ∈ SupportedHTTP
  ∧ HeaderConstraints.Strict c = HeaderConstraints.Strict u
  ∧ HeaderConstraints.BrowserSpecs c = HeaderConstraints.BrowserSpecs u.
Proof. apply mergeOptions_valid. Qed.

Lemma X7_witness :
  HeaderConstraints.HTTPVersion
    (mergeOptions toyHeaderGenerator
       {| HeaderConstraints.BrowserSpecs := [];
          HeaderConstraints.Browsers := ["netscape"];
          HeaderConstraints.OS := ["beos"; "linux"];
          HeaderConstraints.Devices := [];
          HeaderConstraints.Locales := [];
          HeaderConstraints.HTTPVersion := "3";
          HeaderConstraints.Strict := true |}).1
  ∈ SupportedHTTP.
Proof.
  apply (X7_merged_options_valid toyHeaderGenerator). reflexivity.
Defined.

(** For supported user options with at most ten locales merging is
    defaulting, field by field. *)
Lemma mergeOptions_supported (g : HeaderGenerator) (u : HeaderConstraints.t) :
  allSupported u →
  (length (HeaderConstraints.Locales u) ≤ 10)%nat →
  mergeOptions g u
  = ({| HeaderConstraints.BrowserSpecs := HeaderConstraints.BrowserSpecs u;
        HeaderConstraints.Browsers :=
          orDefault (HeaderConstraints.Browsers u) (HeaderConstraints.Browsers (options g));
        HeaderConstraints.OS :=
          orDefault (HeaderConstraints.OS u) (HeaderConstraints.OS (options g));
        HeaderConstraints.Devices :=
          orDefault (HeaderConstraints.Devices u) (HeaderConstraints.Devices (options g));
        HeaderConstraints.Locales :=
          orDefault (HeaderConstraints.Locales u) (HeaderConstraints.Locales (options g));
        HeaderConstraints.HTTPVersion :=
          if bool_decide (HeaderConstraints.HTTPVersion u = "")
          then HeaderConstraints.HTTPVersion (options g)
          else HeaderConstraints.HTTPVersion u;
        HeaderConstraints.Strict := HeaderConstraints.Strict u |}, None).
Proof.
  intros Hsup Hlen.
  rewrite (surjective_pairing (mergeOptions g u)).
  rewrite (proj2 (mergeOptions_error g u) Hsup), mergeOptions_fst.
  destruct Hsup as (Hb & Ho & Hd & Hv).
  rewrite !orDefault_filter_supported by done. rewrite take_ge by done.
  do 2 f_equal. case_bool_decide as Hs; case_bool_decide as He; try done.
  - exfalso. rewrite He in Hs. revert Hs.
    by apply (bool_decide_eq_false_1 ("" ∈ SupportedHTTP)).
  - by destruct Hv.
Qed.

(** X8.  Options merged over the default options are a fixed point of
    merging: [GenerateHeaders] passes them to itself on a retry, and
    merging them again returns them unchanged and without error, also
    after the HTTP version is set to "2".  The relaxed options do not stay
    relaxed: merged again, their cleared devices and locales are the
    default devices and the default locale. *)
Theorem X8_remerge (g : HeaderGenerator) (u : HeaderConstraints.t) :
  options g = defaultHeaderOptions →
  let c := (mergeOptions g u).1 in
  mergeOptions g c = (c, None)
  ∧ mergeOptions g (withHTTPVersion c "2") = (withHTTPVersion c "2", None)
  ∧ mergeOptions g (relaxed c) = (withDevicesLocales c SupportedDevices ["en-US"], None).
Proof.
  intros Hopts c.
  destruct (mergeOptions_valid g u Hopts) as (Hsup & Hb & Ho & Hd & Hl & Hv & _).
  fold c in Hsup, Hb, Ho, Hd, Hl, Hv. clearbody c.
  destruct c as [specs browsers os devices locales http strict_].
  unfold allSupported in Hsup. simpl in *. destruct Hsup as (Hsb & Hso & Hsd & _).
  assert (http ≠ "") as Hne.
  { intros ->. revert Hv. by apply (bool_decide_eq_false_1 ("" ∈ SupportedHTTP)). }
  split_and!.
  - rewrite mergeOptions_supported, Hopts; [|unfold allSupported; simpl; auto|simpl; lia].
    simpl. rewrite bool_decide_false by done.
    destruct browsers, os, devices, locales; simpl in *; first [done | lia].
  - unfold withHTTPVersion. simpl.
    rewrite mergeOptions_supported, Hopts; [|unfold allSupported; simpl|simpl; lia].
    + simpl. destruct browsers, os, devices, locales; simpl in *; first [done | lia].
    + split_and!; [done..|]. right. right; left.
  - unfold relaxed, withDevicesLocales. simpl.
    rewrite mergeOptions_supported, Hopts; [|unfold allSupported; simpl|simpl; lia].
    + simpl. rewrite bool_decide_false by done. by destruct browsers, os.
    + split_and!; [done|done| |by right]. intros v Hin. by apply elem_of_nil in Hin.
Qed.

Lemma X8_witness :
  mergeOptions toyHeaderGenerator
    (relaxed (mergeOptions toyHeaderGenerator (onlyBrowsers ["firefox"] false)).1)
  = ((mergeOptions toyHeaderGenerator (onlyBrowsers ["firefox"] false)).1, None).
Proof.
  rewrite (proj2 (proj2 (X8_remerge toyHeaderGenerator (onlyBrowsers ["firefox"] false)
                           eq_refl))).
  vm_refl.
Defined.

(** X9.  An unsupported value stops header generation before any
    sampling: when some value the user names is unsupported,
    [GenerateHeaders] returns the validation error of [mergeOptions] and
    no headers, and [Generate] returns that error wrapped, both without
    taking anything from the random sources. *)
Theorem X9_validation_error_before_sampling `{GoRuntime} (g : HeaderGenerator)
    (u : HeaderConstraints.t) fuel w :
  ¬ allSupported u →
  mergeErrors u ≠ []
  ∧ GenerateHeaders (S fuel) g u w = Ret (Err (ErrValidation (mergeErrors u)), w)
  ∧ ∀ (Fingerprint : Type) transformFingerprint g0 opts,
      headerGenerator (foldl applyOption g0 opts) = g →
      headerConstraints (foldl applyOption g0 opts) = u →
      Generate Fingerprint transformFingerprint (S fuel) g0 opts w
      = Ret ((Err (ErrGenerateHeaders (ErrValidation (mergeErrors u))),
              foldl applyOption g0 opts), w).
Proof.
  intros Hbad.
  assert (mergeErrors u ≠ []) as Hne by (by rewrite mergeErrors_nil).
  assert (GenerateHeaders (S fuel) g u w = Ret (Err (ErrValidation (mergeErrors u)), w))
    as Hrun.
  { rewrite GenerateHeaders_unfold, (surjective_pairing (mergeOptions g u)).
    rewrite mergeOptions_snd. by destruct (mergeErrors u). }
  split_and!; [done..|].
  intros F tf g0 opts Hg Hu. unfold Generate, bind. by rewrite Hg, Hu, Hrun.
Qed.

Lemma X9_witness :
  GenerateHeaders 1 toyHeaderGenerator (onlyBrowsers ["netscape"] false) w0
  = Ret (Err (ErrValidation [ErrInvalidValues ["netscape"]]), w0).
Proof.
  destruct (X9_validation_error_before_sampling (H := runtime) toyHeaderGenerator
              (onlyBrowsers ["netscape"] false) 0 w0) as (_ & Hrun & _).
  - intros (Hb & _). specialize (Hb "netscape" ltac:(left)). revert Hb.
    by apply (bool_decide_eq_false_1 ("netscape" ∈ SupportedBrowsers)).
  - rewrite Hrun. vm_refl.
Defined.

(* ===================================================================== *)
(** ** Further properties of the constraint translation *)
(* ===================================================================== *)

Lemma Split_no_sep (sep : ascii) (s : string) :
  sep ∉ GoStrings.bytes s → GoStrings.Split sep s = [s].
Proof.
  induction s as [|c s IH]; simpl; [done|]. intros Hnin.
  rewrite not_elem_of_cons in Hnin. destruct Hnin as [Hne Hnin].
  destruct (Ascii.eqb c sep) eqn:Heq; [apply Ascii.eqb_eq in Heq; by subst|].
  by rewrite (IH Hnin).
Qed.

Lemma Split_app_sep (sep : ascii) (a b : string) :
  sep ∉ GoStrings.bytes a →
  GoStrings.Split sep (a +:+ String sep b) = a :: GoStrings.Split sep b.
Proof.
  induction a as [|c a IH]; simpl.
  - intros _. by rewrite Ascii.eqb_refl.
  - intros Hnin. rewrite not_elem_of_cons in Hnin. destruct Hnin as [Hne Hnin].
    destruct (Ascii.eqb c sep) eqn:Heq; [apply Ascii.eqb_eq in Heq; by subst|].
    change (String.append a (String sep b)) with (a +:+ String sep b).
    by rewrite (IH Hnin).
Qed.

Lemma str_app_assoc (a b c : string) : (a +:+ b) +:+ c = a +:+ b +:+ c.
Proof.
  induction a as [|x a IH]; [done|].
  change (String x ((a +:+ b) +:+ c) = String x (a +:+ b +:+ c)). by f_equal.
Qed.

Lemma bytes_app (a b : string) :
  GoStrings.bytes (a +:+ b) = GoStrings.bytes a ++ GoStrings.bytes b.
Proof. induction a as [|x a IH]; simpl; [done | by rewrite IH]. Qed.

Section Translation.
Context `{GoRuntime}.

(** What [prepareHttpBrowserObject] keeps of its input. *)
Lemma prepareHttpBrowserObject_Some (s : string) (b : httpBrowser.t) :
  prepareHttpBrowserObject s = Some b →
  httpBrowser.CompleteString b = s
  ∧ (httpBrowser.Name b = None ↔ s = missingValueToken)
  ∧ (httpBrowser.Name b ≠ None → httpBrowser.Version b ≠ []).
Proof.
  unfold prepareHttpBrowserObject. case_bool_decide as Hm.
  { intros [= <-]. simpl. by subst. }
  destruct (GoStrings.Split "|" s) as [|a [|c [|d l]]]; try done.
  pose proof (Split_length "/" a) as Hla.
  destruct (GoStrings.Split "/" a) as [|x [|y [|z l']]]; try done.
  intros [= <-]. simpl. split_and!; [done | naive_solver |].
  intros _. pose proof (Split_length "." y) as Hl.
  destruct (GoStrings.Split "." y); [simpl in Hl; lia | done].
Qed.

End Translation.

(** X10.  [prepareHttpBrowserObject] reads back a browser string: for a
    name and a version without '/' and '|' and an HTTP version without
    '|', the string name/version|httpVersion yields the record with
    that name, that HTTP version, the string itself as complete string,
    and one version number per dot-separated part of the version. *)
Theorem X10_browser_string_round_trip `{GoRuntime} (name version httpVersion : string) :
  "/"%char ∉ GoStrings.bytes name → "|"%char ∉ GoStrings.bytes name →
  "/"%char ∉ GoStrings.bytes version → "|"%char ∉ GoStrings.bytes version →
  "|"%char ∉ GoStrings.bytes httpVersion →
  let s := name +:+ "/" +:+ version +:+ "|" +:+ httpVersion in
  prepareHttpBrowserObject s
  = Some {| httpBrowser.Name := Some name;
            httpBrowser.Version := atoi <$> GoStrings.Split "." version;
            httpBrowser.CompleteString := s;
            httpBrowser.HTTPVersion := httpVersion |}
  ∧ length (atoi <$> GoStrings.Split "." version)
    = S (GoStrings.count "." version).
Proof.
  intros Hn1 Hn2 Hv1 Hv2 Hh s.
  assert (s = (name +:+ "/" +:+ version) +:+ String "|" httpVersion) as Hs.
  { subst s. by rewrite str_app_assoc. }
  assert ("|"%char ∉ GoStrings.bytes (name +:+ "/" +:+ version)) as Hbar.
  { rewrite !bytes_app. simpl. rewrite !elem_of_app, elem_of_cons. naive_solver. }
  split; [|by rewrite length_fmap, Split_length].
  unfold prepareHttpBrowserObject. rewrite bool_decide_false.
  - rewrite Hs at 1. rewrite (Split_app_sep _ _ _ Hbar), (Split_no_sep _ _ Hh).
    change (name +:+ "/" +:+ version) with (name +:+ String "/" version).
    by rewrite (Split_app_sep _ _ _ Hn1), (Split_no_sep _ _ Hv1).
  - intros Heq.
    assert ("|"%char ∈ GoStrings.bytes s) as Hin.
    { rewrite Hs, bytes_app. apply elem_of_app. right. left. }
    rewrite Heq in Hin. revert Hin.
    by apply (bool_decide_eq_false_1 ("|"%char ∈ GoStrings.bytes missingValueToken)).
Qed.

Lemma X10_witness :
  prepareHttpBrowserObject "chrome/131.0.0.0|2"
  = Some {| httpBrowser.Name := Some "chrome";
            httpBrowser.Version := [131; 0; 0; 0];
            httpBrowser.CompleteString := "chrome/131.0.0.0|2";
            httpBrowser.HTTPVersion := "2" |}.
Proof.
  etrans; [|etrans].
  2: exact (proj1 (X10_browser_string_round_trip (H := runtime) "chrome" "131.0.0.0" "2"
                     ltac:(vm_decide) ltac:(vm_decide) ltac:(vm_decide) ltac:(vm_decide)
                     ltac:(vm_decide))).
  all: vm_refl.
Defined.

Lemma concat_options_Some {A} (l : list (option (list A))) (r : list A) :
  concat_options l = Some r →
  (∀ x, x ∈ l → is_Some x) ∧ ∀ v, v ∈ r ↔ ∃ x, Some x ∈ l ∧ v ∈ x.
Proof.
  revert r; induction l as [|[x|] l IH]; intros r; simpl; [| |done].
  - intros [= <-]. split; [by intros x Hx; apply elem_of_nil in Hx|].
    intros v. split; [by intros Hv; apply elem_of_nil in Hv|].
    intros (x & Hx & _). by apply elem_of_nil in Hx.
  - destruct (concat_options l) as [r'|]; [|done]. intros [= <-].
    destruct (IH r' eq_refl) as [Hall Hin]. split.
    + intros y [->|Hy]%elem_of_cons; [done | by apply Hall].
    + intros v. rewrite elem_of_app, Hin. split.
      * intros [Hv|(y & Hy & Hv)]; [exists x; split; [left|done]|].
        exists y. split; [by right | done].
      * intros (y & [[= ->]|Hy]%elem_of_cons & Hv); [by left|]. right. by exists y.
Qed.

Lemma concat_options_is_Some {A} (l : list (option (list A))) :
  (∀ x, x ∈ l → is_Some x) → is_Some (concat_options l).
Proof.
  induction l as [|x l IH]; intros Hall; simpl; [done|].
  destruct (Hall x) as [y ->]; [left|].
  destruct IH as [r ->]; [|done]. intros z Hz. apply Hall. by right.
Qed.

Lemma matchBrowserName_elem browserName httpVersion ub v :
  v ∈ matchBrowserName browserName httpVersion ub ↔
  answersName browserName httpVersion ub ∧ httpBrowser.CompleteString ub = v.
Proof.
  unfold matchBrowserName, answersName.
  repeat case_bool_decide; simpl; rewrite ?list_elem_of_singleton, ?elem_of_nil;
    naive_solver.
Qed.

Lemma matchBrowserSpec_is_Some (spec : BrowserSpec.t) (ub : httpBrowser.t) :
  (httpBrowser.Name ub ≠ None → httpBrowser.Version ub ≠ []) →
  is_Some (matchBrowserSpec spec ub).
Proof.
  intros Hver. unfold matchBrowserSpec.
  case_bool_decide as Hname; [|done].
  destruct (httpBrowser.Version ub) as [|major rest];
    [destruct Hver; [by rewrite Hname | done]|].
  simpl. repeat (case_match; try done).
Qed.

Lemma matchBrowserSpec_elem (spec : BrowserSpec.t) (ub : httpBrowser.t) l v :
  matchBrowserSpec spec ub = Some l →
  (v ∈ l ↔ answersSpec spec ub ∧ httpBrowser.CompleteString ub = v).
Proof.
  unfold matchBrowserSpec, answersSpec, answersName.
  case_bool_decide as Hname;
    [|intros [= <-]; rewrite elem_of_nil; naive_solver].
  destruct (bool_decide (BrowserSpec.HTTPVersion spec = httpBrowser.HTTPVersion ub)
            || bool_decide (BrowserSpec.HTTPVersion spec = "")) eqn:Hhttp.
  2:{ intros [= <-]. rewrite elem_of_nil.
      apply orb_false_iff in Hhttp as [H1%bool_decide_eq_false H2%bool_decide_eq_false].
      naive_solver. }
  apply orb_true_iff in Hhttp.
  assert (BrowserSpec.HTTPVersion spec = httpBrowser.HTTPVersion ub
          ∨ BrowserSpec.HTTPVersion spec = "") as Hh.
  { destruct Hhttp as [?%bool_decide_eq_true|?%bool_decide_eq_true]; auto. }
  clear Hhttp.
  destruct (0 <? BrowserSpec.MinVersion spec)%Z eqn:Hmin;
    [apply Z.ltb_lt in Hmin | apply Z.ltb_ge in Hmin];
    destruct (0 <? BrowserSpec.MaxVersion spec)%Z eqn:Hmax;
    [apply Z.ltb_lt in Hmax | apply Z.ltb_ge in Hmax | apply Z.ltb_lt in Hmax
     | apply Z.ltb_ge in Hmax];
    destruct (httpBrowser.Version ub) as [|major rest]; simpl; try done;
    repeat (match goal with
            | |- context [(?a <? ?b)%Z] =>
                let Hc := fresh "Hc" in
                destruct (a <? b)%Z eqn:Hc;
                [apply Z.ltb_lt in Hc | apply Z.ltb_ge in Hc]
            end);
    intros [= <-]; rewrite ?list_elem_of_singleton, ?elem_of_nil;
    (split; [intros Hv; subst; repeat split; auto;
             try (intros; eexists; split; [reflexivity|lia]); try lia; try done
            |intros ((_ & Hlo & Hhi) & Hcs); try done;
             try (destruct (Hlo ltac:(lia)) as (m & [= <-] & ?); lia);
             try (destruct (Hhi ltac:(lia)) as (m & [= <-] & ?); lia);
             try (destruct (Hlo ltac:(lia)) as (m & ? & ?); done);
             try (destruct (Hhi ltac:(lia)) as (m & ? & ?); done)]).
Qed.

Lemma getBrowserHTTPOptions_elem (g : HeaderGenerator) (opts : HeaderConstraints.t)
    (l : list string) (v : string) :
  getBrowserHTTPOptions g opts = Some l →
  (v ∈ l ↔
   match HeaderConstraints.BrowserSpecs opts with
   | [] =>
       ∃ browserName ub,
         browserName ∈ HeaderConstraints.Browsers opts ∧ ub ∈ uniqueBrowsers g
         ∧ answersName browserName (HeaderConstraints.HTTPVersion opts) ub
         ∧ httpBrowser.CompleteString ub = v
   | specs =>
       ∃ spec ub,
         spec ∈ specs ∧ ub ∈ uniqueBrowsers g ∧ answersSpec spec ub
         ∧ httpBrowser.CompleteString ub = v
   end).
Proof.
  unfold getBrowserHTTPOptions.
  destruct (HeaderConstraints.BrowserSpecs opts) as [|spec0 specs] eqn:Hspecs.
  - intros [= <-]. rewrite list_elem_of_bind. split.
    + intros (name & Hv & Hname). apply list_elem_of_bind in Hv as (ub & Hv & Hub).
      apply matchBrowserName_elem in Hv as [? ?]. by exists name, ub.
    + intros (name & ub & Hname & Hub & Hans & Hcs). exists name. split; [|done].
      apply list_elem_of_bind. exists ub. split; [|done]. by apply matchBrowserName_elem.
  - intros Hc. apply concat_options_Some in Hc as [_ Hin]. rewrite Hin. split.
    + intros (x & Hx & Hv). apply list_elem_of_bind in Hx as (spec & Hx & Hspec).
      apply list_elem_of_bind in Hx as (ub & Hx & Hub).
      apply list_elem_of_singleton in Hx. symmetry in Hx.
      apply (matchBrowserSpec_elem _ _ _ v) in Hx. apply Hx in Hv as [? ?].
      by exists spec, ub.
    + intros (spec & ub & Hspec & Hub & Hans & Hcs).
      assert (is_Some (matchBrowserSpec spec ub)) as [x Hx].
      { unfold matchBrowserSpec. destruct Hans as ((Hn & _) & Hlo & Hhi).
        rewrite bool_decide_true by done. case_match; [|done].
        destruct (0 <? BrowserSpec.MinVersion spec)%Z eqn:Hmin.
        - apply Z.ltb_lt in Hmin. destruct (Hlo Hmin) as (m & -> & _).
          case_match; [done|].
          destruct (0 <? BrowserSpec.MaxVersion spec)%Z; [case_match|]; done.
        - destruct (0 <? BrowserSpec.MaxVersion spec)%Z eqn:Hmax; [|done].
          apply Z.ltb_lt in Hmax. destruct (Hhi Hmax) as (m & -> & _). by case_match. }
      exists x. split.
      * apply list_elem_of_bind. exists spec. split; [|done].
        apply list_elem_of_bind. exists ub. split; [|done].
        apply list_elem_of_singleton. done.
      * by apply (matchBrowserSpec_elem _ _ _ v Hx).
Qed.

(** X11.  The candidates for [*BROWSER_HTTP] are the complete strings
    of the unique browsers that answer the request.  Without browser
    specs those are the unique browsers whose name is one of the
    requested browsers and whose HTTP version is the requested one (any
    when it is empty); with browser specs, which then alone decide, those
    that have the name and HTTP version of a spec and a major version
    within the bounds of the spec that are positive. *)
Theorem X11_browser_candidates (g : HeaderGenerator) (opts : HeaderConstraints.t)
    (l : list string) :
  getBrowserHTTPOptions g opts = Some l →
  ∀ v,
    v ∈ l ↔
    match HeaderConstraints.BrowserSpecs opts with
    | [] =>
        ∃ browserName ub,
          browserName ∈ HeaderConstraints.Browsers opts ∧ ub ∈ uniqueBrowsers g
          ∧ answersName browserName (HeaderConstraints.HTTPVersion opts) ub
          ∧ httpBrowser.CompleteString ub = v
    | specs =>
        ∃ spec ub,
          spec ∈ specs ∧ ub ∈ uniqueBrowsers g ∧ answersSpec spec ub
          ∧ httpBrowser.CompleteString ub = v
    end.
Proof. intros Hl v. by apply getBrowserHTTPOptions_elem. Qed.

Section LoadedBrowsers.
Context `{GoRuntime}.

Lemma loadUniqueBrowsers_elem (browserStrings : list string) (b : httpBrowser.t) :
  b ∈ Loading.loadUniqueBrowsers browserStrings →
  httpBrowser.CompleteString b ∈ browserStrings
  ∧ httpBrowser.CompleteString b ≠ missingValueToken
  ∧ prepareHttpBrowserObject (httpBrowser.CompleteString b) = Some b
  ∧ httpBrowser.Name b ≠ None
  ∧ httpBrowser.Version b ≠ [].
Proof.
  unfold Loading.loadUniqueBrowsers. rewrite list_elem_of_omap.
  intros (s & Hs & Hb). case_bool_decide as Hm; [done|].
  destruct (prepareHttpBrowserObject_Some s b Hb) as (Hcs & Hname & Hver).
  rewrite Hcs. assert (httpBrowser.Name b ≠ None) as Hn by (by rewrite Hname).
  split_and!; [done..|]. by apply Hver.
Qed.

Lemma getBrowserHTTPOptions_is_Some (g : HeaderGenerator) (opts : HeaderConstraints.t) :
  (∀ b, b ∈ uniqueBrowsers g → httpBrowser.Name b ≠ None → httpBrowser.Version b ≠ []) →
  is_Some (getBrowserHTTPOptions g opts) ∧ is_Some (prepareConstraints g opts).
Proof.
  intros Hver.
  assert (is_Some (getBrowserHTTPOptions g opts)) as [l Hl].
  { unfold getBrowserHTTPOptions.
    destruct (HeaderConstraints.BrowserSpecs opts) as [|spec0 specs]; [done|].
    apply concat_options_is_Some. intros x Hx.
    apply list_elem_of_bind in Hx as (spec & Hx & _).
    apply list_elem_of_bind in Hx as (ub & Hx & Hub).
    apply list_elem_of_singleton in Hx as ->.
    apply matchBrowserSpec_is_Some. by apply Hver. }
  split; [by exists l|].
  unfold prepareConstraints, getPossibleAttributeValues. by rewrite Hl.
Qed.

End LoadedBrowsers.

(** X12.  Every record [loadUniqueBrowsers] keeps comes from a string of
    the helper file other than the missing-value token, which it holds
    as complete string and parses back from, and has a name and at least
    one version number.  So on a generator loaded this way the read of
    the major version in [getBrowserHTTPOptions] is always in range: for
    options whose browser specs are non-nil pointers, as the records of
    [HeaderConstraints.BrowserSpecs] are, building the candidates and
    [prepareConstraints] return. *)
Theorem X12_loaded_browsers_have_versions `{GoRuntime} (browserStrings : list string) :
  (∀ b, b ∈ Loading.loadUniqueBrowsers browserStrings →
        httpBrowser.CompleteString b ∈ browserStrings
        ∧ httpBrowser.CompleteString b ≠ missingValueToken
        ∧ prepareHttpBrowserObject (httpBrowser.CompleteString b) = Some b
        ∧ httpBrowser.Name b ≠ None
        ∧ httpBrowser.Version b ≠ [])
  ∧ (∀ g opts,
       uniqueBrowsers g = Loading.loadUniqueBrowsers browserStrings →
       is_Some (getBrowserHTTPOptions g opts) ∧ is_Some (prepareConstraints g opts)).
Proof.
  split; [apply loadUniqueBrowsers_elem|].
  intros g opts Hg. apply getBrowserHTTPOptions_is_Some.
  intros b Hb _. rewrite Hg in Hb.
  by destruct (loadUniqueBrowsers_elem _ _ Hb) as (_ & _ & _ & _ & ?).
Qed.

Lemma X12_witness :
  is_Some (prepareConstraints toyHeaderGenerator
             {| HeaderConstraints.BrowserSpecs :=
                  [{| BrowserSpec.Name := "chrome"; BrowserSpec.MinVersion := 100;
                      BrowserSpec.MaxVersion := 200; BrowserSpec.HTTPVersion := "" |}];
                HeaderConstraints.Browsers := SupportedBrowsers;
                HeaderConstraints.OS := [];
                HeaderConstraints.Devices := [];
                HeaderConstraints.Locales := [];
                HeaderConstraints.HTTPVersion := "2";
                HeaderConstraints.Strict := false |}).
Proof.
  apply (proj2 (X12_loaded_browsers_have_versions (H := runtime)
                  ["chrome/131.0.0.0|2"; "safari/17.0|2"; "firefox/120.0|2"])).
  reflexivity.
Defined.

Lemma X11_witness :
  "chrome/131.0.0.0|2"
  ∈ default [] (getBrowserHTTPOptions toyHeaderGenerator
                  {| HeaderConstraints.BrowserSpecs :=
                       [{| BrowserSpec.Name := "chrome"; BrowserSpec.MinVersion := 100;
                           BrowserSpec.MaxVersion := 0; BrowserSpec.HTTPVersion := "" |}];
                     HeaderConstraints.Browsers := [];
                     HeaderConstraints.OS := [];
                     HeaderConstraints.Devices := [];
                     HeaderConstraints.Locales := [];
                     HeaderConstraints.HTTPVersion := "1";
                     HeaderConstraints.Strict := false |}).
Proof.
  set (opts := {| HeaderConstraints.BrowserSpecs := _ |}).
  assert (getBrowserHTTPOptions toyHeaderGenerator opts = Some ["chrome/131.0.0.0|2"])
    as Hl by vm_refl.
  rewrite Hl. simpl.
  apply (X11_browser_candidates toyHeaderGenerator opts _ Hl).
  clear Hl. subst opts. simpl.
  exists {| BrowserSpec.Name := "chrome"; BrowserSpec.MinVersion := 100;
            BrowserSpec.MaxVersion := 0; BrowserSpec.HTTPVersion := "" |},
         {| httpBrowser.Name := Some "chrome";
            httpBrowser.Version := [131; 0; 0; 0];
            httpBrowser.CompleteString := "chrome/131.0.0.0|2";
            httpBrowser.HTTPVersion := "2" |}.
  split_and!; [left | left | | reflexivity].
  unfold answersSpec, answersName. simpl. split_and!; [done | by right | | lia].
  intros _. exists 131. split; [done | lia].
Defined.

Lemma httpValuesOf_size (opts : HeaderConstraints.t) :
  (size (httpValuesOf opts) =? 0)%nat = false.
Proof.
  apply Nat.eqb_neq. apply map_size_non_empty_iff. intros Hempty.
  assert (httpValuesOf opts !! "*DEVICE" = None) as Hl by (by rewrite Hempty).
  unfold httpValuesOf in Hl. by rewrite lookup_insert_eq in Hl.
Qed.

Lemma httpValuesOf_lookup (opts : HeaderConstraints.t) :
  httpValuesOf opts !! "*BROWSER" = Some (HeaderConstraints.Browsers opts)
  ∧ httpValuesOf opts !! "*OPERATING_SYSTEM" = Some (HeaderConstraints.OS opts)
  ∧ httpValuesOf opts !! "*DEVICE" = Some (HeaderConstraints.Devices opts).
Proof.
  unfold httpValuesOf. split_and!.
  - rewrite !lookup_insert_ne by done. apply lookup_insert_eq.
  - rewrite lookup_insert_ne by done. apply lookup_insert_eq.
  - apply lookup_insert_eq.
Qed.

(** A candidate passes [filterBrowserHTTP] when it has the form
    name/version|httpVersion with a requested browser name. *)
Lemma filterBrowserHTTP_spec (opts : HeaderConstraints.t) (v : string) :
  filterBrowserHTTP v (httpValuesOf opts) (httpValuesOf opts) = true ↔
  ∃ browserString httpVersion browserName versionString,
    GoStrings.Split "|" v = [browserString; httpVersion]
    ∧ GoStrings.Split "/" browserString = [browserName; versionString]
    ∧ browserName ∈ HeaderConstraints.Browsers opts.
Proof.
  unfold filterBrowserHTTP. rewrite httpValuesOf_size.
  rewrite (proj1 (httpValuesOf_lookup opts)). simpl.
  destruct (GoStrings.Split "|" v) as [|bs [|hv [|x l]]]; try naive_solver.
  destruct (GoStrings.Split "/" bs) as [|name [|ver [|y l']]] eqn:Hs2;
    try (split; [done|];
         intros (bs' & hv' & name' & ver' & [= <- <-] & Hs & _);
         rewrite Hs2 in Hs; done).
  assert ((if bool_decide (hv = "1")
           then bool_decide (name ∈ HeaderConstraints.Browsers opts)
           else bool_decide (name ∈ HeaderConstraints.Browsers opts))
          = bool_decide (name ∈ HeaderConstraints.Browsers opts)) as ->
    by (by destruct (bool_decide (hv = "1"))).
  rewrite bool_decide_eq_true. split.
  - intros Hin. by exists bs, hv, name, ver.
  - intros (bs' & hv' & name' & ver' & [= <- <-] & Hs & Hin).
    rewrite Hs2 in Hs. by injection Hs as <- <-.
Qed.

Lemma filterOtherValues_own (opts : HeaderConstraints.t) (key value : string) :
  value ∈ default [] (httpValuesOf opts !! key) →
  filterOtherValues value (httpValuesOf opts) (httpValuesOf opts) key = true.
Proof.
  intros Hin. unfold filterOtherValues. rewrite httpValuesOf_size. simpl.
  by rewrite bool_decide_true.
Qed.

Lemma nonEmpty_filter_all (P : string → Prop) `{!∀ x, Decision (P x)} (l : list string) :
  (∀ x, x ∈ l → P x) →
  (if (0 <? length (filter P l))%nat then Some (filter P l) else None) = nonEmpty l.
Proof. intros Hall. rewrite filter_all_True by done. by destruct l. Qed.

Lemma nonEmpty_length (l : list string) :
  (if (0 <? length l)%nat then Some l else None) = nonEmpty l.
Proof. by destruct l. Qed.

Lemma nonEmpty_Some (l r : list string) : nonEmpty l = Some r → r = l ∧ r ≠ [].
Proof. destruct l; [done|]. by intros [= <-]. Qed.

Lemma getPossibleAttributeValues_lookup (g : HeaderGenerator)
    (opts : HeaderConstraints.t) (l : list string) :
  getBrowserHTTPOptions g opts = Some l →
  ∃ pv,
    getPossibleAttributeValues g opts = Some pv
    ∧ pv !! "*BROWSER_HTTP" = Some l
    ∧ pv !! "*OPERATING_SYSTEM" = nonEmpty (HeaderConstraints.OS opts)
    ∧ pv !! "*DEVICE" = nonEmpty (HeaderConstraints.Devices opts)
    ∧ (∀ k, k ∉ ["*BROWSER_HTTP"; "*OPERATING_SYSTEM"; "*DEVICE"] → pv !! k = None).
Proof.
  intros Hl. unfold getPossibleAttributeValues. rewrite Hl.
  eexists. split; [reflexivity|].
  destruct (HeaderConstraints.OS opts) as [|o os];
    destruct (HeaderConstraints.Devices opts) as [|d ds]; simpl;
    (split_and!;
     [..|intros k Hk; rewrite !not_elem_of_cons in Hk; destruct Hk as (? & ? & ? & _)]);
    rewrite ?lookup_insert_ne by done; rewrite ?lookup_insert_eq, ?lookup_empty; done.
Qed.

Lemma prepareConstraints_lookup (g : HeaderGenerator) (opts : HeaderConstraints.t)
    (l : list string) :
  getBrowserHTTPOptions g opts = Some l →
  ∃ ic,
    prepareConstraints g opts = Some ic
    ∧ ic !! "*BROWSER_HTTP"
      = nonEmpty (filter (fun v => filterBrowserHTTP v (httpValuesOf opts)
                                     (httpValuesOf opts) = true) l)
    ∧ ic !! "*OPERATING_SYSTEM" = nonEmpty (HeaderConstraints.OS opts)
    ∧ ic !! "*DEVICE" = nonEmpty (HeaderConstraints.Devices opts)
    ∧ (∀ k, k ∉ ["*BROWSER_HTTP"; "*OPERATING_SYSTEM"; "*DEVICE"] → ic !! k = None).
Proof.
  intros Hl.
  destruct (getPossibleAttributeValues_lookup g opts l Hl)
    as (pv & Hpv & Hb & Hos & Hdev & Hrest).
  unfold prepareConstraints. rewrite Hpv. fold (httpValuesOf opts).
  eexists. split; [reflexivity|].
  destruct (httpValuesOf_lookup opts) as (_ & Hhos & Hhdev).
  assert (∀ key values,
            httpValuesOf opts !! key = Some values → key ≠ "*BROWSER_HTTP" →
            nonEmpty values ≫=
              (λ values,
                 let filteredValues :=
                   filter (λ value,
                             (if bool_decide (key = "*BROWSER_HTTP")
                              then filterBrowserHTTP value (httpValuesOf opts)
                                     (httpValuesOf opts)
                              else filterOtherValues value (httpValuesOf opts)
                                     (httpValuesOf opts) key) = true) values in
                 if (0 <? length filteredValues)%nat then Some filteredValues else None)
            = nonEmpty values) as Hother.
  { intros key values Hk Hne. destruct values as [|x values]; [done|].
    simpl mbind. apply nonEmpty_filter_all.
    intros y Hy. rewrite bool_decide_false by done.
    apply filterOtherValues_own. by rewrite Hk. }
  split_and!.
  - rewrite map_lookup_imap, Hb. simpl. apply nonEmpty_length.
  - rewrite map_lookup_imap, Hos. by apply Hother.
  - rewrite map_lookup_imap, Hdev. by apply Hother.
  - intros k Hk. by rewrite map_lookup_imap, (Hrest k Hk).
Qed.

(** X13.  The restrictions [prepareConstraints] hands to the input
    network have at most the keys [*BROWSER_HTTP], [*OPERATING_SYSTEM]
    and [*DEVICE] and never an empty list: the operating systems and the
    devices are passed as given, the browser candidates are those of the
    form name/version|httpVersion whose name is a requested browser, and a
    key whose list would be empty is left out.  So when no browser
    candidate is left, the browser is not restricted at all: restricted
    sampling draws [*BROWSER_HTTP] from the node's own possible values. *)
Theorem X13_prepared_constraints (g : HeaderGenerator) (opts : HeaderConstraints.t)
    (l : list string) :
  getBrowserHTTPOptions g opts = Some l →
  let kept :=
    filter (fun v => filterBrowserHTTP v (httpValuesOf opts) (httpValuesOf opts) = true) l in
  (∀ v, v ∈ kept ↔
        v ∈ l ∧ ∃ browserString httpVersion browserName versionString,
                  GoStrings.Split "|" v = [browserString; httpVersion]
                  ∧ GoStrings.Split "/" browserString = [browserName; versionString]
                  ∧ browserName ∈ HeaderConstraints.Browsers opts)
  ∧ ∃ ic,
      prepareConstraints g opts = Some ic
      ∧ ic !! "*BROWSER_HTTP" = nonEmpty kept
      ∧ ic !! "*OPERATING_SYSTEM" = nonEmpty (HeaderConstraints.OS opts)
      ∧ ic !! "*DEVICE" = nonEmpty (HeaderConstraints.Devices opts)
      ∧ (∀ k, k ∉ ["*BROWSER_HTTP"; "*OPERATING_SYSTEM"; "*DEVICE"] → ic !! k = None)
      ∧ (∀ k r, ic !! k = Some r → r ≠ [])
      ∧ (kept = [] →
         ∀ n, Name n = "*BROWSER_HTTP" → possibilities ic n = PossibleValues n).
Proof.
  intros Hl kept. split.
  { intros v. subst kept. rewrite list_elem_of_filter, filterBrowserHTTP_spec.
    naive_solver. }
  destruct (prepareConstraints_lookup g opts l Hl) as (ic & Hic & Hb & Hos & Hdev & Hrest).
  exists ic. split_and!; try done.
  - intros k r Hk.
    destruct (decide (k ∈ ["*BROWSER_HTTP"; "*OPERATING_SYSTEM"; "*DEVICE"])) as [Hin|Hnin].
    + repeat (apply elem_of_cons in Hin as [->|Hin]);
        [rewrite Hb in Hk | rewrite Hos in Hk | rewrite Hdev in Hk
         | by apply elem_of_nil in Hin];
        by apply nonEmpty_Some in Hk as [_ ?].
    + by rewrite (Hrest k Hnin) in Hk.
  - intros Hnil n Hn. unfold possibilities. rewrite Hn, Hb. fold kept. by rewrite Hnil.
Qed.

Lemma X13_witness :
  ∃ ic, prepareConstraints toyHeaderGenerator
          (mergeOptions toyHeaderGenerator (onlyBrowsers ["edge"] true)).1 = Some ic
        ∧ possibilities ic nodeBrowserHTTP = ["chrome/131.0.0.0|2"; "safari/17.0|2"].
Proof.
  destruct (X13_prepared_constraints toyHeaderGenerator
              (mergeOptions toyHeaderGenerator (onlyBrowsers ["edge"] true)).1 [])
    as (_ & ic & Hic & _ & _ & _ & _ & _ & Hfree).
  { vm_refl. }
  exists ic. split; [exact Hic|]. clear Hic.
  apply (Hfree eq_refl nodeBrowserHTTP eq_refl).
Defined.

(* ===================================================================== *)
(** ** Header generation inside [Generate] *)
(* ===================================================================== *)

Lemma completes_candidates valuePossibilities (s : gmap string string) :
  ∀ nodes sampleSoFar,
    completes valuePossibilities nodes sampleSoFar (valuesOf s nodes) →
    ∀ n, n ∈ nodes → index_str s (Name n) ∈ possibilities valuePossibilities n.
Proof.
  induction nodes as [|n0 nodes IH]; intros sampleSoFar Hc n Hn.
  { by apply elem_of_nil in Hn. }
  simpl in Hc. destruct Hc as (Hv & _ & Hc).
  apply elem_of_cons in Hn as [->|Hn]; [exact Hv|].
  by apply (IH _ Hc).
Qed.

(** X14.  A call of [Generate] whose header generation succeeds on the
    first restricted sample under a merged httpVersion other than "2"
    gets the pair (nil, nil) from [GenerateHeaders], finds no User-Agent
    in it and fails with the error of the missing User-Agent: it never
    reaches the fingerprint network. *)
Theorem X14_generate_without_http2 `{GoRuntime} (Fingerprint : Type)
    (transformFingerprint :
       gmap string string -> gmap string string -> bool -> bool -> result Fingerprint)
    fuel g opts w constraints inputConstraints inputSample w1 sample_ w2 :
  let g' := foldl applyOption g opts in
  mergeOptions (headerGenerator g') (headerConstraints g') = (constraints, None) →
  prepareConstraints (headerGenerator g') constraints = Some inputConstraints →
  generateConsistentSampleWhenPossible fuel (inputGeneratorNetwork (headerGenerator g'))
    inputConstraints w = Ret (Some inputSample, w1) →
  generateSample (headerGeneratorNetwork (headerGenerator g')) inputSample w1
    = Ret (sample_, w2) →
  HeaderConstraints.HTTPVersion constraints ≠ "2" →
  GenerateHeaders (S fuel) (headerGenerator g') (headerConstraints g') w = Ret (OK None, w2)
  ∧ Generate Fingerprint transformFingerprint (S fuel) g opts w
    = Ret ((Err ErrNoUserAgent, g'), w2).
Proof.
  intros g' Hm Hp Hin Hout Hv.
  pose proof (GenerateHeaders_http1_nil fuel _ _ w _ _ _ _ _ _ Hm Hp Hin Hout Hv) as Hh.
  split; [exact Hh|].
  unfold Generate. fold g'. unfold bind. rewrite Hh. reflexivity.
Qed.

Lemma X14_witness :
  Generate rawFingerprint keepRaw 10 toyFingerprintGenerator
    [WithHeaderConstraints (withHTTPVersion noConstraints "1")] w0
  = Ret ((Err ErrNoUserAgent,
          foldl applyOption toyFingerprintGenerator
            [WithHeaderConstraints (withHTTPVersion noConstraints "1")]), w0).
Proof.
  refine (proj2 (X14_generate_without_http2 (H := runtime) rawFingerprint keepRaw 9
                   toyFingerprintGenerator
                   [WithHeaderConstraints (withHTTPVersion noConstraints "1")] w0
                   (mergeOptions toyHeaderGenerator (withHTTPVersion noConstraints "1")).1
                   {[ "*OPERATING_SYSTEM" := SupportedOS; "*DEVICE" := SupportedDevices ]}
                   {[ "*BROWSER_HTTP" := "chrome/131.0.0.0|2" ]} w0 chromeSample w0
                   _ _ _ _ _)); [vm_refl..|vm_decide].
Defined.

(** X15.  In strict mode [Generate] hands [transformFingerprint] only a
    raw fingerprint drawn under the restriction to the generated
    User-Agent: the call ends in one of the three errors of [Generate]
    itself, or it returns what [transformFingerprint] makes of the
    generated headers and a raw fingerprint whose [userAgent], when the
    fingerprint network has distinct node names and a node of that name,
    is the non-empty User-Agent header. *)
Theorem X15_strict_fingerprint_user_agent `{GoRuntime} (Fingerprint : Type)
    (transformFingerprint :
       gmap string string -> gmap string string -> bool -> bool -> result Fingerprint)
    fuel g opts w r g' w' :
  Generate Fingerprint transformFingerprint fuel g opts w = Ret ((r, g'), w') →
  strict g' = true →
  NoDup (Name <$> NodesInSamplingOrder (network g')) →
  "userAgent" ∈ Name <$> NodesInSamplingOrder (network g') →
  (∃ e, r = Err (ErrGenerateHeaders e))
  ∨ r = Err ErrNoUserAgent
  ∨ r = Err ErrNoFingerprint
  ∨ ∃ fingerprint headers userAgent,
      r = transformFingerprint fingerprint headers (mockWebRTC g') (slim g')
      ∧ headers !! "User-Agent" = Some userAgent
      ∧ userAgent ≠ ""
      ∧ fingerprint !! "userAgent" = Some userAgent.
Proof.
  intros Hrun Hstrict Hnd Hua. unfold Generate in Hrun.
  apply bind_Ret in Hrun as (hr & w1 & _ & Hrest).
  destruct hr as [headers|e].
  2:{ injection Hrest as <- _ _. left. by exists e. }
  case_bool_decide as Hempty.
  { injection Hrest as <- _ _. right; left. done. }
  apply bind_Ret in Hrest as (fp & w2 & Hfp & Hrest).
  destruct fp as [fingerprint|].
  2:{ destruct (strict (foldl applyOption g opts)) eqn:Hs.
      - injection Hrest as <- _ _. right; right; left. done.
      - apply bind_Ret in Hrest as (fingerprint & w3 & _ & Hret).
        injection Hret as _ <- _. congruence. }
  injection Hrest as <- <- <-. right; right; right.
  set (g' := foldl applyOption g opts) in *.
  set (hs := default ∅ headers) in *.
  exists fingerprint, hs, (index_str hs "User-Agent").
  assert (hs !! "User-Agent" = Some (index_str hs "User-Agent")) as Hh.
  { unfold index_str in Hempty |- *. by destruct (hs !! "User-Agent"). }
  split_and!; [done..|].
  apply list_elem_of_fmap in Hua as (n & Hname & Hn).
  pose proof (generateConsistent_sound _ _ _ _ _ _ Hnd Hfp) as Hc.
  pose proof (completes_candidates _ _ _ _ Hc n Hn) as Hcand.
  unfold possibilities in Hcand. rewrite <- Hname, lookup_singleton_eq in Hcand.
  apply list_elem_of_singleton in Hcand.
  unfold index_str in Hcand at 1.
  destruct (fingerprint !! "userAgent") as [v|]; simpl in Hcand; congruence.
Qed.

Lemma X15_witness :
  ∃ fingerprint headers,
    Generate rawFingerprint keepRaw 10 toyFingerprintGenerator [WithStrict true] w0
    = Ret ((OK (fingerprint, headers, false, false),
            foldl applyOption toyFingerprintGenerator [WithStrict true]), w0)
    ∧ fingerprint !! "userAgent" = headers !! "User-Agent".
Proof.
  exists {[ "userAgent" := "Mozilla/5.0 Chrome/131.0.0.0" ]}, chromeHeaders.
  assert (Generate rawFingerprint keepRaw 10 toyFingerprintGenerator [WithStrict true] w0
          = Ret ((OK ({[ "userAgent" := "Mozilla/5.0 Chrome/131.0.0.0" ]},
                      chromeHeaders, false, false),
                  foldl applyOption toyFingerprintGenerator [WithStrict true]), w0))
    as Hrun by vm_refl.
  split; [exact Hrun|].
  destruct (X15_strict_fingerprint_user_agent (H := runtime) _ _ _ _ _ _ _ _ _ Hrun
              eq_refl ltac:(vm_decide) ltac:(vm_decide))
    as [[e He]|[He|[He|(fingerprint & headers & userAgent & He & Hh & _ & Hf)]]];
    [discriminate He..|].
  clear Hrun. injection He as -> ->. by rewrite Hh, Hf.
Defined.

(* ===================================================================== *)
(** ** Re-casing *)
(* ===================================================================== *)

(** X16.  When no two header names of a map re-case to the same name,
    [pascalizeHeaders] gives the same map whatever the iteration order:
    the entries of the result are exactly the entries of the input under
    their re-cased names, so a name outside the re-cased list keeps its
    entry as it is. *)
Theorem X16_pascalize_without_collision `{GoRuntime} (headers : gmap string string) w :
  (∀ k1 k2, is_Some (headers !! k1) → is_Some (headers !! k2) →
            pascalizedKey k1 = pascalizedKey k2 → k1 = k2) →
  ∃ out w',
    pascalizeHeaders (Some headers) w = Ret (out, w')
    ∧ (∀ k' v, out !! k' = Some v ↔ ∃ k, headers !! k = Some v ∧ pascalizedKey k = k')
    ∧ (∀ k v, headers !! k = Some v → strings_ToLower k ∉ pascalizedNames →
              out !! k = Some v).
Proof.
  intros Hinj.
  destruct (pascalizeHeaders_Ret headers w) as (out & w' & Hrun & Hfrom & _ & Hto).
  exists out, w'. split; [exact Hrun|].
  assert (∀ k v, headers !! k = Some v → out !! pascalizedKey k = Some v) as Hall.
  { intros k v Hk. apply Hto; [exact Hk|].
    intros k2 v2 Hk2 Heq. rewrite (Hinj k2 k) in Hk2 by done. congruence. }
  split.
  - intros k' v. split; [apply Hfrom|]. intros (k & Hk & <-). by apply Hall.
  - intros k v Hk Hlow. specialize (Hall k v Hk).
    unfold pascalizedKey in Hall. by rewrite bool_decide_false in Hall.
Qed.

Lemma X16_witness :
  ∃ w',
    pascalizeHeaders (Some {[ "user-agent" := "curl/8.0"; "sec-ch-ua" := "x" ]}) w0
    = Ret ({[ "User-Agent" := "curl/8.0"; "sec-ch-ua" := "x" ]}, w').
Proof.
  destruct (X16_pascalize_without_collision (H := runtime)
              {[ "user-agent" := "curl/8.0"; "sec-ch-ua" := "x" ]} w0)
    as (out & w' & Hrun & Hout & _).
  { intros k1 k2 [v1 H1] [v2 H2].
    apply lookup_insert_Some in H1 as [[<- _]|[_ H1]];
      [|apply lookup_singleton_Some in H1 as [<- _]];
      (apply lookup_insert_Some in H2 as [[<- _]|[_ H2]];
       [|apply lookup_singleton_Some in H2 as [<- _]]);
      intros Heq; first [reflexivity | vm_compute in Heq; discriminate Heq]. }
  exists w'. rewrite Hrun. do 2 f_equal. apply map_eq. intros k'.
  apply option_eq. intros v. rewrite Hout. clear Hrun Hout. split.
  - intros (k & Hk & <-).
    apply lookup_insert_Some in Hk as [[<- <-]|[_ Hk]];
      [|apply lookup_singleton_Some in Hk as [<- <-]]; vm_refl.
  - intros Hk.
    apply lookup_insert_Some in Hk as [[<- <-]|[_ Hk]];
      [|apply lookup_singleton_Some in Hk as [<- <-]].
    + exists "user-agent". split; vm_refl.
    + exists "sec-ch-ua". split; vm_refl.
Defined.

(* ===================================================================== *)
(** ** The relaxation retry *)
(* ===================================================================== *)

Lemma generateConsistent_complete `{GoRuntime} fuel bn valuePossibilities w w' :
  NoDup (Name <$> NodesInSamplingOrder bn) →
  generateConsistentSampleWhenPossible fuel bn valuePossibilities w = Ret (None, w') →
  ∀ fuel2 w2 s w2',
    generateConsistentSampleWhenPossible fuel2 bn valuePossibilities w2 ≠ Ret (Some s, w2').
Proof.
  intros Hnd Hrun.
  assert (∀ vs, ¬ completes valuePossibilities (NodesInSamplingOrder bn) ∅ vs) as Hnone.
  { unfold generateConsistentSampleWhenPossible in Hrun.
    apply bind_Ret in Hrun as ([r shared] & w1 & Hrec & Hret). injection Hret as -> ->.
    pose proof (recursively_sound_complete _ _ _ _ _ _ _ _ _ _ Hrec) as Hsc.
    rewrite drop_0 in Hsc. destruct Hsc as [_ Hsc]; [done..|].
    apply Hsc. intros ? ? _. apply not_elem_of_nil. }
  intros fuel2 w2 s w2' Hrun2.
  by apply (Hnone _ (generateConsistent_sound _ _ _ _ _ _ Hnd Hrun2)).
Qed.

(** X17.  The retry of the non-strict branch has no bound.  When the
    merged constraints are not strict, their httpVersion is not "1",
    relaxing them and merging again gives them back (the merge restores
    the default devices and locales the relaxation clears), and no
    restricted sample of the input network exists under them, no call of
    [GenerateHeaders] with these options returns, whatever the random
    sources: every call fails to sample and calls itself on the relaxed
    constraints. *)
Theorem X17_relaxation_never_returns `{GoRuntime} (g : HeaderGenerator)
    (opts constraints : HeaderConstraints.t) (inputConstraints : gmap string (list string)) :
  mergeOptions g opts = (constraints, None) →
  mergeOptions g (relaxed constraints) = (constraints, None) →
  HeaderConstraints.Strict constraints = false →
  HeaderConstraints.HTTPVersion constraints ≠ "1" →
  prepareConstraints g constraints = Some inputConstraints →
  (∀ fuel w s w',
     generateConsistentSampleWhenPossible fuel (inputGeneratorNetwork g) inputConstraints w
     ≠ Ret (Some s, w')) →
  ∀ fuel w r w', GenerateHeaders fuel g opts w ≠ Ret (r, w').
Proof.
  intros Hm Hrelax Hstrict Hv Hp Hfail.
  assert (∀ fuel opts', mergeOptions g opts' = (constraints, None) →
                        ∀ w r w', GenerateHeaders fuel g opts' w ≠ Ret (r, w')) as Hloop.
  { induction fuel as [|fuel IH]; intros opts' Hm' w r w'; [done|].
    rewrite GenerateHeaders_unfold, Hm', Hp.
    destruct (generateConsistentSampleWhenPossible fuel (inputGeneratorNetwork g)
                inputConstraints w) as [[[s|] w1]| |] eqn:Hs; [|  |done..].
    { by apply Hfail in Hs. }
    rewrite bool_decide_false by done. rewrite Hstrict.
    intros Hret. apply bind_Ret in Hret as (r1 & w2 & Hret & _).
    by apply (IH _ Hrelax) in Hret. }
  intros fuel. by apply Hloop.
Qed.

Lemma X17_witness :
  ¬ ∃ rw, GenerateHeaders 100 toyHeaderGenerator (onlyBrowsers ["firefox"] false) w0
          = Ret rw.
Proof.
  intros [[r w'] Hret]. revert Hret.
  apply (X17_relaxation_never_returns (H := runtime) toyHeaderGenerator
           (onlyBrowsers ["firefox"] false)
           (mergeOptions toyHeaderGenerator (onlyBrowsers ["firefox"] false)).1
           {[ "*BROWSER_HTTP" := ["firefox/120.0|2"];
              "*OPERATING_SYSTEM" := SupportedOS;
              "*DEVICE" := SupportedDevices ]}); [vm_refl|vm_refl|vm_refl|vm_decide|vm_refl|].
  apply (generateConsistent_complete (H := runtime) 3 inputNet _ w0 w0);
    [vm_decide|vm_refl].
Defined.

(* ===================================================================== *)
(** ** Inference and sampling *)
(* ===================================================================== *)

Lemma parents_names (bn : bayesianNetwork) (n : node) :
  (∀ k m, NodesByName bn !! k = Some m → Name m = k) →
  (∀ parentName, parentName ∈ ParentNames n → is_Some (NodesByName bn !! parentName)) →
  Name <$> parents bn n = ParentNames n.
Proof.
  intros Hkey. unfold parents.
  induction (ParentNames n) as [|pn pns IH]; intros Hall; [done|].
  destruct (Hall pn) as [m Hm]; [by left|].
  simpl. rewrite Hm. simpl. rewrite (Hkey _ _ Hm). f_equal.
  apply IH. intros pn' Hpn'. apply Hall. by right.
Qed.

Lemma navigate_descend_all (evidence : gmap string string) :
  ∀ (ps : list node) current parentValues leaf_,
    mapM (fun parent => evidence !! Name parent) ps = Some parentValues →
    navigate current parentValues = Some (Some leaf_) →
    descend_all current (Name <$> ps) evidence = Some leaf_.
Proof.
  induction ps as [|p ps IH]; intros current parentValues leaf_ Hvals Hnav.
  { injection Hvals as <-. simpl in Hnav. by injection Hnav as ->. }
  rewrite mapM_Some in Hvals. apply Forall2_cons_inv_l in Hvals as (v & vs & Hv & Hvs & ->).
  rewrite <- mapM_Some in Hvs.
  simpl in Hnav |- *. unfold descend, index_str. rewrite Hv. simpl.
  destruct (current !! "deeper") as [[f|deeper|]|]; try done.
  destruct (deeper !! v) as [[f|next|]|]; try done.
  by apply (IH next vs).
Qed.

Lemma probabilityAt_float_entries (current : gmap string jvalue) (value : string) (p : float) :
  probabilityAt current value = p → p ≠ 0%float →
  float_entries current !! value = Some p.
Proof.
  unfold probabilityAt, float_entries. rewrite lookup_omap.
  destruct (current !! value) as [[f|m|]|]; simpl; congruence.
Qed.

Lemma getProbability_sampling (bn : bayesianNetwork) (nodeName value : string)
    (evidence : gmap string string) (n : node) (p : float) :
  (∀ k m, NodesByName bn !! k = Some m → Name m = k) →
  NodesByName bn !! nodeName = Some n →
  (∀ parentName, parentName ∈ ParentNames n → is_Some (NodesByName bn !! parentName)) →
  getProbability bn nodeName value evidence = Some p →
  p ≠ 0%float →
  ∃ probabilities,
    getProbabilitiesGivenKnownValues n evidence = Some probabilities
    ∧ probabilities !! value = Some p.
Proof.
  intros Hkey Hn Hall Hp Hnz.
  pose proof (parents_names bn n Hkey Hall) as Hnames.
  unfold getProbability in Hp. rewrite Hn in Hp.
  unfold getProbabilitiesGivenKnownValues. rewrite <- Hnames.
  destruct (parents bn n) as [|q qs] eqn:Hps.
  { injection Hp as Hp. simpl. eexists. split; [reflexivity|].
    by apply probabilityAt_float_entries. }
  destruct (mapM _ (q :: qs)) as [parentValues|] eqn:Hvals; [|congruence].
  destruct (navigate (ConditionalProbs n) parentValues) as [[leaf_|]|] eqn:Hnav;
    [|congruence|done].
  injection Hp as Hp.
  rewrite (navigate_descend_all evidence _ _ _ _ Hvals Hnav). simpl.
  eexists. split; [reflexivity|]. by apply probabilityAt_float_entries.
Qed.

(** X18.  Inference agrees with sampling.  In a network keyed by node
    name in which every parent of the node is stored, a probability
    other than zero that [getProbability] returns for a value under some
    evidence is the entry of that value in the distribution
    [getProbabilitiesGivenKnownValues] gives under the same evidence,
    the one the samplers draw from. *)
Theorem X18_inference_agrees_with_sampling (bn : bayesianNetwork) (nodeName value : string)
    (evidence : gmap string string) (n : node) (p : float) :
  (∀ k m, NodesByName bn !! k = Some m → Name m = k) →
  NodesByName bn !! nodeName = Some n →
  (∀ parentName, parentName ∈ ParentNames n → is_Some (NodesByName bn !! parentName)) →
  getProbability bn nodeName value evidence = Some p →
  p ≠ 0%float →
  ∃ probabilities,
    getProbabilitiesGivenKnownValues n evidence = Some probabilities
    ∧ probabilities !! value = Some p.
Proof. apply getProbability_sampling. Qed.

Lemma X18_witness :
  ∃ probabilities,
    getProbabilitiesGivenKnownValues nodeB {[ "A" := "a1" ]} = Some probabilities
    ∧ probabilities !! "b1" = Some 0.7%float.
Proof.
  apply (X18_inference_agrees_with_sampling toy "B" "b1" {[ "A" := "a1" ]} nodeB 0.7%float).
  - intros k m Hk. unfold toy, NodesByName in Hk.
    apply lookup_insert_Some in Hk as [[<- <-]|[_ Hk]]; [reflexivity|].
    apply lookup_insert_Some in Hk as [[<- <-]|[_ Hk]]; [reflexivity|].
    by rewrite lookup_empty in Hk.
  - vm_refl.
  - intros parentName Hin. apply list_elem_of_singleton in Hin as ->.
    exists nodeA. vm_refl.
  - vm_refl.
  - intros Heq.
    assert (PrimFloat.eqb 0.7%float 0%float = true) as Hz by (rewrite Heq; vm_refl).
    vm_compute in Hz. discriminate Hz.
Defined.

Lemma infer_fold (bn : bayesianNetwork) (nodeName : string) (evidence : gmap string string) :
  ∀ (values : list string) (d0 d : gmap string float),
    foldl (fun distribution value =>
             match distribution, getProbability bn nodeName value evidence with
             | Some d, Some p => Some (<[value := p]> d)
             | _, _ => None
             end)
          (Some d0) values = Some d →
    (∀ value, is_Some (d !! value) ↔ is_Some (d0 !! value) ∨ value ∈ values)
    ∧ (∀ value p, d !! value = Some p →
         d0 !! value = Some p
         ∨ (value ∈ values ∧ getProbability bn nodeName value evidence = Some p)).
Proof.
  induction values as [|v values IH]; intros d0 d Hfold; simpl in Hfold.
  { injection Hfold as <-. split.
    - intros value. rewrite elem_of_nil. tauto.
    - intros value p Hd. by left. }
  destruct (getProbability bn nodeName v evidence) as [pv|] eqn:Hpv.
  2:{ exfalso. clear -Hfold. induction values as [|v' values IH]; [done|].
      simpl in Hfold. by apply IH. }
  destruct (IH _ _ Hfold) as [Hdom Hval]. split.
  - intros value. rewrite Hdom, elem_of_cons.
    destruct (decide (value = v)) as [->|Hne].
    + rewrite lookup_insert_eq. split; [intros _; right; by left|intros _; left; eauto].
    + rewrite lookup_insert_ne by done. naive_solver.
  - intros value p Hd. destruct (Hval _ _ Hd) as [Hd0|[Hin Hg]].
    + destruct (decide (value = v)) as [->|Hne].
      * rewrite lookup_insert_eq in Hd0. injection Hd0 as <-. right. split; [by left|done].
      * rewrite lookup_insert_ne in Hd0 by done. by left.
    + right. split; [by right|done].
Qed.

(** X19.  The distribution [infer] returns for a stored node has the
    node's possible values as its keys, no more and no fewer, whatever
    the table of the node holds; and in a network keyed by node name in
    which every parent of the node is stored, each entry other than zero
    is the entry of the distribution the samplers draw from under the
    same evidence. *)
Theorem X19_infer_distribution (bn : bayesianNetwork) (nodeName : string)
    (evidence : gmap string string) (n : node) (d : gmap string float) :
  NodesByName bn !! nodeName = Some n →
  infer bn nodeName evidence = Some (Some d) →
  (∀ value, is_Some (d !! value) ↔ value ∈ PossibleValues n)
  ∧ ((∀ k m, NodesByName bn !! k = Some m → Name m = k) →
     (∀ parentName, parentName ∈ ParentNames n → is_Some (NodesByName bn !! parentName)) →
     ∀ value p, d !! value = Some p → p ≠ 0%float →
       ∃ probabilities,
         getProbabilitiesGivenKnownValues n evidence = Some probabilities
         ∧ probabilities !! value = Some p).
Proof.
  intros Hn Hinfer. unfold infer in Hinfer. rewrite Hn in Hinfer.
  destruct (foldl _ (Some ∅) (PossibleValues n)) as [d'|] eqn:Hfold; [|done].
  injection Hinfer as ->.
  destruct (infer_fold _ _ _ _ _ _ Hfold) as [Hdom Hval]. split.
  - intros value. rewrite Hdom, lookup_empty. split; [|by right].
    intros [[? [=]]|Hin]; done.
  - intros Hkey Hall value p Hd Hnz.
    destruct (Hval _ _ Hd) as [Hd0|[_ Hg]]; [by rewrite lookup_empty in Hd0|].
    by apply (getProbability_sampling bn nodeName value evidence n p).
Qed.

Lemma X19_witness :
  ∃ d, infer toy "B" {[ "A" := "a2" ]} = Some (Some d)
       ∧ (∀ value, is_Some (d !! value) ↔ value ∈ ["b1"; "b2"]).
Proof.
  exists (<["b2" := 0.8%float]> (<["b1" := 0.2%float]> ∅)).
  assert (infer toy "B" {[ "A" := "a2" ]}
          = Some (Some (<["b2" := 0.8%float]> (<["b1" := 0.2%float]> ∅)))) as Hrun by vm_refl.
  split; [exact Hrun|].
  apply (X19_infer_distribution toy "B" {[ "A" := "a2" ]} nodeB _ ltac:(vm_refl) Hrun).
Defined.
